(** * RAGpack: chunking, BM25 sparse index and reciprocal rank fusion

    A shallow embedding of [src/lib/tokenize.ts], [src/lib/bm25.ts],
    [src/lib/chunk.ts] and of the ingest and search handlers of the
    worker, followed by the properties proved about them.

    Conventions of the embedding:
    - a JS string is a [string]; one [ascii] stands for one code unit;
    - a JS [Map] is an insertion-ordered association list ([JSMap]);
    - a JS number that takes part in arithmetic is an element of a
      [Number] structure: binary64 floats ([float_number]) are what the
      engine computes with, the reals ([real_number]) are the exact
      arithmetic the scoring formulas are written in;
    - counters, lengths and character offsets are [nat], integral
      parameters are [Z];
    - what the engine leaves implementation defined (Unicode tables,
      [Intl.Segmenter], [Math.log]) is a field of a structure. *)

From Stdlib Require Import List String Ascii Bool ZArith Lia Permutation Sorted.
From Stdlib Require Import DecimalString DecimalNat Floats Reals Lra.
Import ListNotations.

Local Open Scope string_scope.
Local Open Scope list_scope.

Set Implicit Arguments.

(** ** JS [Map] with string keys: insertion ordered *)

Module JSMap.

Definition t (V : Type) : Type := list (string * V).

Definition empty {V : Type} : t V := [].

(** [m.get(k)]; [None] is [undefined]. *)
Fixpoint get {V : Type} (m : t V) (k : string) : option V :=
  match m with
  | [] => None
  | (k', v) :: m' => if String.eqb k' k then Some v else get m' k
  end.

(** [m.set(k, v)]: an existing key keeps its position, a new key goes
    last. *)
Fixpoint set {V : Type} (k : string) (v : V) (m : t V) : t V :=
  match m with
  | [] => [(k, v)]
  | (k', v') :: m' =>
      if String.eqb k' k then (k', v) :: m' else (k', v') :: set k v m'
  end.

(** [m.get(k) ?? d] *)
Definition get_or {V : Type} (m : t V) (k : string) (d : V) : V :=
  match get m k with
  | Some v => v
  | None => d
  end.

(** [[...m.entries()]] *)
Definition entries {V : Type} (m : t V) : list (string * V) := m.

(** [[...m.values()]] *)
Definition values {V : Type} (m : t V) : list V := map snd m.

Definition keys {V : Type} (m : t V) : list string := map fst m.

(** [new Map(es)] *)
Definition of_entries {V : Type} (es : list (string * V)) : t V :=
  fold_left (fun m e => set (fst e) (snd e) m) es empty.

(** Every map built with [set] from [empty] has distinct keys. *)
Definition wf {V : Type} (m : t V) : Prop := NoDup (keys m).

End JSMap.

(** ** Arrays *)

(** [l.slice(0, k)] for an integral [k]: a negative [k] counts from the
    end. *)
Definition slice0 {A : Type} (k : Z) (l : list A) : list A :=
  if (k <? 0)%Z then firstn (Z.to_nat (Z.of_nat (List.length l) + k)) l
  else firstn (Z.to_nat k) l.

(** ** Numbers *)

Class Number (num : Type) : Type := {
  n0 : num;
  n1 : num;
  n0_5 : num;
  n0_75 : num;
  n1_2 : num;
  n60 : num;
  n1e_8 : num;
  nadd : num -> num -> num;
  nsub : num -> num -> num;
  nmul : num -> num -> num;
  ndiv : num -> num -> num;
  Math_log : num -> num;
  Math_sqrt : num -> num;
  (** the number of an array index or length *)
  of_nat : nat -> num;
  (** [x ? .. : ..] *)
  truthy : num -> bool;
  (** [x < y] *)
  nlt : num -> num -> bool
}.

(** binary64, as the engine computes.  [Math.log] is implementation
    approximated, so it is an argument.  Array lengths are below 2^32,
    where the conversion through [Uint63] is exact. *)
Definition float_of_nat (n : nat) : float :=
  PrimFloat.of_uint63 (Uint63.of_Z (Z.of_nat n)).

Definition float_truthy (x : float) : bool :=
  negb (PrimFloat.eqb x 0%float || PrimFloat.is_nan x).

Definition float_number (log : float -> float) : Number float := {|
  n0 := 0%float;
  n1 := 1%float;
  n0_5 := 0.5%float;
  n0_75 := 0.75%float;
  n1_2 := 0x1.3333333333333p+0%float;
  n60 := 60%float;
  n1e_8 := 0x1.5798ee2308c3ap-27%float;
  nadd := PrimFloat.add;
  nsub := PrimFloat.sub;
  nmul := PrimFloat.mul;
  ndiv := PrimFloat.div;
  Math_log := log;
  Math_sqrt := PrimFloat.sqrt;
  of_nat := float_of_nat;
  truthy := float_truthy;
  nlt := PrimFloat.ltb
|}.

(** Exact arithmetic over the reals: the arithmetic the BM25 and RRF
    formulas are stated in, without rounding, infinities or NaN. *)
Definition real_number : Number R := {|
  n0 := 0%R;
  n1 := 1%R;
  n0_5 := (1 / 2)%R;
  n0_75 := (3 / 4)%R;
  n1_2 := (6 / 5)%R;
  n60 := 60%R;
  n1e_8 := (1 / 100000000)%R;
  nadd := Rplus;
  nsub := Rminus;
  nmul := Rmult;
  ndiv := Rdiv;
  Math_log := ln;
  Math_sqrt := sqrt;
  of_nat := INR;
  truthy := fun x => if Req_dec_T x 0%R then false else true;
  nlt := fun x y => if Rlt_dec x y then true else false
|}.

(** [arr.sort(cmp)]: the sort is stable; [a] goes before [b] when
    [cmp(a, b) < 0], and stays where it was relative to [b] when
    [cmp(a, b)] is [0] or [NaN]. *)
Section Sort.
Context {num : Type} {NUM : Number num} {A : Type}.
Variable cmp : A -> A -> num.

Fixpoint sort_insert (x : A) (l : list A) : list A :=
  match l with
  | [] => [x]
  | y :: l' => if nlt (cmp y x) n0 then y :: sort_insert x l' else x :: l
  end.

Fixpoint js_sort (l : list A) : list A :=
  match l with
  | [] => []
  | x :: l' => sort_insert x (js_sort l')
  end.
End Sort.

(** ** tokenize.ts *)

(** The Unicode tables of the engine and its optional sentence
    segmenter. *)
Class Host : Type := {
  (** the class [\s]; also what [trim] strips *)
  isSpace : ascii -> bool;
  (** the class [[\p{L}\p{N}]] *)
  isLetterOrNumber : ascii -> bool;
  toLowerCase : string -> string;
  (** [Intl.Segmenter] with sentence granularity, when the engine has
      one: the segments of a string with their start indices *)
  Segmenter : option (string -> list (string * nat))
}.

Record TokenizerOptions : Type := {
  toLower : option bool;
  removeStopwords : option bool
}.

Definition no_options : TokenizerOptions :=
  {| toLower := None; removeStopwords := None |}.

Definition DEFAULT_STOPWORDS : list string :=
  ["a";"an";"and";"are";"as";"at";"be";"but";"by";"for";"if";"in";"into";
   "is";"it";"no";"not";"of";"on";"or";"such";"that";"the";"their";"then";
   "there";"these";"they";"this";"to";"was";"will";"with"].

Definition stopword (t : string) : bool :=
  existsb (String.eqb t) DEFAULT_STOPWORDS.

Section Tokenize.
Context {H : Host}.

(** [s.replace(/[^\p{L}\p{N}\s]/gu, " ")] *)
Fixpoint replace_other (s : string) : string :=
  match s with
  | EmptyString => EmptyString
  | String c s' =>
      String (if isLetterOrNumber c || isSpace c then c else " "%char)
             (replace_other s')
  end.

(** [s.split(/\s+/)]: [cur] is the piece being read, [in_sep] tells
    that the previous code unit belonged to a separator. *)
Fixpoint split_spaces_from (cur : string) (in_sep : bool) (s : string)
  : list string :=
  match s with
  | EmptyString => [cur]
  | String c s' =>
      if isSpace c then
        if in_sep then split_spaces_from cur true s'
        else cur :: split_spaces_from EmptyString true s'
      else split_spaces_from (String.append cur (String c EmptyString)) false s'
  end.

Definition split_spaces (s : string) : list string :=
  split_spaces_from EmptyString false s.

(** [Boolean(s)] for a string *)
Definition nonempty (s : string) : bool :=
  match s with
  | EmptyString => false
  | String _ _ => true
  end.

Definition tokenize_with (text : string) (options : TokenizerOptions)
  : list string :=
  let toLower := match toLower options with Some v => v | None => true end in
  let removeStopwords :=
    match removeStopwords options with Some v => v | None => true end in
  let normalized := if toLower then toLowerCase text else text in
  let tokens := filter nonempty (split_spaces (replace_other normalized)) in
  if negb removeStopwords then tokens
  else filter (fun t => negb (stopword t)) tokens.

(** [tokenize(text)] *)
Definition tokenize (text : string) : list string :=
  tokenize_with text no_options.
End Tokenize.

(** ** bm25.ts *)

Record BM25Doc : Type := { id : string; text : string }.

Section BM25.
Context {num : Type} {NUM : Number num} {H : Host}.

Record Posting : Type := { docId : string; tf : num }.

Record BM25Index : Type := {
  k1 : num;
  b : num;
  vocab : JSMap.t (list Posting);
  docLengths : JSMap.t num;
  totalDocs : num;
  totalDocLength : num
}.

(** [new BM25Index()] *)
Definition new_BM25Index : BM25Index := {|
  k1 := n1_2;
  b := n0_75;
  vocab := JSMap.empty;
  docLengths := JSMap.empty;
  totalDocs := n0;
  totalDocLength := n0
|}.

(** [for (const t of tokens) tfMap.set(t, (tfMap.get(t) ?? 0) + 1)] *)
Definition count_terms (tokens : list string) : JSMap.t num :=
  fold_left (fun tfMap t => JSMap.set t (nadd (JSMap.get_or tfMap t n0) n1) tfMap)
            tokens JSMap.empty.

(** The body of [for (const [term, tf] of tfMap)]. *)
Definition push_posting (doc_id : string) (v : JSMap.t (list Posting))
           (e : string * num) : JSMap.t (list Posting) :=
  let postings := JSMap.get_or v (fst e) [] in
  JSMap.set (fst e) (postings ++ [{| docId := doc_id; tf := snd e |}]) v.

(** The body of [for (const doc of docs)]. *)
Definition addDocument (idx : BM25Index) (doc : BM25Doc) : BM25Index :=
  let tokens := tokenize (text doc) in
  let tfMap := count_terms tokens in
  {| k1 := k1 idx;
     b := b idx;
     vocab := fold_left (push_posting (id doc)) (JSMap.entries tfMap) (vocab idx);
     docLengths := JSMap.set (id doc) (of_nat (List.length tokens)) (docLengths idx);
     totalDocs := nadd (totalDocs idx) n1;
     totalDocLength := nadd (totalDocLength idx) (of_nat (List.length tokens)) |}.

Definition addDocuments (idx : BM25Index) (docs : list BM25Doc) : BM25Index :=
  fold_left addDocument docs idx.

Definition avgDocLen (idx : BM25Index) : num :=
  if truthy (totalDocs idx) then ndiv (totalDocLength idx) (totalDocs idx)
  else n0.

(** The body of [for (const { docId, tf } of postings)]. *)
Definition score_posting (idx : BM25Index) (avgdl idf : num)
           (scores : JSMap.t num) (p : Posting) : JSMap.t num :=
  let dl := JSMap.get_or (docLengths idx) (docId p) n0 in
  let denom :=
    nadd (tf p)
         (nmul (k1 idx) (nadd (nsub n1 (b idx)) (ndiv (nmul (b idx) dl) avgdl))) in
  let score := nmul idf (ndiv (nmul (tf p) (nadd (k1 idx) n1)) denom) in
  JSMap.set (docId p) (nadd (JSMap.get_or scores (docId p) n0) score) scores.

(** The body of [for (const term of qTokens)]. *)
Definition score_term (idx : BM25Index) (N avgdl : num)
           (scores : JSMap.t num) (term : string) : JSMap.t num :=
  match JSMap.get (vocab idx) term with
  | None => scores
  | Some postings =>
      let n_qi := of_nat (List.length postings) in
      let idf :=
        Math_log (nadd n1 (ndiv (nadd (nsub N n_qi) n0_5) (nadd n_qi n0_5))) in
      fold_left (score_posting idx avgdl idf) postings scores
  end.

(** The score map of [search], before sorting. *)
Definition search_scores (idx : BM25Index) (query : string) : JSMap.t num :=
  let qTokens := tokenize query in
  let N := totalDocs idx in
  let avgdl := avgDocLen idx in
  fold_left (score_term idx N avgdl) qTokens JSMap.empty.

Record Scored : Type := { r_docId : string; score : num }.

(** [(a, b) => b[1] - a[1]] *)
Definition by_score_desc (a c : string * num) : num := nsub (snd c) (snd a).

Definition search (idx : BM25Index) (query : string) (topK : Z) : list Scored :=
  map (fun e => {| r_docId := fst e; score := snd e |})
      (slice0 topK (js_sort by_score_desc (JSMap.entries (search_scores idx query)))).

(** [search(query)], with the default [topK = 10]. *)
Definition search_default (idx : BM25Index) (query : string) : list Scored :=
  search idx query 10.

Record Serialized : Type := {
  s_k1 : num;
  s_b : num;
  s_totalDocs : num;
  s_totalDocLength : num;
  s_docLengths : list (string * num);
  s_vocab : list (string * list Posting)
}.

Definition copy_postings (postings : list Posting) : list Posting :=
  map (fun p => {| docId := docId p; tf := tf p |}) postings.

Definition serialize (idx : BM25Index) : Serialized := {|
  s_k1 := k1 idx;
  s_b := b idx;
  s_totalDocs := totalDocs idx;
  s_totalDocLength := totalDocLength idx;
  s_docLengths := JSMap.entries (docLengths idx);
  s_vocab := map (fun e => (fst e, copy_postings (snd e))) (JSMap.entries (vocab idx))
|}.

Definition fromJSON (data : Serialized) : BM25Index := {|
  k1 := s_k1 data;
  b := s_b data;
  totalDocs := s_totalDocs data;
  totalDocLength := s_totalDocLength data;
  docLengths := JSMap.of_entries (s_docLengths data);
  vocab := JSMap.of_entries
             (map (fun e => (fst e, copy_postings (snd e))) (s_vocab data))
|}.
End BM25.

Arguments Posting : clear implicits.
Arguments BM25Index : clear implicits.
Arguments Scored : clear implicits.
Arguments Serialized : clear implicits.

(** ** chunk.ts *)

Module Chunk.
(** [charEnd] is a number; it is [None] in the one case where the
    source stores [undefined] there ([chunkByTokens] reading
    [tokenEnds[-1]], which needs [maxTokens <= 0]). *)
Record t : Type := {
  id : string;
  docId : string;
  text : string;
  charStart : nat;
  charEnd : option nat
}.
End Chunk.

Inductive ChunkingMethod : Type :=
| fixed_tokens (maxTokens : Z)
| sliding_tokens (maxTokens overlapTokens : Z)
| sent_paragraph (targetChars : Z) (sentenceOverlap : option Z)
| recursive (targetChars : Z).

(** [`${n}`] for a non-negative integer *)
Definition decimal (n : nat) : string := NilEmpty.string_of_uint (Nat.to_uint n).

(** [`${n}`] for a number or [undefined] *)
Definition decimal_or_undefined (n : option nat) : string :=
  match n with
  | Some n => decimal n
  | None => "undefined"
  end.

(** [`${docId}:${charStart}-${charEnd}`] *)
Definition chunk_id (docId : string) (charStart : nat) (charEnd : option nat) : string :=
  String.append docId
    (String.append ":" (String.append (decimal charStart)
       (String.append "-" (decimal_or_undefined charEnd)))).

(** [text.slice(a, b)] for indices within the string *)
Definition slice (text : string) (a b : nat) : string :=
  String.substring a (b - a) text.

(** [text.slice(a)] *)
Definition slice_from (text : string) (a : nat) : string :=
  String.substring a (String.length text - a) text.

(** [text.slice(a, b)] where [b] may be [undefined] *)
Definition slice_opt (text : string) (a : nat) (b : option nat) : string :=
  match b with
  | Some b => slice text a b
  | None => slice_from text a
  end.

(** The pieces [{ start, end, text }] of [splitParagraphs] and
    [splitByHeadings]. *)
Record Part : Type := { p_start : nat; p_end : nat; p_text : string }.

Definition newline : ascii := "010"%char.
Definition carriage_return : ascii := "013"%char.

(** ["\n\n"] *)
Definition blank_line : string := String newline (String newline EmptyString).

(** [s.endsWith("\n")] *)
Fixpoint endsWith_newline (s : string) : bool :=
  match s with
  | EmptyString => false
  | String c EmptyString => Ascii.eqb c newline
  | String _ s' => endsWith_newline s'
  end.

(** [ls.join(" ")] *)
Definition join_space (ls : list string) : string := String.concat " " ls.

(** [arr.slice(-k)] for an integral [k]: the last [k] elements when
    [k > 0], everything when [k = 0] (as [-0] is [0]), and the elements
    from index [-k] on when [k < 0]. *)
Definition slice_last {A : Type} (k : Z) (arr : list A) : list A :=
  if (0 <? k)%Z then skipn (List.length arr - Z.to_nat k) arr
  else skipn (Z.to_nat (- k)) arr.

(** The chunk that [chunkByTokens] builds for the span [[charStart,
    charEnd)]: [{ id, docId, text: piece, charStart, charEnd }]. *)
Definition span_chunk (text docId : string) (charStart : nat) (charEnd : option nat)
  : Chunk.t :=
  {| Chunk.id := chunk_id docId charStart charEnd;
     Chunk.docId := docId;
     Chunk.text := slice_opt text charStart charEnd;
     Chunk.charStart := charStart;
     Chunk.charEnd := charEnd |}.

(** Position [p] lies in the span [[charStart, charEnd)] of a chunk. *)
Definition covers (c : Chunk.t) (p : nat) : Prop :=
  Chunk.charStart c <= p /\ exists e, Chunk.charEnd c = Some e /\ p < e.

Definition covered (chunks : list Chunk.t) (p : nat) : Prop :=
  exists c, In c chunks /\ covers c p.

(** The index after a match [(m.index, m[0])]: [m.index + m[0].length]. *)
Definition run_end (m : nat * string) : nat := fst m + String.length (snd m).

(** Runs of code units in text order: each starts at or after the end
    of the one before, the first at or after [lo]. *)
Fixpoint chained (lo : nat) (runs : list (nat * string)) : Prop :=
  match runs with
  | [] => True
  | r :: runs' => lo <= fst r /\ chained (fst r + String.length (snd r)) runs'
  end.

Section Chunking.
Context {H : Host}.

(** [[...text.matchAll(/\S+/g)]]: the maximal runs of non-space code
    units, each with its index.  [cur] is the run being read. *)
Fixpoint nonspace_runs_from (pos : nat) (cur : option (nat * string))
         (s : string) : list (nat * string) :=
  match s with
  | EmptyString => match cur with Some r => [r] | None => [] end
  | String c s' =>
      if isSpace c then
        match cur with
        | Some r => r :: nonspace_runs_from (S pos) None s'
        | None => nonspace_runs_from (S pos) None s'
        end
      else
        match cur with
        | Some (i, w) =>
            nonspace_runs_from (S pos) (Some (i, String.append w (String c EmptyString))) s'
        | None => nonspace_runs_from (S pos) (Some (pos, String c EmptyString)) s'
        end
  end.

Definition matchAll_nonspace (text : string) : list (nat * string) :=
  nonspace_runs_from 0 None text.

(** The [for (let tStart = 0; tStart < n; tStart += stride)] loop of
    [chunkByTokens]; every turn advances [tStart] by [stride >= 1], so
    [fuel = n] turns are enough. *)
Fixpoint token_windows (fuel : nat) (text docId : string)
         (tokenStarts tokenEnds : list nat) (maxTokens stride : Z)
         (tStart : Z) : list Chunk.t :=
  match fuel with
  | O => []
  | S fuel' =>
      let n := Z.of_nat (List.length tokenStarts) in
      if (tStart <? n)%Z then
        let tEnd := Z.min (tStart + maxTokens) n in
        let charStart := nth (Z.to_nat tStart) tokenStarts 0 in
        let charEnd :=
          if (0 <=? tEnd - 1)%Z then Some (nth (Z.to_nat (tEnd - 1)) tokenEnds 0)
          else None in
        let piece := slice_opt text charStart charEnd in
        let chunk := {| Chunk.id := chunk_id docId charStart charEnd;
                        Chunk.docId := docId;
                        Chunk.text := piece;
                        Chunk.charStart := charStart;
                        Chunk.charEnd := charEnd |} in
        if (tEnd =? n)%Z then [chunk]
        else chunk :: token_windows fuel' text docId tokenStarts tokenEnds
                                    maxTokens stride (tStart + stride)
      else []
  end.

Definition chunkByTokens (text docId : string) (maxTokens overlapTokens : Z)
  : list Chunk.t :=
  let tokenMatches := matchAll_nonspace text in
  match tokenMatches with
  | [] => []
  | _ =>
      let tokenStarts := map fst tokenMatches in
      let tokenEnds := map (fun m => fst m + String.length (snd m)) tokenMatches in
      let stride := Z.max 1 (maxTokens - Z.max 0 overlapTokens) in
      token_windows (List.length tokenMatches) text docId tokenStarts tokenEnds
                    maxTokens stride 0
  end.

(** [s.trim()] *)
Fixpoint trim_start (s : string) : string :=
  match s with
  | EmptyString => EmptyString
  | String c s' => if isSpace c then trim_start s' else s
  end.

Fixpoint all_space (s : string) : bool :=
  match s with
  | EmptyString => true
  | String c s' => isSpace c && all_space s'
  end.

Fixpoint trim_end (s : string) : string :=
  match s with
  | EmptyString => EmptyString
  | String c s' => if all_space s then EmptyString else String c (trim_end s')
  end.

Definition trim (s : string) : string := trim_end (trim_start s).

(** The matches of [/\n{2,}/g]: the maximal runs of two or more
    newlines, as (index, length).  [run] newlines precede [pos]. *)
Definition close_run (pos run : nat) : list (nat * nat) :=
  if (2 <=? run)%nat then [(pos - run, run)] else [].

Fixpoint newline_runs_from (pos run : nat) (s : string) : list (nat * nat) :=
  match s with
  | EmptyString => close_run pos run
  | String c s' =>
      if Ascii.eqb c newline then newline_runs_from (S pos) (S run) s'
      else close_run pos run ++ newline_runs_from (S pos) 0 s'
  end.

Definition mkPart (text : string) (a b : nat) : Part :=
  {| p_start := a; p_end := b; p_text := slice text a b |}.

(** The [while ((m = re.exec(text)))] loop of [splitParagraphs]. *)
Fixpoint paragraph_parts (text : string) (idx : nat) (ms : list (nat * nat))
  : list Part :=
  match ms with
  | [] =>
      if (idx <=? String.length text)%nat
      then [{| p_start := idx; p_end := String.length text;
               p_text := slice_from text idx |}]
      else []
  | (m_index, m_len) :: ms' =>
      mkPart text idx m_index :: paragraph_parts text (m_index + m_len) ms'
  end.

Definition splitParagraphs (text : string) : list Part :=
  filter (fun p => (0 <? String.length (trim (p_text p)))%nat)
         (paragraph_parts text 0 (newline_runs_from 0 0 text)).

(** The matches of [/^#{1,6} .*$/gm]: the starts of the lines that
    begin with one to six [#] and a space. *)
Definition isLineTerminator (c : ascii) : bool :=
  Ascii.eqb c newline || Ascii.eqb c carriage_return.

Fixpoint heading_prefix (hashes : nat) (s : string) : bool :=
  match s with
  | String c s' =>
      if Ascii.eqb c "#"%char then heading_prefix (S hashes) s'
      else Ascii.eqb c " "%char && (1 <=? hashes)%nat && (hashes <=? 6)%nat
  | EmptyString => false
  end.

Fixpoint heading_starts_from (pos : nat) (at_line_start : bool) (s : string)
  : list nat :=
  match s with
  | EmptyString => []
  | String c s' =>
      (if at_line_start && heading_prefix 0 s then [pos] else [])
        ++ heading_starts_from (S pos) (isLineTerminator c) s'
  end.

Fixpoint consecutive_parts (text : string) (indices : list nat) : list Part :=
  match indices with
  | a :: ((b :: _) as rest) => mkPart text a b :: consecutive_parts text rest
  | _ => []
  end.

Definition splitByHeadings (text : string) : list Part :=
  let indices := (0 :: heading_starts_from 0 true text) ++ [String.length text] in
  consecutive_parts text indices.

(** The mutable locals of [chunkBySentencesParagraphs]. *)
Record Packer : Type := {
  chunks : list Chunk.t;
  accText : string;
  accStart : nat;
  lastEnd : nat
}.

(** [chunks.push({ id, docId, text: accText.trim(), charStart: accStart,
    charEnd: lastEnd })] *)
Definition push_acc (docId : string) (st : Packer) : list Chunk.t :=
  chunks st ++ [{| Chunk.id := chunk_id docId (accStart st) (Some (lastEnd st));
                   Chunk.docId := docId;
                   Chunk.text := trim (accText st);
                   Chunk.charStart := accStart st;
                   Chunk.charEnd := Some (lastEnd st) |}].

(** [(accText ? accText + (accText.endsWith("\n") ? "" : " ") : "") + seg] *)
Definition glue (accText seg : string) : string :=
  String.append
    (if nonempty accText
     then String.append accText (if endsWith_newline accText then "" else " ")
     else "")
    seg.

Definition flushOrAccumulate (docId : string) (targetChars : Z) (st : Packer)
           (unit : string) (start end_ : nat) : Packer :=
  if (targetChars <=? Z.of_nat (String.length (String.append (accText st) unit)))%Z
     && nonempty (accText st)
  then {| chunks := push_acc docId st; accText := unit;
          accStart := start; lastEnd := end_ |}
  else {| chunks := chunks st;
          accText := String.append (accText st)
                       (String.append (if nonempty (accText st) then blank_line else "") unit);
          accStart := if nonempty (accText st) then accStart st else start;
          lastEnd := end_ |}.
(** The body of [for (let i = 0; i < sentences.length; i++)]; the
    state is the packer and the [overlapQueue] of the paragraph. *)
Definition pack_sentence (docId : string) (targetChars sentenceOverlap : Z)
           (pStart : nat) (state : Packer * list string) (s : string * nat)
  : Packer * list string :=
  let st := fst state in
  let overlapQueue := snd state in
  let sStart := pStart + snd s in
  let sEnd := sStart + String.length (fst s) in
  let candidate := glue (accText st) (fst s) in
  let st1 :=
    if (targetChars <=? Z.of_nat (String.length candidate))%Z && nonempty (accText st)
    then {| chunks := push_acc docId st;
            accText := join_space (slice_last sentenceOverlap overlapQueue);
            accStart := lastEnd st;
            lastEnd := lastEnd st |}
    else st in
  ({| chunks := chunks st1;
      accText := glue (accText st1) (fst s);
      accStart := if nonempty (accText st1) then accStart st1 else sStart;
      lastEnd := sEnd |},
   overlapQueue ++ [fst s]).

(** The body of [for (const p of paraSplits)]. *)
Definition pack_paragraph (docId : string) (targetChars sentenceOverlap : Z)
           (st : Packer) (p : Part) : Packer :=
  match Segmenter with
  | None => flushOrAccumulate docId targetChars st (p_text p) (p_start p) (p_end p)
  | Some seg =>
      let sentences := seg (p_text p) in
      let st1 :=
        fst (fold_left (pack_sentence docId targetChars sentenceOverlap (p_start p))
                       sentences (st, [])) in
      if (targetChars <=? Z.of_nat (String.length (accText st1)))%Z
      then {| chunks := push_acc docId st1; accText := "";
              accStart := accStart st1; lastEnd := lastEnd st1 |}
      else st1
  end.

Definition chunkBySentencesParagraphs (text docId : string)
           (targetChars sentenceOverlap : Z) : list Chunk.t :=
  let st :=
    fold_left (pack_paragraph docId targetChars sentenceOverlap)
              (splitParagraphs text)
              {| chunks := []; accText := ""; accStart := 0; lastEnd := 0 |} in
  if nonempty (accText st) then push_acc docId st else chunks st.

(** The mutable locals of [chunkRecursive]: the result array, and the
    [buffer], [bufStart] and [lastEnd] of the section being packed. *)
Record SectionPacker : Type := {
  out : list Chunk.t;
  buffer : string;
  bufStart : nat;
  bufEnd : nat
}.

Definition push_buffer (docId : string) (st : SectionPacker) : list Chunk.t :=
  out st ++ [{| Chunk.id := chunk_id docId (bufStart st) (Some (bufEnd st));
                Chunk.docId := docId;
                Chunk.text := trim (buffer st);
                Chunk.charStart := bufStart st;
                Chunk.charEnd := Some (bufEnd st) |}].

(** The body of [for (const p of paras)].  [p.text.length >
    targetChars * 1.5] is compared after doubling both sides. *)
Definition pack_section_paragraph (docId : string) (targetChars : Z)
           (st : SectionPacker) (p : Part) : SectionPacker :=
  let st1 :=
    if (targetChars <? Z.of_nat (String.length (String.append (buffer st) (p_text p))))%Z
       && nonempty (buffer st)
    then {| out := push_buffer docId st; buffer := p_text p;
            bufStart := p_start p; bufEnd := p_end p |}
    else {| out := out st;
            buffer := String.append (buffer st)
                        (String.append (if nonempty (buffer st) then blank_line else "")
                                       (p_text p));
            bufStart := if nonempty (buffer st) then bufStart st else p_start p;
            bufEnd := p_end p |} in
  if (3 * targetChars <? 2 * Z.of_nat (String.length (p_text p)))%Z
  then {| out := out st1 ++ chunkBySentencesParagraphs (p_text p) docId targetChars 0;
          buffer := ""; bufStart := bufStart st1; bufEnd := bufEnd st1 |}
  else st1.

(** The body of [for (const sec of sections)]. *)
Definition pack_section (docId : string) (targetChars : Z)
           (chunks : list Chunk.t) (sec : Part) : list Chunk.t :=
  let paras := splitParagraphs (p_text sec) in
  let st :=
    fold_left (pack_section_paragraph docId targetChars) paras
              {| out := chunks; buffer := "";
                 bufStart := p_start sec; bufEnd := p_start sec |} in
  if nonempty (buffer st) then push_buffer docId st else out st.

Definition chunkRecursive (text docId : string) (targetChars : Z) : list Chunk.t :=
  fold_left (pack_section docId targetChars) (splitByHeadings text) [].
End Chunking.

(** The code unit at position [p] of [text] is not white space. *)
Definition nonspace_at {H : Host} (text : string) (p : nat) : Prop :=
  exists c, String.get p text = Some c /\ isSpace c = false.

(** ** The worker: ingest and search *)

Record IngestFile : Type := { path : string; f_text : string }.

Inductive Retrieval : Type := sparse | dense | hybrid.

Section ParseAndChunk.
Context {H : Host}.

(** The chunks of one file. *)
Definition chunk_file (method : option ChunkingMethod) (f : IngestFile)
  : list Chunk.t :=
  let docId := path f in
  match method with
  | None => chunkByTokens (f_text f) docId 200 0
  | Some (fixed_tokens maxTokens) => chunkByTokens (f_text f) docId maxTokens 0
  | Some (sliding_tokens maxTokens overlapTokens) =>
      chunkByTokens (f_text f) docId maxTokens overlapTokens
  | Some (sent_paragraph targetChars sentenceOverlap) =>
      chunkBySentencesParagraphs (f_text f) docId targetChars
        (match sentenceOverlap with Some k => k | None => 0%Z end)
  | Some (recursive targetChars) => chunkRecursive (f_text f) docId targetChars
  end.

Definition parseAndChunk (files : list IngestFile) (method : option ChunkingMethod)
  : list Chunk.t :=
  fold_left (fun chunks f => chunks ++ chunk_file method f) files [].
End ParseAndChunk.

Section Worker.
Context {num : Type} {NUM : Number num} {H : Host}.

(** A [Float32Array], read as numbers. *)
Definition EmbeddingVector : Type := list num.

(** The module-level state of the worker.  [embedderReady] is [None]
    for [null], and otherwise tells whether the cached promise is
    resolved ([None] inside) or rejected (with the error's text).  A
    stored embedding is [None] when [batchVecs[j]] was [undefined]. *)
Record Worker : Type := {
  bm25 : BM25Index num;
  chunkIdToChunk : JSMap.t Chunk.t;
  embeddingsByChunkId : JSMap.t (option EmbeddingVector);
  embedderReady : option (option string)
}.

Definition new_Worker : Worker := {|
  bm25 := new_BM25Index;
  chunkIdToChunk := JSMap.empty;
  embeddingsByChunkId := JSMap.empty;
  embedderReady := None
|}.

(** The embedding provider, an external collaborator: [load_error] is
    the error met when the model is first loaded, if any; [embedTexts]
    is [None] when the call throws. *)
Record Embedder : Type := {
  load_error : option string;
  embedTexts : list string -> option (list EmbeddingVector)
}.

Record SearchResult : Type := { sr_chunk : option Chunk.t; sr_score : num }.

Inductive RAGWorkerResponse : Type :=
| ingested (docs chunks : nat)
| searchResults (results : list SearchResult)
| embedderLoading
| embedderReadyMsg
| embedderFailed (message : string)
| embeddingStarted (total : nat)
| embeddingsBuilt (count : nat).

Definition buildBM25 (idx : BM25Index num) (chunks : list Chunk.t) : BM25Index num :=
  addDocuments idx (map (fun c => {| id := Chunk.id c; text := Chunk.text c |}) chunks).

(** [await ensureEmbedder()]: the promise is created once and cached,
    also when it rejects. *)
Definition ensureEmbedder (E : Embedder) (w : Worker) : Worker * option string :=
  match embedderReady w with
  | Some outcome => (w, outcome)
  | None =>
      ({| bm25 := bm25 w; chunkIdToChunk := chunkIdToChunk w;
          embeddingsByChunkId := embeddingsByChunkId w;
          embedderReady := Some (load_error E) |},
       load_error E)
  end.

(** [for (let j = 0; j < batch.length; j++)
      embeddingsByChunkId.set(batch[j].id, batchVecs[j])] *)
Fixpoint store_batch (batch : list Chunk.t) (batchVecs : list EmbeddingVector)
         (m : JSMap.t (option EmbeddingVector)) : JSMap.t (option EmbeddingVector) :=
  match batch with
  | [] => m
  | c :: batch' =>
      store_batch batch' (tl batchVecs) (JSMap.set (Chunk.id c) (hd_error batchVecs) m)
  end.

(** The [for (let i = 0; i < chunks.length; i += batchSize)] loop, on
    the chunks from index [i] on; a batch whose embedding throws is
    skipped. *)
Fixpoint embed_batches (fuel : nat) (E : Embedder) (rest : list Chunk.t)
         (m : JSMap.t (option EmbeddingVector))
  : JSMap.t (option EmbeddingVector) * list RAGWorkerResponse :=
  match fuel, rest with
  | _, [] => (m, [])
  | O, _ => (m, [])
  | S fuel', _ =>
      let batch := firstn 10 rest in
      let batchTexts := map Chunk.text batch in
      match embedTexts E batchTexts with
      | Some batchVecs =>
          let r := embed_batches fuel' E (skipn 10 rest) (store_batch batch batchVecs m) in
          (fst r, embeddingsBuilt (List.length batch) :: snd r)
      | None => embed_batches fuel' E (skipn 10 rest) m
      end
  end.

Definition failed_message (msg : string) : string :=
  String.append "Failed to load embedding model ("
    (String.append msg "). Dense/Hybrid will be unavailable.").

(** [handleIngest]: the state after the call and the messages posted. *)
Definition handleIngest (E : Embedder) (w : Worker) (files : list IngestFile)
           (method : option ChunkingMethod) (retrieval : Retrieval)
  : Worker * list RAGWorkerResponse :=
  let chunks := parseAndChunk files method in
  let chunkMap :=
    fold_left (fun m c => JSMap.set (Chunk.id c) c m) chunks (chunkIdToChunk w) in
  let index :=
    match retrieval with
    | sparse | hybrid => buildBM25 (bm25 w) chunks
    | dense => bm25 w
    end in
  let w1 := {| bm25 := index; chunkIdToChunk := chunkMap;
               embeddingsByChunkId := embeddingsByChunkId w;
               embedderReady := embedderReady w |} in
  let done := ingested (List.length files) (List.length chunks) in
  match retrieval with
  | sparse => (w1, [done])
  | dense | hybrid =>
      let loading :=
        match embedderReady w1 with None => [embedderLoading] | Some _ => [] end in
      let w2 := fst (ensureEmbedder E w1) in
      match snd (ensureEmbedder E w1) with
      | Some err => (w2, loading ++ [embedderFailed (failed_message err); done])
      | None =>
          match chunks with
          | [] => (w2, loading ++ [embedderReadyMsg])
          | _ =>
              let r := embed_batches (List.length chunks) E chunks
                                     (embeddingsByChunkId w2) in
              ({| bm25 := bm25 w2; chunkIdToChunk := chunkIdToChunk w2;
                  embeddingsByChunkId := fst r;
                  embedderReady := embedderReady w2 |},
               loading ++ [embedderReadyMsg; embeddingStarted (List.length chunks)]
                 ++ snd r ++ [done])
          end
      end
  end.

(** [cosineSimilarity] *)
Definition cosineSimilarity (a c : EmbeddingVector) : num :=
  if (List.length a =? 0)%nat || (List.length c =? 0)%nat then n0
  else if negb (List.length a =? List.length c)%nat then n0
  else
    let sums :=
      fold_left (fun acc xy =>
                   let '(dot, na, nb) := acc in
                   (nadd dot (nmul (fst xy) (snd xy)),
                    nadd na (nmul (fst xy) (fst xy)),
                    nadd nb (nmul (snd xy) (snd xy))))
                (combine a c) (n0, n0, n0) in
    let '(dot, na, nb) := sums in
    ndiv dot (nadd (nmul (Math_sqrt na) (Math_sqrt nb)) n1e_8).

(** The stored embeddings that are usable ([vec && vec.length > 0]),
    scored against the query vector, in the order of the map. *)
Definition dense_scores (w : Worker) (qVec : EmbeddingVector) : list (string * num) :=
  flat_map (fun e =>
              match snd e with
              | Some (_ :: _ as vec) => [(fst e, cosineSimilarity qVec vec)]
              | _ => []
              end)
           (JSMap.entries (embeddingsByChunkId w)).

(** ** Reciprocal rank fusion *)

Definition kRRF : num := n60.

(** [1 / (kRRF + idx + 1)] *)
Definition rrf_term (idx : nat) : num :=
  ndiv n1 (nadd (nadd kRRF (of_nat idx)) n1).

(** [ranking.forEach((id, idx) =>
      fused.set(id, (fused.get(id) ?? 0) + 1 / (kRRF + idx + 1)))],
    from index [idx] on. *)
Fixpoint add_ranks (ranking : list string) (idx : nat) (fused : JSMap.t num)
  : JSMap.t num :=
  match ranking with
  | [] => fused
  | r :: ranking' =>
      add_ranks ranking' (S idx)
                (JSMap.set r (nadd (JSMap.get_or fused r n0) (rrf_term idx)) fused)
  end.

(** The [fused] map: the dense ranks are added first, then the sparse
    ranks. *)
Definition fuse (denseSorted sparseRanked : list string) : JSMap.t num :=
  add_ranks sparseRanked 0 (add_ranks denseSorted 0 JSMap.empty).

(** [[...fused.entries()].sort((a, b) => b[1] - a[1]).slice(0, topK)] *)
Definition rank_fused (fused : JSMap.t num) (topK : Z) : list (string * num) :=
  slice0 topK (js_sort by_score_desc (JSMap.entries fused)).

Definition with_chunk (w : Worker) (e : string * num) : SearchResult :=
  {| sr_chunk := JSMap.get (chunkIdToChunk w) (fst e); sr_score := snd e |}.

(** The query vector: [None] when [ensureEmbedder] or [embedTexts]
    throws (the handler then rejects and posts nothing), [Some None]
    when the embedder returns no vector. *)
Definition query_vector (E : Embedder) (w : Worker) (query : string)
  : option (option EmbeddingVector) :=
  match snd (ensureEmbedder E w) with
  | Some _ => None
  | None =>
      match embedTexts E [query] with
      | None => None
      | Some qVecArray => Some (hd_error qVecArray)
      end
  end.

(** [handleSearch]: the state after the call and the results posted,
    if any.  The defaults are [topK = 8] and [mode = "sparse"]. *)
Definition handleSearch (E : Embedder) (w : Worker) (query : string)
           (topK : option Z) (mode : option Retrieval)
  : Worker * option (list SearchResult) :=
  let topK := match topK with Some k => k | None => 8%Z end in
  match mode with
  | None | Some sparse =>
      (w, Some (map (fun r => {| sr_chunk := JSMap.get (chunkIdToChunk w) (r_docId r);
                                 sr_score := score r |})
                    (search (bm25 w) query topK)))
  | Some dense =>
      let w' := fst (ensureEmbedder E w) in
      match query_vector E w query with
      | None => (w', None)
      | Some None => (w', Some [])
      | Some (Some qVec) =>
          let scores := js_sort by_score_desc (dense_scores w' qVec) in
          (w', Some (map (with_chunk w') (slice0 topK scores)))
      end
  | Some hybrid =>
      let w' := fst (ensureEmbedder E w) in
      match query_vector E w query with
      | None => (w', None)
      | Some None => (w', Some [])
      | Some (Some qVec) =>
          let denseScores := JSMap.of_entries (dense_scores w' qVec) in
          let sparseRanked := search (bm25 w') query (Z.max (topK * 4) 40) in
          let denseSorted := js_sort by_score_desc (JSMap.entries denseScores) in
          let fused := fuse (map fst denseSorted) (map (@r_docId num) sparseRanked) in
          (w', Some (map (with_chunk w') (rank_fused fused topK)))
      end
  end.
End Worker.

Arguments Worker : clear implicits.
Arguments SearchResult : clear implicits.
Arguments RAGWorkerResponse : clear implicits.
Arguments Embedder : clear implicits.

(** ** Concrete engines, for evaluation *)

(** The tables of the engine on ASCII code units: [\s] is tab, line
    feed, vertical tab, form feed, carriage return and space; the
    letters and digits are [0-9A-Za-z]; lower-casing shifts [A-Z]. *)
Definition is_ascii (c : ascii) : bool := (nat_of_ascii c <? 128)%nat.

Definition ascii_isSpace (c : ascii) : bool :=
  let n := nat_of_ascii c in
  ((9 <=? n)%nat && (n <=? 13)%nat) || (n =? 32)%nat.

Definition ascii_isUpper (c : ascii) : bool :=
  let n := nat_of_ascii c in (65 <=? n)%nat && (n <=? 90)%nat.

Definition ascii_isLetterOrNumber (c : ascii) : bool :=
  let n := nat_of_ascii c in
  ((48 <=? n)%nat && (n <=? 57)%nat) || ascii_isUpper c
  || ((97 <=? n)%nat && (n <=? 122)%nat).

Fixpoint ascii_toLowerCase (s : string) : string :=
  match s with
  | EmptyString => EmptyString
  | String c s' =>
      String (if ascii_isUpper c then ascii_of_nat (nat_of_ascii c + 32) else c)
             (ascii_toLowerCase s')
  end.

Fixpoint all_ascii (s : string) : bool :=
  match s with
  | EmptyString => true
  | String c s' => is_ascii c && all_ascii s'
  end.

(** An engine that knows ASCII only (other code units are neither
    letters, digits nor spaces for it), with or without a segmenter. *)
Definition ascii_host (seg : option (string -> list (string * nat))) : Host := {|
  isSpace := ascii_isSpace;
  isLetterOrNumber := ascii_isLetterOrNumber;
  toLowerCase := ascii_toLowerCase;
  Segmenter := seg
|}.

(** What every engine does on ASCII text. *)
Definition ascii_conforming (H : Host) : Prop :=
  (forall c, is_ascii c = true -> isSpace c = ascii_isSpace c) /\
  (forall c, is_ascii c = true -> isLetterOrNumber c = ascii_isLetterOrNumber c) /\
  (forall s, all_ascii s = true -> toLowerCase s = ascii_toLowerCase s).

(** A natural logarithm on binary64 by argument reduction and the
    series of [atanh]; one possible [Math.log]. *)
Definition LN2 : float := 0x1.62e42fefa39efp-1%float.

Fixpoint atanh_series (terms : nat) (power z2 k : float) : float :=
  match terms with
  | O => 0%float
  | S terms' =>
      (power / k + atanh_series terms' (power * z2) z2 (k + 2))%float
  end.

Definition float_of_Z (z : Z) : float :=
  if (z <? 0)%Z then (- PrimFloat.of_uint63 (Uint63.of_Z (- z)))%float
  else PrimFloat.of_uint63 (Uint63.of_Z z).

Definition series_log (x : float) : float :=
  if PrimFloat.is_nan x then nan
  else if (x <? 0)%float then nan
  else if (x =? 0)%float then neg_infinity
  else if PrimFloat.is_infinity x then x
  else
    let me := PrimFloat.frshiftexp x in
    let m := fst me in
    let e := (Uint63.to_Z (snd me) - FloatOps.shift)%Z in
    let z := ((m - 1) / (m + 1))%float in
    (float_of_Z e * LN2 + 2 * atanh_series 40 z (z * z) 1)%float.

(** ** The two-document corpus of the search scenario *)

Definition cat_files : list IngestFile :=
  [ {| path := "doc1"; f_text := "the cat sat on the mat" |};
    {| path := "doc2"; f_text := "the dog sat on the log" |} ].

Definition cat_chunk1 : Chunk.t :=
  {| Chunk.id := "doc1:0-22"; Chunk.docId := "doc1";
     Chunk.text := "the cat sat on the mat";
     Chunk.charStart := 0; Chunk.charEnd := Some 22 |}.

Definition cat_chunk2 : Chunk.t :=
  {| Chunk.id := "doc2:0-22"; Chunk.docId := "doc2";
     Chunk.text := "the dog sat on the log";
     Chunk.charStart := 0; Chunk.charEnd := Some 22 |}.

(** An embedding provider that is never available. *)
Definition no_embedder {num : Type} : Embedder num :=
  {| load_error := Some "Error: model unavailable"; embedTexts := fun _ => None |}.

(** ** Predicates used in the statements *)

(** A binary64 value that is neither negative, nor [-0], nor
    [-Infinity]. *)
Definition sf_plus (x : spec_float) : bool :=
  match x with
  | S754_zero s | S754_infinity s | S754_finite s _ _ => negb s
  | S754_nan => true
  end.

(** The two maps of an index have distinct keys. *)
Definition index_wf {num : Type} (idx : BM25Index num) : Prop :=
  JSMap.wf (vocab idx) /\ JSMap.wf (docLengths idx).

(** ** Predicates on indexes built from the fresh index *)

Section IndexPredicates.
Context {num : Type} {NUM : Number num} {H : Host}.


End IndexPredicates.


(** ** Predicates used to state chunk coverage *)

(** The matches of [/\n{2,}/g] in text order: each lies within the
    text, after the one before, and holds newlines only. *)
Fixpoint separated (text : string) (lo : nat) (ms : list (nat * nat)) : Prop :=
  match ms with
  | [] => True
  | m :: ms' =>
      lo <= fst m /\ fst m + snd m <= String.length text /\
      (forall q, fst m <= q < fst m + snd m -> String.get q text = Some newline) /\
      separated text (fst m + snd m) ms'
  end.

(** Pieces in text order, each the slice of the text it names. *)
Fixpoint parts_chain (text : string) (lo : nat) (parts : list Part) : Prop :=
  match parts with
  | [] => True
  | part :: parts' =>
      lo <= p_start part /\ p_start part <= p_end part /\
      p_end part <= String.length text /\
      p_text part = slice text (p_start part) (p_end part) /\
      parts_chain text (p_end part) parts'
  end.

(** Segments that follow one another from index [from] to index [to]. *)
Fixpoint contiguous (from : nat) (segs : list (string * nat)) (to : nat) : Prop :=
  match segs with
  | [] => from = to
  | s :: segs' => snd s = from /\ contiguous (from + String.length (fst s)) segs' to
  end.

(** [Intl.Segmenter] cuts a string into consecutive segments that make
    up the whole string. *)
Definition segmenter_partitions (H : Host) : Prop :=
  match Segmenter with
  | None => True
  | Some seg => forall s, contiguous 0 (seg s) (String.length s)
  end.

(** While packing, a position is either inside an emitted chunk or
    inside the span being accumulated. *)
Definition pending_or_covered (st : Packer) (p : nat) : Prop :=
  covered (chunks st) p \/
  (nonempty (accText st) = true /\ accStart st <= p < lastEnd st).

Definition packer_ok (st : Packer) : Prop :=
  nonempty (accText st) = true -> accStart st <= lastEnd st.

(** A small sentence segmenter, for examples: a sentence ends after
    each full stop. *)
Fixpoint full_stop_segments (pos start : nat) (cur : string) (s : string)
  : list (string * nat) :=
  match s with
  | EmptyString => match cur with EmptyString => [] | _ => [(cur, start)] end
  | String c s' =>
      if Ascii.eqb c "."%char
      then (String.append cur (String c EmptyString), start)
             :: full_stop_segments (S pos) (S pos) EmptyString s'
      else full_stop_segments (S pos) start (String.append cur (String c EmptyString)) s'
  end.

Definition full_stop_segmenter (s : string) : list (string * nat) :=
  full_stop_segments 0 0 EmptyString s.

(** The text of the heading example: an introduction and two headed
    sections. *)
Definition headed_text : string :=
  String.concat (String newline EmptyString)
    ["intro"; "# h one"; "body one"; ""; "more"; "## h two"; "body two"].

(** ** chunk.ts: [simpleTextChunk] *)

(** The [while (start < text.length)] loop of [simpleTextChunk], from
    [start] on.  The loop need not end (an [overlap] of [maxChars] or
    more steps back to where it was), so its turns are counted: [None]
    tells that [fuel] turns were not enough.  [maxChars] is a number
    of code units, a natural number; [overlap] is any integer. *)
Fixpoint simple_chunks_from (fuel : nat) (text docId : string) (maxChars : nat)
         (overlap : Z) (start : nat) : option (list Chunk.t) :=
  if (start <? String.length text)%nat then
    match fuel with
    | O => None
    | S fuel' =>
        let end_ := Nat.min (start + maxChars) (String.length text) in
        let piece := slice text start end_ in
        let chunk := {| Chunk.id := chunk_id docId start (Some end_);
                        Chunk.docId := docId;
                        Chunk.text := piece;
                        Chunk.charStart := start;
                        Chunk.charEnd := Some end_ |} in
        if (end_ =? String.length text)%nat then Some [chunk]
        else
          match simple_chunks_from fuel' text docId maxChars overlap
                  (Z.to_nat (Z.max 0 (Z.of_nat end_ - overlap))) with
          | Some chunks => Some (chunk :: chunks)
          | None => None
          end
    end
  else Some [].

(** [simpleTextChunk(text, docId, maxChars = 800, overlap = 120)] *)
Definition simpleTextChunk (fuel : nat) (text docId : string)
           (maxChars : option nat) (overlap : option Z) : option (list Chunk.t) :=
  simple_chunks_from fuel text docId
    (match maxChars with Some m => m | None => 800 end)
    (match overlap with Some o => o | None => 120%Z end) 0.

(** ** Predicates used in the further properties *)

(** [0 + 1 + ... + 1] with [k] additions: the number that counting [k]
    occurrences one by one arrives at. *)
Definition counted_up {num : Type} {NUM : Number num} (k : nat) : num :=
  Nat.iter k (fun x => nadd x n1) n0.

(** Every code unit of [t] is a letter or a digit, and none is white
    space. *)
Definition word_units {H : Host} (t : string) : Prop :=
  Forall (fun c => isLetterOrNumber c = true /\ isSpace c = false)
         (list_ascii_of_string t).

(** Pieces that tile [[lo, hi)]: each starts where the one before
    ended, and is the slice of the text it names. *)
Fixpoint tiles (text : string) (lo : nat) (parts : list Part) (hi : nat) : Prop :=
  match parts with
  | [] => lo = hi
  | part :: parts' =>
      p_start part = lo /\ lo <= p_end part /\
      p_text part = slice text lo (p_end part) /\
      tiles text (p_end part) parts' hi
  end.

(** A match of [/\S+/g] in [text]: a non-empty run of code units that
    are not white space, inside the text. *)
Definition token_run {H : Host} (text : string) (r : nat * string) : Prop :=
  0 < String.length (snd r) /\ run_end r <= String.length text /\
  forall q, fst r <= q < run_end r -> nonspace_at text q.

(** The code unit [x] does not occur in [s]. *)
Definition free_of (x : ascii) (s : string) : Prop :=
  Forall (fun c => c <> x) (list_ascii_of_string s).

Definition is_digit (c : ascii) : bool :=
  (48 <=? nat_of_ascii c)%nat && (nat_of_ascii c <=? 57)%nat.

(** The chunking methods that cut by tokens; no method is the default
    of 200 tokens. *)
Definition by_tokens (method : option ChunkingMethod) : bool :=
  match method with
  | None | Some (fixed_tokens _) | Some (sliding_tokens _ _) => true
  | Some (sent_paragraph _ _) | Some (recursive _) => false
  end.

(** An embedding provider that loads and gives every text the same
    one-dimensional vector, for examples. *)
Definition unit_embedder {num : Type} {NUM : Number num} : Embedder num :=
  {| load_error := None; embedTexts := fun texts => Some (map (fun _ => [n1]) texts) |}.

(** The document holds the term. *)
Definition has_term {H : Host} (t : string) (d : BM25Doc) : bool :=
  existsb (String.eqb t) (tokenize (text d)).

(** The [score] that the loop body of [search] computes for a posting:
    [idf * ((tf * (k1 + 1)) / (tf + k1 * (1 - b + (b * dl) / avgdl)))]. *)
Definition posting_score {num : Type} {NUM : Number num} (idx : BM25Index num)
           (avgdl idf : num) (p : Posting num) : num :=
  let dl := JSMap.get_or (docLengths idx) (docId p) n0 in
  nmul idf (ndiv (nmul (tf p) (nadd (k1 idx) n1))
                 (nadd (tf p)
                       (nmul (k1 idx)
                             (nadd (nsub n1 (b idx)) (ndiv (nmul (b idx) dl) avgdl))))).

(** The [idf] that [search] computes for a term with [n_qi] postings. *)
Definition term_idf {num : Type} {NUM : Number num} (idx : BM25Index num)
           (n_qi : nat) : num :=
  Math_log (nadd n1 (ndiv (nadd (nsub (totalDocs idx) (of_nat n_qi)) n0_5)
                          (nadd (of_nat n_qi) n0_5))).

(** The sum of a list of reals. *)
Definition sum_R (l : list R) : R := fold_right Rplus 0%R l.

(** What the query term [t] adds to the score of the document [x], in
    exact arithmetic: the scores of the postings of [t] for [x]. *)
Definition term_contribution (idx : BM25Index R) (x t : string) : R :=
  match JSMap.get (vocab idx) t with
  | None => 0%R
  | Some ps =>
      sum_R (map (fun p => @posting_score R real_number idx
                              (@avgDocLen R real_number idx)
                              (@term_idf R real_number idx (List.length ps)) p)
                 (filter (fun p => String.eqb (docId p) x) ps))
  end.

(** While [chunkRecursive] packs a section, a position is either
    inside an emitted chunk or inside the span of the buffer. *)
Definition buffered_or_covered (st : SectionPacker) (p : nat) : Prop :=
  covered (out st) p \/
  (nonempty (buffer st) = true /\ bufStart st <= p < bufEnd st).

Definition section_packer_ok (st : SectionPacker) : Prop :=
  nonempty (buffer st) = true -> bufStart st <= bufEnd st.

(** Pieces in text order that lie at least two code units apart, as
    the paragraphs that a blank line separates do. *)
Fixpoint parts_apart (lo : nat) (parts : list Part) : Prop :=
  match parts with
  | [] => True
  | part :: parts' =>
      lo <= p_start part /\ p_start part <= p_end part /\
      parts_apart (p_end part + 2) parts'
  end.

(** Every posting of the sparse index names a chunk that the chunk map
    holds, and the chunk stored under an id has that id: what the
    non-null assertion in [chunkIdToChunk.get(docId)!] relies on. *)
Definition postings_have_chunks {num : Type} (w : Worker num) : Prop :=
  (forall t ps p, JSMap.get (vocab (bm25 w)) t = Some ps -> In p ps ->
     In (docId p) (JSMap.keys (chunkIdToChunk w))) /\
  Forall (fun e => Chunk.id (snd e) = fst e) (chunkIdToChunk w).

(** * Properties *)

(** ** Facts about [JSMap] *)

Module JSMapFacts.
Import JSMap.

Section Facts.
Context {V : Type}.
Implicit Types (m : t V) (k : string) (v : V).

Lemma get_set_same m k v : get (set k v m) k = Some v.
Proof.
  induction m as [|[k' v'] m IH]; simpl.
  - now rewrite String.eqb_refl.
  - destruct (String.eqb k' k) eqn:E; simpl; rewrite E; auto.
Qed.

Lemma get_set_other m k k' v : k <> k' -> get (set k v m) k' = get m k'.
Proof.
  intros Hne. induction m as [|[k0 v0] m IH]; simpl.
  - destruct (String.eqb k k') eqn:E; auto.
    apply String.eqb_eq in E. contradiction.
  - destruct (String.eqb k0 k) eqn:E; simpl.
    + apply String.eqb_eq in E. subst k0.
      destruct (String.eqb k k') eqn:E'; auto.
      apply String.eqb_eq in E'. contradiction.
    + now rewrite IH.
Qed.

Lemma get_None_keys m k : get m k = None <-> ~ In k (keys m).
Proof.
  induction m as [|[k' v'] m IH]; simpl.
  - tauto.
  - destruct (String.eqb k' k) eqn:E.
    + apply String.eqb_eq in E. split; [discriminate | tauto].
    + apply String.eqb_neq in E. rewrite IH. tauto.
Qed.

Lemma get_Some_In m k v : get m k = Some v -> In (k, v) m.
Proof.
  induction m as [|[k' v'] m IH]; simpl; [discriminate|].
  destruct (String.eqb k' k) eqn:E.
  - apply String.eqb_eq in E. intros [= ->]. subst. now left.
  - auto.
Qed.

Lemma In_get_wf m k v : wf m -> In (k, v) m -> get m k = Some v.
Proof.
  unfold wf. induction m as [|[k' v'] m IH]; simpl; [tauto|].
  intros Hnd [Heq | Hin].
  - injection Heq as -> ->. now rewrite String.eqb_refl.
  - inversion Hnd as [|? ? Hnot Hnd']; subst.
    destruct (String.eqb k' k) eqn:E; auto.
    apply String.eqb_eq in E. subst k'.
    exfalso. apply Hnot. change k with (fst (k, v)). now apply in_map.
Qed.

Lemma set_fresh m k v : ~ In k (keys m) -> set k v m = m ++ [(k, v)].
Proof.
  induction m as [|[k' v'] m IH]; simpl; auto.
  intros Hn. destruct (String.eqb k' k) eqn:E.
  - apply String.eqb_eq in E. tauto.
  - rewrite IH; tauto.
Qed.

Lemma keys_set_present m k v : In k (keys m) -> keys (set k v m) = keys m.
Proof.
  induction m as [|[k' v'] m IH]; simpl; [tauto|].
  intros Hin. destruct (String.eqb k' k) eqn:E; simpl; auto.
  apply String.eqb_neq in E. f_equal. apply IH. tauto.
Qed.

Lemma keys_set m k v :
  keys (set k v m) = keys m \/ (~ In k (keys m) /\ keys (set k v m) = keys m ++ [k]).
Proof.
  destruct (in_dec string_dec k (keys m)) as [Hin | Hn].
  - left. now apply keys_set_present.
  - right. split; auto. rewrite set_fresh by auto.
    unfold keys. now rewrite map_app.
Qed.

Lemma wf_set m k v : wf m -> wf (set k v m).
Proof.
  unfold wf. intros Hnd.
  destruct (keys_set m k v) as [-> | [Hn ->]]; auto.
  apply NoDup_app; auto.
  - constructor; [simpl; tauto | constructor].
  - simpl. intros x Hx [<- | []]. contradiction.
Qed.

Lemma In_keys_set m k v k' : In k' (keys (set k v m)) <-> k' = k \/ In k' (keys m).
Proof.
  destruct (keys_set m k v) as [E | [Hn E]]; rewrite E.
  - split; auto. intros [-> | Hin]; auto.
    destruct (in_dec string_dec k (keys m)) as [Hin | Hn]; auto.
    exfalso. rewrite set_fresh in E by auto. unfold keys in E.
    rewrite map_app in E. apply (f_equal (@List.length string)) in E.
    rewrite length_app in E. simpl in E. lia.
  - rewrite in_app_iff. simpl. intuition.
Qed.

Lemma wf_empty : wf (@empty V).
Proof. constructor. Qed.

Lemma fold_set_fresh (es acc : list (string * V)) :
  NoDup (keys (acc ++ es)) ->
  fold_left (fun m e => set (fst e) (snd e) m) es acc = acc ++ es.
Proof.
  revert acc. induction es as [|[k v] es IH]; intros acc Hnd; simpl.
  - now rewrite app_nil_r.
  - assert (Hsplit : acc ++ (k, v) :: es = (acc ++ [(k, v)]) ++ es)
      by now rewrite <- app_assoc.
    rewrite set_fresh.
    + rewrite IH; [now rewrite <- app_assoc | now rewrite <- Hsplit].
    + unfold keys in Hnd. rewrite map_app in Hnd. simpl in Hnd.
      apply NoDup_remove_2 in Hnd. rewrite in_app_iff in Hnd.
      unfold keys. tauto.
Qed.

(** [new Map([...m.entries()])] is [m] again. *)
Lemma of_entries_entries m : wf m -> of_entries (entries m) = m.
Proof.
  intros Hwf. unfold of_entries, entries, empty.
  now rewrite fold_set_fresh.
Qed.
End Facts.
End JSMapFacts.

(** ** BM25: persistence, the empty index, re-ingestion *)

Section BM25Facts.
Context {num : Type} {NUM : Number num} {H : Host}.
Import JSMap JSMapFacts.

Lemma copy_postings_id (ps : list (Posting num)) : copy_postings ps = ps.
Proof.
  unfold copy_postings. induction ps as [|[d f] ps IH]; simpl; congruence.
Qed.

Lemma copy_entries_id (es : list (string * list (Posting num))) :
  map (fun e => (fst e, copy_postings (snd e))) es = es.
Proof.
  induction es as [|[k ps] es IH]; simpl; auto.
  now rewrite copy_postings_id, IH.
Qed.

Lemma fromJSON_serialize (idx : BM25Index num) :
  index_wf idx -> fromJSON (serialize idx) = idx.
Proof.
  intros [Hv Hd]. destruct idx as [k1' b' v d n l]; simpl in *.
  unfold fromJSON, serialize; simpl.
  rewrite !copy_entries_id, !of_entries_entries; auto.
Qed.

Lemma push_postings_wf doc_id es (v : JSMap.t (list (Posting num))) :
  wf v -> wf (fold_left (push_posting doc_id) es v).
Proof.
  revert v. induction es as [|e es IH]; intros v Hv; simpl; auto.
  apply IH. unfold push_posting. now apply wf_set.
Qed.

Lemma addDocument_wf idx doc : index_wf idx -> index_wf (addDocument idx doc).
Proof.
  intros [Hv Hd]. split; simpl.
  - now apply push_postings_wf.
  - now apply wf_set.
Qed.

Lemma addDocuments_wf docs : forall idx,
  index_wf idx -> index_wf (addDocuments idx docs).
Proof.
  unfold addDocuments.
  induction docs as [|d docs IH]; intros idx Hwf; simpl; auto.
  apply IH. now apply addDocument_wf.
Qed.

Lemma batches_wf batches : forall idx,
  index_wf idx -> index_wf (fold_left addDocuments batches idx).
Proof.
  induction batches as [|ds batches IH]; intros idx Hwf; simpl; auto.
  apply IH. now apply addDocuments_wf.
Qed.

Lemma new_index_wf : index_wf new_BM25Index.
Proof. split; apply wf_empty. Qed.

(** C1: whatever batches of documents were added to a fresh index, the
    index rebuilt by [fromJSON] from [serialize()] is the same index, so
    [search] returns the same list (ids, scores and order) for every
    query and every [topK]. *)
Theorem serialize_fromJSON_search
        (batches : list (list BM25Doc)) (query : string) (topK : Z) :
  let idx := fold_left addDocuments batches new_BM25Index in
  fromJSON (serialize idx) = idx /\
  search (fromJSON (serialize idx)) query topK = search idx query topK.
Proof.
  intros idx.
  assert (E : fromJSON (serialize idx) = idx).
  { apply fromJSON_serialize, batches_wf, new_index_wf. }
  split; [exact E | now rewrite E].
Qed.

Lemma search_new_index_scores (query : string) (topK : Z) :
  search_scores new_BM25Index query = JSMap.empty /\
  search new_BM25Index query topK = [].
Proof.
  assert (E : search_scores new_BM25Index query = JSMap.empty).
  { unfold search_scores. generalize (tokenize query) as ts.
    induction ts as [|t ts IH]; simpl; auto. }
  split; [exact E|]. unfold search. rewrite E. simpl.
  unfold slice0. destruct (topK <? 0)%Z; now rewrite firstn_nil.
Qed.

(** *** Re-ingestion *)

Lemma count_terms_from_wf tokens : forall acc : JSMap.t num,
  wf acc ->
  wf (fold_left (fun tfMap t => set t (nadd (get_or tfMap t n0) n1) tfMap) tokens acc).
Proof.
  induction tokens as [|t ts IH]; intros acc Hacc; simpl; auto.
  apply IH. now apply wf_set.
Qed.

Lemma count_terms_wf tokens : wf (count_terms tokens).
Proof. apply count_terms_from_wf, wf_empty. Qed.

Lemma count_terms_from_keys tokens : forall (acc : JSMap.t num) term,
  In term (keys (fold_left (fun tfMap t => set t (nadd (get_or tfMap t n0) n1) tfMap)
                           tokens acc)) <->
  In term tokens \/ In term (keys acc).
Proof.
  induction tokens as [|t ts IH]; intros acc term; simpl.
  - tauto.
  - rewrite IH, In_keys_set. intuition.
Qed.

Lemma count_terms_keys tokens term :
  In term (keys (count_terms tokens)) <-> In term tokens.
Proof.
  unfold count_terms. rewrite count_terms_from_keys. simpl. tauto.
Qed.

Lemma push_postings_other doc_id es : forall (v : JSMap.t (list (Posting num))) term,
  ~ In term (keys es) ->
  get (fold_left (push_posting doc_id) es v) term = get v term.
Proof.
  induction es as [|[k f] es IH]; intros v term Hn; simpl in *; auto.
  rewrite IH by tauto. unfold push_posting; simpl.
  apply get_set_other. intros ->. tauto.
Qed.

Lemma push_postings_get doc_id es : forall (v : JSMap.t (list (Posting num))) term f,
  NoDup (keys es) -> In (term, f) es ->
  get (fold_left (push_posting doc_id) es v) term =
  Some (get_or v term [] ++ [{| docId := doc_id; tf := f |}]).
Proof.
  induction es as [|[k g] es IH]; intros v term f Hnd Hin; simpl in *; [tauto|].
  inversion Hnd as [|? ? Hnot Hnd']; subst.
  destruct Hin as [Heq | Hin].
  - injection Heq as -> ->.
    rewrite push_postings_other by exact Hnot.
    unfold push_posting; simpl. apply get_set_same.
  - assert (Hne : k <> term).
    { intros ->. apply Hnot. change term with (fst (term, f)). now apply in_map. }
    rewrite (IH _ term f Hnd' Hin). unfold push_posting, get_or; simpl.
    now rewrite get_set_other.
Qed.

Lemma addDocument_postings idx doc term :
  In term (tokenize (text doc)) ->
  exists f,
    get (count_terms (tokenize (text doc))) term = Some f /\
    get (vocab (addDocument idx doc)) term =
    Some (get_or (vocab idx) term [] ++ [{| docId := id doc; tf := f |}]).
Proof.
  intros Hin. apply count_terms_keys in Hin.
  destruct (get (count_terms (tokenize (text doc))) term) as [f|] eqn:E.
  - exists f. split; auto. simpl.
    apply push_postings_get.
    + apply count_terms_wf.
    + now apply get_Some_In.
  - apply get_None_keys in E. contradiction.
Qed.

(** C9: [addDocuments] has no guard on the id.  Adding a document to any
    index state, whether or not its id is already there, adds 1 to
    [totalDocs], adds its token count to [totalDocLength] and appends one
    posting with its id to the posting list of each of its terms, so the
    index changes whenever the document has a term; adding the same
    document again counts it a second time and leaves two postings with
    that id at the end of each of those lists. *)
Theorem addDocuments_counts_again (idx : BM25Index num) (doc : BM25Doc) :
  let tokens := tokenize (text doc) in
  let idx1 := addDocuments idx [doc] in
  let idx2 := addDocuments idx1 [doc] in
  (totalDocs idx1 = nadd (totalDocs idx) n1 /\
   totalDocLength idx1 = nadd (totalDocLength idx) (of_nat (List.length tokens)) /\
   forall term, In term tokens ->
     exists f, get (count_terms tokens) term = Some f /\
       get (vocab idx1) term =
       Some (get_or (vocab idx) term [] ++ [{| docId := id doc; tf := f |}])) /\
  (tokens <> [] -> vocab idx1 <> vocab idx) /\
  (totalDocs idx2 = nadd (nadd (totalDocs idx) n1) n1 /\
   totalDocLength idx2 =
     nadd (nadd (totalDocLength idx) (of_nat (List.length tokens)))
          (of_nat (List.length tokens)) /\
   forall term, In term tokens ->
     exists f, get (count_terms tokens) term = Some f /\
       get (vocab idx2) term =
       Some (get_or (vocab idx) term []
               ++ [{| docId := id doc; tf := f |}; {| docId := id doc; tf := f |}])).
Proof.
  intros tokens idx1 idx2.
  assert (P1 : forall term, In term tokens ->
     exists f, get (count_terms tokens) term = Some f /\
       get (vocab idx1) term =
       Some (get_or (vocab idx) term [] ++ [{| docId := id doc; tf := f |}])).
  { intros term Hin. apply (addDocument_postings idx doc term Hin). }
  split; [|split].
  - split; [reflexivity | split; [reflexivity | exact P1]].
  - intros Hne Heq. destruct tokens as [|t ts] eqn:Et; [congruence|].
    destruct (P1 t (or_introl eq_refl)) as (f & _ & Hget).
    rewrite Heq in Hget. unfold get_or in Hget.
    destruct (get (vocab idx) t) as [old|]; [|discriminate].
    injection Hget as Hold.
    apply (f_equal (@List.length _)) in Hold. rewrite length_app in Hold.
    simpl in Hold. lia.
  - split; [reflexivity | split; [reflexivity |]].
    intros term Hin.
    destruct (P1 term Hin) as (f & Hf & Hget1).
    destruct (addDocument_postings idx1 doc term Hin) as (f' & Hf' & Hget2).
    fold tokens in Hf'. rewrite Hf in Hf'. injection Hf' as <-.
    exists f. split; auto.
    change (addDocument idx1 doc) with idx2 in Hget2.
    rewrite Hget2. unfold get_or at 1. rewrite Hget1.
    now rewrite <- app_assoc.
Qed.
End BM25Facts.

(** ** binary64 arithmetic *)

Module FloatFacts.
Local Open Scope float_scope.

Lemma SF64add_comm (x y : spec_float) : SF64add x y = SF64add y x.
Proof.
  destruct x as [sx|sx| |sx mx ex], y as [sy|sy| |sy my ey];
    cbn [SF64add SFadd]; try reflexivity.
  - destruct sx, sy; reflexivity.
  - destruct sx, sy; reflexivity.
  - rewrite (Z.min_comm ey ex), Z.add_comm. reflexivity.
Qed.

Lemma add_comm (x y : float) : x + y = y + x.
Proof. apply Prim2SF_inj. rewrite !add_spec. apply SF64add_comm. Qed.

Lemma add_0_l (x : float) : sf_plus (Prim2SF x) = true -> 0 + x = x.
Proof.
  intros Hx. apply Prim2SF_inj. rewrite add_spec.
  change (Prim2SF 0) with (S754_zero false).
  destruct (Prim2SF x) as [s|s| |s m e]; cbn [SF64add SFadd]; try reflexivity.
  destruct s; [discriminate | reflexivity].
Qed.

Lemma positive_plus (x : float) : (0 <? x) = true -> sf_plus (Prim2SF x) = true.
Proof.
  rewrite ltb_spec. change (Prim2SF 0) with (S754_zero false).
  destruct (Prim2SF x) as [s|s| |s m e]; cbn; try discriminate;
    destruct s; cbn; congruence.
Qed.








(** [x * 1] is [x]: the product of the mantissas is the mantissa of
    [x] shifted by 52 bits, and rounding shifts it back. *)
Lemma digits2_pos_shift52 (m : positive) :
  Z.pos (digits2_pos (4503599627370496 * m)) = (Z.pos (digits2_pos m) + 52)%Z.
Proof.
  change (4503599627370496 * m)%positive
    with (m~0~0~0~0~0~0~0~0~0~0~0~0~0~0~0~0~0~0~0~0~0~0~0~0~0~0
           ~0~0~0~0~0~0~0~0~0~0~0~0~0~0~0~0~0~0~0~0~0~0~0~0~0~0)%positive.
  cbn [digits2_pos]. lia.
Qed.

Lemma shr_shift52 (m : positive) :
  SpecFloat.iter_pos shr_1 52
    {| shr_m := Z.pos (4503599627370496 * m); shr_r := false; shr_s := false |} =
  {| shr_m := Z.pos m; shr_r := false; shr_s := false |}.
Proof.
  change (4503599627370496 * m)%positive
    with (m~0~0~0~0~0~0~0~0~0~0~0~0~0~0~0~0~0~0~0~0~0~0~0~0~0~0
           ~0~0~0~0~0~0~0~0~0~0~0~0~0~0~0~0~0~0~0~0~0~0~0~0~0~0)%positive.
  reflexivity.
Qed.

Lemma SF64mul_1_r (x : spec_float) :
  valid_binary x = true ->
  SF64mul x (S754_finite false 4503599627370496 (-52)) = x.
Proof.
  intros Hv.
  destruct x as [s|s| |s m e]; cbn [SF64mul SFmul];
    rewrite ?xorb_false_r; try reflexivity.
  cbn [SpecFloat.valid_binary] in Hv. unfold bounded, canonical_mantissa in Hv.
  apply andb_prop in Hv. destruct Hv as [Hc Hb].
  apply Z.eqb_eq in Hc.
  rewrite Pos.mul_comm.
  unfold binary_round_aux, shr_fexp. cbn [Zdigits2].
  rewrite digits2_pos_shift52.
  replace (Z.pos (digits2_pos m) + 52 + (e + -52))%Z
    with (Z.pos (digits2_pos m) + e)%Z by lia.
  rewrite Hc.
  replace (e - (e + -52))%Z with 52%Z by lia.
  cbn [shr shr_record_of_loc].
  rewrite shr_shift52.
  cbn [shr_m shr_r shr_s loc_of_shr_record round_nearest_even Zdigits2].
  replace (e + -52 + 52)%Z with e by lia.
  rewrite Hc, Z.sub_diag. cbn [shr shr_m].
  now rewrite Hb.
Qed.

Lemma mul_1_r (x : float) : x * 1 = x.
Proof.
  apply Prim2SF_inj. rewrite mul_spec.
  change (Prim2SF 1) with (S754_finite false 4503599627370496 (-52)).
  apply SF64mul_1_r, Prim2SF_valid.
Qed.
End FloatFacts.

(** ** Engines that agree on ASCII text *)

Section AsciiText.
Variable H : Host.
Hypothesis conforming : ascii_conforming H.
Variable seg : option (string -> list (string * nat)).

Let A : Host := ascii_host seg.

Lemma ascii_toLowerCase_ascii s :
  all_ascii s = true -> all_ascii (ascii_toLowerCase s) = true.
Proof.
  induction s as [|c s IH]; simpl; auto.
  intros Hs. apply andb_prop in Hs. destruct Hs as [Hc Hs].
  rewrite (IH Hs), andb_true_r.
  unfold ascii_isUpper, is_ascii in *.
  destruct ((65 <=? nat_of_ascii c)%nat && (nat_of_ascii c <=? 90)%nat) eqn:E; auto.
  apply andb_prop in E. destruct E as [E1 E2].
  apply Nat.leb_le in E1, E2. rewrite nat_ascii_embedding by lia.
  apply Nat.ltb_lt. lia.
Qed.

Lemma replace_other_ascii s :
  all_ascii s = true ->
  @replace_other H s = @replace_other A s /\
  all_ascii (@replace_other A s) = true.
Proof.
  destruct conforming as (Hsp & Hln & _).
  induction s as [|c s IH]; simpl; auto.
  intros Hs. apply andb_prop in Hs. destruct Hs as [Hc Hs].
  destruct (IH Hs) as [IH1 IH2].
  rewrite IH1, IH2, (Hsp c Hc), (Hln c Hc), andb_true_r. split; auto.
  destruct (ascii_isLetterOrNumber c || ascii_isSpace c); auto.
Qed.

Lemma split_spaces_from_ascii s : forall cur in_sep,
  all_ascii s = true ->
  @split_spaces_from H cur in_sep s = @split_spaces_from A cur in_sep s.
Proof.
  destruct conforming as (Hsp & _ & _).
  induction s as [|c s IH]; intros cur in_sep Hs; simpl; auto.
  apply andb_prop in Hs. destruct Hs as [Hc Hs].
  rewrite (Hsp c Hc). rewrite !IH by assumption. reflexivity.
Qed.

Lemma tokenize_ascii s :
  all_ascii s = true -> @tokenize H s = @tokenize A s.
Proof.
  intros Hs. destruct conforming as (_ & _ & Hlow).
  unfold tokenize, tokenize_with, split_spaces; simpl.
  rewrite (Hlow s Hs).
  pose proof (ascii_toLowerCase_ascii s Hs) as Hl.
  destruct (replace_other_ascii _ Hl) as [E1 E2].
  rewrite E1, split_spaces_from_ascii by exact E2. reflexivity.
Qed.

Lemma nonspace_runs_from_ascii s : forall pos cur,
  all_ascii s = true ->
  @nonspace_runs_from H pos cur s = @nonspace_runs_from A pos cur s.
Proof.
  destruct conforming as (Hsp & _ & _).
  induction s as [|c s IH]; intros pos cur Hs; simpl; auto.
  apply andb_prop in Hs. destruct Hs as [Hc Hs].
  rewrite (Hsp c Hc). destruct cur as [[i w]|]; rewrite !IH by assumption; reflexivity.
Qed.

Lemma chunkByTokens_ascii s docId maxTokens overlapTokens :
  all_ascii s = true ->
  @chunkByTokens H s docId maxTokens overlapTokens =
  @chunkByTokens A s docId maxTokens overlapTokens.
Proof.
  intros Hs. unfold chunkByTokens, matchAll_nonspace.
  now rewrite nonspace_runs_from_ascii.
Qed.

Context {num : Type} {NUM : Number num}.

Lemma addDocuments_ascii docs : forall idx : BM25Index num,
  Forall (fun d => all_ascii (text d) = true) docs ->
  @addDocuments num NUM H idx docs = @addDocuments num NUM A idx docs.
Proof.
  unfold addDocuments.
  induction docs as [|d docs IH]; intros idx Hall; simpl; auto.
  inversion Hall as [|? ? Hd Hds]; subst.
  rewrite <- IH by assumption. f_equal.
  unfold addDocument. now rewrite tokenize_ascii.
Qed.

Lemma search_ascii (idx : BM25Index num) query topK :
  all_ascii query = true ->
  @search num NUM H idx query topK = @search num NUM A idx query topK.
Proof.
  intros Hq. unfold search, search_scores. now rewrite tokenize_ascii.
Qed.
End AsciiText.

(** ** The search scenario: two documents, query "cat" *)

Section CatScenario.
Variable H : Host.
Variable log : float -> float.
Hypothesis conforming : ascii_conforming H.
Hypothesis log2_positive : (0 <? log 2)%float = true.

Let F : Number float := float_number log.

Lemma cat_chunks :
  @parseAndChunk H cat_files (Some (fixed_tokens 10)) = [cat_chunk1; cat_chunk2].
Proof.
  unfold parseAndChunk, cat_files. cbn [fold_left chunk_file path f_text app].
  rewrite !(chunkByTokens_ascii conforming None) by reflexivity.
  reflexivity.
Qed.

Lemma cat_index (E : Embedder float) :
  @handleIngest float F H E (@new_Worker float F) cat_files (Some (fixed_tokens 10)) sparse =
  @handleIngest float F (ascii_host None) E (@new_Worker float F) cat_files
                (Some (fixed_tokens 10)) sparse.
Proof.
  unfold handleIngest. rewrite cat_chunks.
  replace (@parseAndChunk (ascii_host None) cat_files (Some (fixed_tokens 10)))
    with [cat_chunk1; cat_chunk2] by reflexivity.
  unfold buildBM25.
  rewrite (addDocuments_ascii conforming None); [reflexivity|].
  repeat constructor.
Qed.

Lemma cat_score : (0 + log 2 * 1)%float = log 2.
Proof.
  rewrite FloatFacts.mul_1_r. apply FloatFacts.add_0_l.
  now apply FloatFacts.positive_plus.
Qed.

(** C3: after ingesting doc1 = "the cat sat on the mat" and doc2 = "the
    dog sat on the log" with [fixed_tokens], [maxTokens = 10], in sparse
    mode, each document is one chunk, and the search for "cat" returns
    doc1's chunk first (and alone) with the score [Math.log(2)], which is
    strictly positive; doc2's chunk, which has no query term, gets no
    contribution: it has no entry in the score map, so its accumulated
    score [scores.get(id) ?? 0] is 0, and nothing ranks it above doc1's
    chunk.  The engine is any engine with the usual ASCII tables whose
    [Math.log(2)] is positive. *)
Theorem cat_query_ranks_doc1 (E : Embedder float) :
  let w := fst (@handleIngest float F H E (@new_Worker float F) cat_files
                              (Some (fixed_tokens 10)) sparse) in
  @parseAndChunk H cat_files (Some (fixed_tokens 10)) = [cat_chunk1; cat_chunk2] /\
  @search float F H (bm25 w) "cat" 10 =
    [{| r_docId := Chunk.id cat_chunk1; score := log 2 |}] /\
  snd (@handleSearch float F H E w "cat" None None) =
    Some [{| sr_chunk := Some cat_chunk1; sr_score := log 2 |}] /\
  (0 <? log 2)%float = true /\
  JSMap.get (@search_scores float F H (bm25 w) "cat") (Chunk.id cat_chunk2) = None /\
  JSMap.get_or (@search_scores float F H (bm25 w) "cat") (Chunk.id cat_chunk2) 0%float
    = 0%float.
Proof.
  intros w. unfold w. rewrite cat_index.
  assert (Es : forall k,
    @search float F H
      (bm25 (fst (@handleIngest float F (ascii_host None) E (@new_Worker float F) cat_files
                                (Some (fixed_tokens 10)) sparse))) "cat" k =
    @search float F (ascii_host None)
      (bm25 (fst (@handleIngest float F (ascii_host None) E (@new_Worker float F) cat_files
                                (Some (fixed_tokens 10)) sparse))) "cat" k).
  { intros k. now apply search_ascii. }
  assert (Ec :
    @search_scores float F H
      (bm25 (fst (@handleIngest float F (ascii_host None) E (@new_Worker float F) cat_files
                                (Some (fixed_tokens 10)) sparse))) "cat" =
    [("doc1:0-22", log 2)]).
  { unfold search_scores. rewrite (tokenize_ascii conforming None) by reflexivity.
    vm_compute. now rewrite cat_score. }
  split; [apply cat_chunks|].
  split; [|split; [|split; [exact log2_positive|]]].
  - rewrite Es. vm_compute. now rewrite cat_score.
  - unfold handleSearch. rewrite Es. vm_compute. now rewrite cat_score.
  - rewrite Ec. split; reflexivity.
Qed.
End CatScenario.

Lemma ascii_host_conforming seg : ascii_conforming (ascii_host seg).
Proof. repeat split. Qed.

Lemma cat_query_ranks_doc1_witness :
  ascii_conforming (ascii_host None) /\
  (0 <? series_log 2)%float = true /\
  @search float (float_number series_log) (ascii_host None)
    (bm25 (fst (@handleIngest float (float_number series_log) (ascii_host None)
                  no_embedder (@new_Worker float (float_number series_log)) cat_files (Some (fixed_tokens 10)) sparse)))
    "cat" 10 =
  [{| r_docId := "doc1:0-22"; score := series_log 2 |}].
Proof.
  split; [apply ascii_host_conforming|].
  split; [vm_compute; reflexivity|].
  apply (@cat_query_ranks_doc1 (ascii_host None) series_log
           (ascii_host_conforming None) eq_refl no_embedder).
Defined.

(** ** Reciprocal rank fusion *)

Section SortFacts.
Context {num : Type} {NUM : Number num} {A : Type}.
Variable cmp : A -> A -> num.

Lemma sort_insert_perm x l : Permutation (sort_insert cmp x l) (x :: l).
Proof.
  induction l as [|y l IH]; simpl; auto.
  destruct (nlt (cmp y x) n0); auto.
  rewrite IH. apply perm_swap.
Qed.

Lemma js_sort_perm l : Permutation (js_sort cmp l) l.
Proof.
  induction l as [|x l IH]; simpl; auto.
  rewrite sort_insert_perm. now constructor.
Qed.
End SortFacts.


Lemma slice0_incl {A : Type} (k : Z) (l : list A) x : In x (slice0 k l) -> In x l.
Proof.
  unfold slice0. intros Hin.
  destruct (k <? 0)%Z;
    match type of Hin with In _ (firstn ?n _) => rewrite <- (firstn_skipn n l) end;
    apply in_or_app; now left.
Qed.


Section FuseFacts.
Context {num : Type} {NUM : Number num}.
Import JSMap JSMapFacts.










End FuseFacts.

Section FuseFloat.
Variable log : float -> float.
Let F : Number float := float_number log.
Import JSMap JSMapFacts.
Local Open Scope float_scope.





End FuseFloat.

Ltac distinct_strings :=
  repeat (constructor; [simpl; intuition discriminate|]); constructor.


(** The rankings that [handleSearch] fuses list every id once: they are
    read off maps. *)
Section RankingsDistinct.
Context {num : Type} {NUM : Number num} {H : Host}.
Import JSMap JSMapFacts.

Lemma NoDup_firstn {A : Type} (n : nat) (l : list A) : NoDup l -> NoDup (firstn n l).
Proof.
  intros Hnd. rewrite <- (firstn_skipn n l) in Hnd.
  now apply NoDup_app_remove_r in Hnd.
Qed.

Lemma NoDup_slice0 {A : Type} (k : Z) (l : list A) : NoDup l -> NoDup (slice0 k l).
Proof. unfold slice0. destruct (k <? 0)%Z; apply NoDup_firstn. Qed.

Lemma slice0_map {A B : Type} (f : A -> B) (k : Z) (l : list A) :
  map f (slice0 k l) = slice0 k (map f l).
Proof.
  unfold slice0. rewrite length_map. destruct (k <? 0)%Z; symmetry; apply firstn_map.
Qed.

Lemma ranked_keys_distinct (m : JSMap.t num) (k : Z) :
  wf m -> NoDup (map fst (slice0 k (js_sort by_score_desc (entries m)))).
Proof.
  intros Hwf. rewrite slice0_map. apply NoDup_slice0.
  eapply Permutation_NoDup; [|exact Hwf].
  apply Permutation_map, Permutation_sym, js_sort_perm.
Qed.

Lemma score_postings_wf (idx : BM25Index num) avgdl idf ps : forall scores,
  wf scores -> wf (fold_left (score_posting idx avgdl idf) ps scores).
Proof.
  induction ps as [|p ps IH]; intros scores Hwf; simpl; auto.
  apply IH. unfold score_posting. now apply wf_set.
Qed.

Lemma score_terms_wf (idx : BM25Index num) N avgdl ts : forall scores,
  wf scores -> wf (fold_left (score_term idx N avgdl) ts scores).
Proof.
  induction ts as [|t ts IH]; intros scores Hwf; simpl; auto.
  apply IH. unfold score_term.
  destruct (get (vocab idx) t); auto. now apply score_postings_wf.
Qed.

Lemma search_scores_wf (idx : BM25Index num) query : wf (search_scores idx query).
Proof. unfold search_scores. apply score_terms_wf, wf_empty. Qed.

Lemma search_ids_distinct (idx : BM25Index num) query topK :
  NoDup (map (@r_docId num) (search idx query topK)).
Proof.
  unfold search. rewrite map_map. simpl.
  apply ranked_keys_distinct, search_scores_wf.
Qed.


End RankingsDistinct.

(** Hybrid search returns the top of the fused map of its two
    rankings, and each of the two lists an id once. *)
Section HybridSearch.
Context {num : Type} {NUM : Number num} {H : Host}.

End HybridSearch.

Section FuseSymmetry.
Variable log : float -> float.
Let F : Number float := float_number log.
Import JSMap JSMapFacts.

End FuseSymmetry.



(** ** Ingest: what is committed, whatever the embedder does *)

Section IngestFacts.
Context {num : Type} {NUM : Number num} {H : Host}.
Import JSMap JSMapFacts.

Lemma ensureEmbedder_keeps (E : Embedder num) (w : Worker num) :
  bm25 (fst (ensureEmbedder E w)) = bm25 w /\
  chunkIdToChunk (fst (ensureEmbedder E w)) = chunkIdToChunk w /\
  embeddingsByChunkId (fst (ensureEmbedder E w)) = embeddingsByChunkId w.
Proof.
  unfold ensureEmbedder. destruct (embedderReady w); simpl; auto.
Qed.

Lemma handleIngest_state (E : Embedder num) (w : Worker num) files method retrieval :
  let chunks := parseAndChunk files method in
  let w' := fst (handleIngest E w files method retrieval) in
  chunkIdToChunk w' =
    fold_left (fun m c => set (Chunk.id c) c m) chunks (chunkIdToChunk w) /\
  bm25 w' = match retrieval with
            | dense => bm25 w
            | sparse | hybrid => buildBM25 (bm25 w) chunks
            end.
Proof.
  intros chunks w'. unfold w', handleIngest. fold chunks.
  remember chunks as cs eqn:Ecs. clear Ecs chunks w'.
  match goal with
  | |- context [ensureEmbedder E ?r] => remember r as w1 eqn:Ew1
  end.
  assert (Hc1 : chunkIdToChunk w1 =
                fold_left (fun m c => set (Chunk.id c) c m) cs (chunkIdToChunk w))
    by now subst w1.
  assert (Hb1 : bm25 w1 = match retrieval with
                          | dense => bm25 w
                          | sparse | hybrid => buildBM25 (bm25 w) cs
                          end)
    by now subst w1.
  clear Ew1.
  destruct (ensureEmbedder_keeps E w1) as (Eb & Ec & _).
  destruct retrieval.
  - simpl. auto.
  - destruct (snd (ensureEmbedder E w1)); [|destruct cs]; simpl;
      rewrite ?Eb, ?Ec; auto.
  - destruct (snd (ensureEmbedder E w1)); [|destruct cs]; simpl;
      rewrite ?Eb, ?Ec; auto.
Qed.

Lemma chunk_map_has (chunks : list Chunk.t) : forall (m : JSMap.t Chunk.t) c,
  In c chunks ->
  exists c', get (fold_left (fun m c => set (Chunk.id c) c m) chunks m) (Chunk.id c)
             = Some c' /\ Chunk.id c' = Chunk.id c.
Proof.
  induction chunks as [|c0 chunks IH]; intros m c Hin; simpl in *; [tauto|].
  destruct (in_dec (fun x y => string_dec x y) (Chunk.id c) (map Chunk.id chunks))
    as [Hlater | Hnot].
  - apply in_map_iff in Hlater. destruct Hlater as (c1 & Hid & Hin1).
    destruct (IH (set (Chunk.id c0) c0 m) c1 Hin1) as (c' & Hget & Hid').
    exists c'. rewrite <- Hid. split; congruence.
  - destruct Hin as [-> | Hin].
    + exists c. split; auto.
      assert (Hkeep : forall (l : list Chunk.t) (m0 : JSMap.t Chunk.t),
                 ~ In (Chunk.id c) (map Chunk.id l) ->
                 get (fold_left (fun m c => set (Chunk.id c) c m) l m0) (Chunk.id c)
                 = get m0 (Chunk.id c)).
      { induction l as [|x l IHl]; intros m0 Hn; simpl in *; auto.
        rewrite IHl by tauto. apply get_set_other. intros E'. apply Hn. now left. }
      rewrite Hkeep by exact Hnot. apply get_set_same.
    + exfalso. apply Hnot. now apply in_map.
Qed.




End IngestFacts.


(** ** The empty index *)

(** C6: on the index nothing was added to, [search] returns the empty
    list for every query and every [topK].  Its score map is empty: no
    posting is visited, so no score is computed and [/ avgdl] is never
    evaluated; this holds in every arithmetic, whatever its division
    does.  In binary64, [totalDocs] is [0], which is falsy, so
    [avgDocLen] returns the literal [0] without dividing. *)
Theorem search_empty_index (num : Type) (NUM : Number num) (H : Host)
        (query : string) (topK : Z) :
  @search num NUM H new_BM25Index query topK = [] /\
  @search_scores num NUM H new_BM25Index query = JSMap.empty /\
  (forall log : float -> float,
      totalDocs (@new_BM25Index float (float_number log)) = 0%float /\
      @avgDocLen float (float_number log)
        (@new_BM25Index float (float_number log)) = 0%float).
Proof.
  destruct (@search_new_index_scores num NUM H query topK) as [Es Er].
  split; [exact Er | split; [exact Es|]].
  intros log. split; reflexivity.
Qed.

(** ** Loops with a turn counter *)

(** The loop of [chunkByTokens] never runs out of turns: any number of
    turns that is at least the number of tokens left gives the same
    chunks. *)
Lemma token_windows_fuel text docId starts ends maxTokens stride :
  (1 <= stride)%Z ->
  forall fuel fuel' tStart,
    (Z.of_nat (List.length starts) - tStart <= Z.of_nat fuel)%Z ->
    (Z.of_nat (List.length starts) - tStart <= Z.of_nat fuel')%Z ->
    token_windows fuel text docId starts ends maxTokens stride tStart =
    token_windows fuel' text docId starts ends maxTokens stride tStart.
Proof.
  intros Hstride. induction fuel as [|fuel IH]; intros fuel' tStart Hf Hf'.
  - destruct fuel' as [|fuel']; [reflexivity|]. cbn [token_windows].
    destruct (tStart <? Z.of_nat (List.length starts))%Z eqn:E; [|reflexivity].
    apply Z.ltb_lt in E. lia.
  - destruct fuel' as [|fuel']; cbn [token_windows].
    + destruct (tStart <? Z.of_nat (List.length starts))%Z eqn:E; [|reflexivity].
      apply Z.ltb_lt in E. lia.
    + destruct (tStart <? Z.of_nat (List.length starts))%Z eqn:E; [|reflexivity].
      destruct (Z.min (tStart + maxTokens) (Z.of_nat (List.length starts))
                =? Z.of_nat (List.length starts))%Z; [reflexivity|].
      f_equal. apply IH; lia.
Qed.

(** Likewise for the batches of [handleIngest]. *)
Section BatchFuel.
Context {num : Type}.

Lemma embed_batches_fuel (E : Embedder num) : forall fuel fuel' rest m,
  List.length rest <= fuel -> List.length rest <= fuel' ->
  embed_batches fuel E rest m = embed_batches fuel' E rest m.
Proof.
  induction fuel as [|fuel IH]; intros fuel' rest m Hf Hf'.
  - destruct rest; [|simpl in Hf; lia]. destruct fuel'; reflexivity.
  - destruct rest as [|c rest]; [destruct fuel'; reflexivity|].
    destruct fuel' as [|fuel']; [simpl in Hf'; lia|].
    cbn [embed_batches].
    assert (Hlen : List.length (skipn 10 (c :: rest)) <= List.length rest).
    { rewrite length_skipn. simpl. lia. }
    simpl in Hf, Hf'.
    destruct (embedTexts E (map Chunk.text (firstn 10 (c :: rest)))).
    + rewrite (IH fuel'); [reflexivity | lia | lia].
    + apply IH; lia.
Qed.
End BatchFuel.

(** ** Token windows *)

Section TokenWindows.
Context {H : Host}.

Lemma chained_weaken runs : forall lo lo', lo' <= lo -> chained lo runs -> chained lo' runs.
Proof.
  destruct runs as [|r runs]; simpl; auto.
  intros lo lo' Hle [H1 H2]. split; auto. lia.
Qed.

Lemma length_append_char w c :
  String.length (String.append w (String c EmptyString)) = S (String.length w).
Proof. induction w as [|a w IH]; simpl; auto. Qed.

Lemma nonspace_runs_chained s : forall pos cur,
  match cur with
  | Some (i, w) => i + String.length w = pos
  | None => True
  end ->
  chained (match cur with Some (i, _) => i | None => pos end)
          (nonspace_runs_from pos cur s).
Proof.
  induction s as [|c s IH]; intros pos cur Hcur; simpl.
  - destruct cur as [[i w]|]; simpl; auto.
  - destruct (isSpace c).
    + destruct cur as [[i w]|]; simpl.
      * split; auto. apply chained_weaken with (lo := S pos); [lia|].
        apply (IH (S pos) None I).
      * apply chained_weaken with (lo := S pos); [lia|]. apply (IH (S pos) None I).
    + destruct cur as [[i w]|].
      * apply (IH (S pos) (Some (i, String.append w (String c EmptyString)))).
        rewrite length_append_char. lia.
      * apply (IH (S pos) (Some (pos, String c EmptyString))). simpl. lia.
Qed.

Lemma nonspace_runs_cover s : forall pos cur p,
  match cur with
  | Some (i, w) => i + String.length w = pos
  | None => True
  end ->
  (pos <= p /\ exists c, String.get (p - pos) s = Some c /\ isSpace c = false) \/
  (exists i w, cur = Some (i, w) /\ i <= p < pos) ->
  exists r, In r (nonspace_runs_from pos cur s) /\
            fst r <= p < fst r + String.length (snd r).
Proof.
  induction s as [|c s IH]; intros pos cur p Hcur Hp; simpl.
  - destruct Hp as [(_ & c & Hget & _) | (i & w & -> & Hi)]; [discriminate|].
    exists (i, w). simpl. split; auto. lia.
  - destruct (isSpace c) eqn:Ec.
    + destruct Hp as [(Hpos & c' & Hget & Hc') | (i & w & -> & Hi)].
      * assert (Hne : p <> pos).
        { intros ->. rewrite Nat.sub_diag in Hget. simpl in Hget. congruence. }
        destruct (IH (S pos) None p I) as (r & Hin & Hr).
        { left. split; [lia|]. exists c'. split; auto.
          replace (p - pos) with (S (p - S pos)) in Hget by lia. exact Hget. }
        exists r. split; auto. destruct cur as [[i w]|]; simpl; auto.
      * exists (i, w). simpl. split; [now left | lia].
    + assert (Hnext : forall cur',
                match cur' with
                | Some (i, w) => i + String.length w = S pos /\ i <= pos /\
                                 (forall j v, cur = Some (j, v) -> i = j)
                | None => False
                end ->
                exists r, In r (nonspace_runs_from (S pos) cur' s) /\
                          fst r <= p < fst r + String.length (snd r)).
      { intros [[i w]|] Hc'; [|contradiction]. destruct Hc' as (Hlen & Hle & Hsame).
        apply IH; auto.
        destruct Hp as [(Hpos & c' & Hget & Hc') | (j & v & -> & Hj)].
        - destruct (Nat.eq_dec p pos) as [-> | Hne].
          + right. exists i, w. split; [reflexivity | lia].
          + left. split; [lia|]. exists c'. split; auto.
            replace (p - pos) with (S (p - S pos)) in Hget by lia. exact Hget.
        - right. exists i, w. split; [reflexivity|]. rewrite (Hsame j v eq_refl). lia. }
      destruct cur as [[i w]|]; apply Hnext.
      * rewrite length_append_char. repeat split; try lia. intros j v [= -> ->]. auto.
      * simpl. repeat split; try lia. intros j v Hjv. discriminate.
Qed.

Lemma chained_lower runs : forall lo r, chained lo runs -> In r runs -> lo <= fst r.
Proof.
  induction runs as [|r0 runs IH]; intros lo r Hch Hin; simpl in *; [tauto|].
  destruct Hch as [Hlo Hrest]. destruct Hin as [-> | Hin]; auto.
  pose proof (IH _ _ Hrest Hin). lia.
Qed.

Lemma chained_mono runs : forall lo a b,
  chained lo runs -> a <= b < List.length runs ->
  nth a (map fst runs) 0 <= nth b (map fst runs) 0 /\
  nth a (map run_end runs) 0 <= nth b (map run_end runs) 0.
Proof.
  induction runs as [|r0 runs IH]; intros lo a b Hch Hab; simpl in *; [lia|].
  destruct Hch as [Hlo Hrest].
  destruct a as [|a], b as [|b]; try lia.
  - assert (Hin : In (nth b runs (0, "")) runs) by (apply nth_In; lia).
    assert (Hb : fst r0 + String.length (snd r0) <= fst (nth b runs (0, "")))
      by (eapply chained_lower; eauto).
    assert (E1 : nth b (map fst runs) 0 = fst (nth b runs (0, "")))
      by apply (map_nth fst runs (0, "") b).
    assert (E2 : nth b (map run_end runs) 0 = run_end (nth b runs (0, "")))
      by apply (map_nth run_end runs (0, "") b).
    rewrite E1, E2. unfold run_end in *. lia.
  - eapply IH; [exact Hrest | lia].
Qed.

(** The windows of [chunkByTokens] reach every token. *)
Lemma token_windows_cover text docId starts ends maxTokens stride :
  (1 <= stride <= maxTokens)%Z ->
  forall fuel tStart k,
    (0 <= tStart)%Z ->
    (Z.of_nat (List.length starts) - tStart <= Z.of_nat fuel)%Z ->
    (tStart <= Z.of_nat k < Z.of_nat (List.length starts))%Z ->
    exists c a b,
      In c (token_windows fuel text docId starts ends maxTokens stride tStart) /\
      a <= k <= b /\ b < List.length starts /\
      Chunk.charStart c = nth a starts 0 /\
      Chunk.charEnd c = Some (nth b ends 0).
Proof.
  intros Hstride. induction fuel as [|fuel IH]; intros tStart k H0 Hfuel Hk.
  - lia.
  - cbn [token_windows].
    set (n := Z.of_nat (List.length starts)) in *.
    destruct (tStart <? n)%Z eqn:Elt; [|apply Z.ltb_ge in Elt; lia].
    destruct (Z.min (tStart + maxTokens) n =? n)%Z eqn:Eend.
    + apply Z.eqb_eq in Eend.
      eexists. exists (Z.to_nat tStart), (Z.to_nat (n - 1)).
      split; [now left|]. cbn [Chunk.charStart Chunk.charEnd].
      rewrite Eend.
      destruct (0 <=? n - 1)%Z eqn:E1; [|apply Z.leb_gt in E1; lia].
      unfold n in *. repeat split; lia.
    + apply Z.eqb_neq in Eend.
      destruct (Z_lt_le_dec (Z.of_nat k) (tStart + maxTokens)) as [Hin | Hout].
      * eexists. exists (Z.to_nat tStart), (Z.to_nat (Z.min (tStart + maxTokens) n - 1)).
        split; [now left|]. cbn [Chunk.charStart Chunk.charEnd].
        destruct (0 <=? Z.min (tStart + maxTokens) n - 1)%Z eqn:E1;
          [|apply Z.leb_gt in E1; lia].
        unfold n in *. repeat split; lia.
      * destruct (IH (tStart + stride)%Z k) as (c & a & b & Hc & Hrest); try lia.
        exists c, a, b. split; [now right | exact Hrest].
Qed.

Lemma chunkByTokens_covers_nonspace (text docId : string) (maxTokens overlapTokens : Z) :
  (1 <= maxTokens)%Z ->
  forall p, nonspace_at text p -> covered (chunkByTokens text docId maxTokens overlapTokens) p.
Proof.
  intros Hmax p (c & Hget & Hc).
  unfold chunkByTokens, matchAll_nonspace.
  pose proof (@nonspace_runs_chained text 0 None I) as Hch. cbn match in Hch.
  destruct (@nonspace_runs_cover text 0 None p I) as (r & Hin & Hr).
  { left. split; [lia|]. exists c. rewrite Nat.sub_0_r. auto. }
  remember (nonspace_runs_from 0 None text) as runs eqn:Eruns.
  destruct runs as [|r0 runs']; [contradiction|].
  remember (r0 :: runs') as runs. clear Heqruns Eruns r0 runs'.
  destruct (In_nth _ _ (0, "") Hin) as (k & Hk & Hnth).
  destruct (@token_windows_cover text docId (map fst runs)
              (map (fun m => fst m + String.length (snd m)) runs)
              maxTokens (Z.max 1 (maxTokens - Z.max 0 overlapTokens))
              ltac:(lia) (List.length runs) 0%Z k)
    as (ch & a & b & Hch_in & Hab & Hb & Hstart & Hend).
  - lia.
  - rewrite length_map. lia.
  - rewrite length_map. lia.
  - rewrite length_map in Hb.
    destruct (@chained_mono runs 0 a k Hch ltac:(lia)) as [Hs1 _].
    destruct (@chained_mono runs 0 k b Hch ltac:(lia)) as [_ He2].
    assert (E1 : nth k (map fst runs) 0 = fst r).
    { rewrite <- Hnth. apply (map_nth fst runs (0, "") k). }
    assert (E2 : nth k (map run_end runs) 0 = run_end r).
    { rewrite <- Hnth. apply (map_nth run_end runs (0, "") k). }
    exists ch. split; [exact Hch_in|]. unfold covers.
    rewrite Hstart, Hend. split; [lia|].
    eexists. split; [reflexivity|].
    change (map (fun m => fst m + String.length (snd m)) runs) with (map run_end runs).
    unfold run_end in *. lia.
Qed.

Lemma chunkByTokens_25_windows (text docId : string) :
  List.length (matchAll_nonspace text) = 25 ->
  let tokenStarts := map fst (matchAll_nonspace text) in
  let tokenEnds := map (fun m => fst m + String.length (snd m)) (matchAll_nonspace text) in
  let window a b :=
    span_chunk text docId (nth a tokenStarts 0) (Some (nth b tokenEnds 0)) in
  chunkByTokens text docId 10 3 = [window 0 9; window 7 16; window 14 23; window 21 24].
Proof.
  intros Hlen. cbv zeta. unfold chunkByTokens.
  remember (matchAll_nonspace text) as runs eqn:E. clear E.
  destruct runs as [|m ms]; [discriminate|]. cbv iota.
  remember (m :: ms) as runs eqn:E. clear E m ms.
  remember (map fst runs) as tokenStarts eqn:Es.
  remember (map (fun m => fst m + String.length (snd m)) runs) as tokenEnds eqn:Ee.
  assert (Hs : List.length tokenStarts = 25) by (subst tokenStarts; now rewrite length_map).
  clear Es Ee. rewrite Hlen.
  cbn [token_windows]. rewrite !Hs.
  reflexivity.
Qed.
End TokenWindows.


Section TokenScenario.
Context {H : Host}.

Lemma token_in_window (text : string) (a k b : nat) :
  a <= k <= b -> b < List.length (matchAll_nonspace text) ->
  nth a (map fst (matchAll_nonspace text)) 0
    <= nth k (map fst (matchAll_nonspace text)) 0 /\
  nth k (map run_end (matchAll_nonspace text)) 0
    <= nth b (map run_end (matchAll_nonspace text)) 0.
Proof.
  intros Hak Hb.
  pose proof (@nonspace_runs_chained H text 0 None I) as Hch. cbn match in Hch.
  fold (matchAll_nonspace text) in Hch.
  destruct (@chained_mono (matchAll_nonspace text) 0 a k Hch ltac:(lia)) as [Hs _].
  destruct (@chained_mono (matchAll_nonspace text) 0 k b Hch ltac:(lia)) as [_ He].
  auto.
Qed.

(** C4: on a text with exactly 25 white-space delimited tokens,
    [chunkByTokens] with [maxTokens = 10] and [overlapTokens = 3] returns
    exactly four chunks, the windows of tokens 0..9, 7..16, 14..23 and
    21..24 (the last one cut at the last token): each chunk goes from
    the start of its first token to the end of its last token, and every
    one of the 25 tokens lies inside the span of one of them. *)
Theorem chunkByTokens_25_tokens (text docId : string) :
  List.length (matchAll_nonspace text) = 25 ->
  let tokenStarts := map fst (matchAll_nonspace text) in
  let tokenEnds := map run_end (matchAll_nonspace text) in
  let window a b :=
    span_chunk text docId (nth a tokenStarts 0) (Some (nth b tokenEnds 0)) in
  chunkByTokens text docId 10 3 =
    [window 0 9; window 7 16; window 14 23; window 21 24] /\
  (forall k, k < 25 ->
     exists a b, In (a, b) [(0, 9); (7, 16); (14, 23); (21, 24)] /\
                 a <= k <= b /\
                 Chunk.charStart (window a b) <= nth k tokenStarts 0 /\
                 exists e, Chunk.charEnd (window a b) = Some e /\
                           nth k tokenEnds 0 <= e).
Proof.
  intros Hlen tokenStarts tokenEnds window. split.
  - apply (chunkByTokens_25_windows text docId Hlen).
  - intros k Hk.
    assert (Hw : exists a b, In (a, b) [(0, 9); (7, 16); (14, 23); (21, 24)] /\
                             a <= k <= b /\ b < 25).
    { destruct (le_lt_dec k 9); [exists 0, 9; simpl; intuition lia|].
      destruct (le_lt_dec k 16); [exists 7, 16; simpl; intuition lia|].
      destruct (le_lt_dec k 23); [exists 14, 23; simpl; intuition lia|].
      exists 21, 24; simpl; intuition lia. }
    destruct Hw as (a & b & Hin & Hak & Hb).
    exists a, b. split; [exact Hin | split; [exact Hak|]].
    destruct (@token_in_window text a k b Hak ltac:(lia)) as [Hs He].
    split; [exact Hs|]. exists (nth b tokenEnds 0). split; [reflexivity | exact He].
Qed.
End TokenScenario.

Lemma chunkByTokens_25_tokens_witness :
  List.length (@matchAll_nonspace (ascii_host None)
                 "a b c d e f g h i j k l m n o p q r s t u v w x y") = 25 /\
  map Chunk.id (@chunkByTokens (ascii_host None)
                  "a b c d e f g h i j k l m n o p q r s t u v w x y" "doc" 10 3)
  = ["doc:0-19"; "doc:14-33"; "doc:28-47"; "doc:42-49"].
Proof.
  split; [reflexivity|].
  rewrite (proj1 (@chunkByTokens_25_tokens (ascii_host None)
                    "a b c d e f g h i j k l m n o p q r s t u v w x y" "doc"
                    eq_refl)).
  reflexivity.
Defined.

(** ** Where postings come from *)

Section Provenance.
Context {num : Type} {NUM : Number num} {H : Host}.
Import JSMap JSMapFacts.

Lemma addDocument_vocab_cases (idx : BM25Index num) doc t ps' :
  get (vocab (addDocument idx doc)) t = Some ps' ->
  (exists f, get (count_terms (tokenize (text doc))) t = Some f /\
             In t (tokenize (text doc)) /\
             ps' = get_or (vocab idx) t [] ++ [{| docId := id doc; tf := f |}]) \/
  (~ In t (tokenize (text doc)) /\ get (vocab idx) t = Some ps').
Proof.
  intros Hget.
  destruct (in_dec string_dec t (tokenize (text doc))) as [Hin | Hn].
  - left. destruct (addDocument_postings idx doc t Hin) as (f & Hf & Hg).
    exists f. split; [exact Hf | split; [exact Hin|]]. congruence.
  - right. split; [exact Hn|]. rewrite <- Hget. simpl. symmetry.
    apply push_postings_other. intros Hk. apply Hn.
    now apply count_terms_keys.
Qed.





Lemma Forall_set {V : Type} (Q : string * V -> Prop) (m : JSMap.t V) k v :
  Forall Q m -> Q (k, v) -> Forall Q (set k v m).
Proof.
  induction m as [|[k' v'] m IH]; intros Hm Hq; simpl.
  - now constructor.
  - inversion Hm as [|? ? Hh Ht]; subst.
    destruct (String.eqb k' k) eqn:E.
    + apply String.eqb_eq in E. subst k'. now constructor.
    + constructor; auto.
Qed.

Lemma score_postings_ids (idx : BM25Index num) avgdl idf (Q : string -> Prop) ps :
  forall scores,
  Forall (fun e => Q (fst e)) scores -> Forall (fun p => Q (docId p)) ps ->
  Forall (fun e => Q (fst e)) (fold_left (score_posting idx avgdl idf) ps scores).
Proof.
  induction ps as [|p ps IH]; intros scores Hs Hps; simpl; auto.
  inversion Hps as [|? ? Hp Hps']; subst.
  apply IH; auto. unfold score_posting. now apply Forall_set.
Qed.


Lemma search_in_scores (idx : BM25Index num) query topK r :
  In r (search idx query topK) -> In (r_docId r, score r) (search_scores idx query).
Proof.
  unfold search. intros Hin. apply in_map_iff in Hin.
  destruct Hin as ([k v] & <- & Hin). simpl.
  apply slice0_incl in Hin.
  eapply Permutation_in; [apply js_sort_perm | exact Hin].
Qed.
End Provenance.

Section RealScores.
Context {H : Host}.
Import JSMap JSMapFacts.
Local Open Scope R_scope.

Let RN : Number R := real_number.







End RealScores.


(** ** Search results: positive scores, and only for chunks with a query term *)

Section SearchResults.
Variable H : Host.
Variable batches : list (list BM25Doc).
Variable query : string.
Variable topK : Z.



End SearchResults.

(** ** Coverage of the text by the chunks *)

Section Strings.
Lemma length_substring s : forall a n,
  a + n <= String.length s -> String.length (substring a n s) = n.
Proof.
  induction s as [|c s IH]; intros a n Hle; simpl in *.
  - destruct a, n; simpl; lia.
  - destruct a as [|a].
    + destruct n as [|n]; simpl; auto. rewrite IH; lia.
    + apply IH. lia.
Qed.

Lemma get_slice text a b k :
  k < b - a -> String.get k (slice text a b) = String.get (a + k) text.
Proof.
  intros Hk. unfold slice. rewrite substring_correct1 by exact Hk.
  f_equal. lia.
Qed.

Lemma get_in_range s p c : String.get p s = Some c -> p < String.length s.
Proof.
  revert p. induction s as [|c0 s IH]; intros p Hget; simpl in *; [discriminate|].
  destruct p as [|p]; [lia|]. apply IH in Hget. lia.
Qed.

Lemma nonempty_append_l a c : nonempty a = true -> nonempty (String.append a c) = true.
Proof. destruct a; simpl; [discriminate | reflexivity]. Qed.

Lemma nonempty_append_r a c : nonempty c = true -> nonempty (String.append a c) = true.
Proof. intros Hc. destruct a; simpl; auto. Qed.

Lemma nonempty_length s : 0 < String.length s -> nonempty s = true.
Proof. destruct s; simpl; auto; lia. Qed.
End Strings.

Section Trim.
Context {H : Host}.

Lemma trim_end_nonempty c s : isSpace c = false -> nonempty (trim_end (String c s)) = true.
Proof. intros Hc. simpl. rewrite Hc. reflexivity. Qed.

Lemma trim_start_nonspace s : forall k c,
  String.get k s = Some c -> isSpace c = false ->
  exists c' s', trim_start s = String c' s' /\ isSpace c' = false.
Proof.
  induction s as [|c0 s IH]; intros k c Hget Hc; simpl in *; [discriminate|].
  destruct (isSpace c0) eqn:E0.
  - destruct k as [|k]; [congruence|]. eapply IH; eauto.
  - eauto.
Qed.

Lemma trim_nonblank s k c :
  String.get k s = Some c -> isSpace c = false -> (0 <? String.length (trim s))%nat = true.
Proof.
  intros Hget Hc. unfold trim.
  destruct (@trim_start_nonspace s k c Hget Hc) as (c' & s' & -> & Hc').
  pose proof (@trim_end_nonempty c' s' Hc') as Hne.
  destruct (trim_end (String c' s')); [discriminate | reflexivity].
Qed.
End Trim.

Section Paragraphs.
Context {H : Host}.
Variable text : string.

Lemma separated_weaken ms : forall lo lo',
  lo' <= lo -> separated text lo ms -> separated text lo' ms.
Proof.
  destruct ms as [|m ms]; simpl; auto.
  intros lo lo' Hle (H1 & H2). split; [lia | exact H2].
Qed.

Lemma newline_runs_separated s : forall pos run,
  (forall k, String.get k s = String.get (pos + k) text) ->
  run <= pos ->
  (forall q, pos - run <= q < pos -> String.get q text = Some newline) ->
  pos + String.length s = String.length text ->
  separated text (pos - run) (newline_runs_from pos run s).
Proof.
  induction s as [|c s IH]; intros pos run Hsuf Hrun Hnl Hlen; simpl in *.
  - unfold close_run. destruct (2 <=? run)%nat; simpl; auto.
    repeat split; try lia. intros q Hq. apply Hnl. lia.
  - assert (Hsuf' : forall k, String.get k s = String.get (S pos + k) text).
    { intros k. specialize (Hsuf (S k)). simpl in Hsuf.
      rewrite Hsuf. f_equal. lia. }
    destruct (Ascii.eqb c newline) eqn:Ec.
    + apply Ascii.eqb_eq in Ec. subst c.
      replace (pos - run) with (S pos - S run) by lia.
      apply IH; auto; try lia.
      intros q Hq. destruct (Nat.eq_dec q pos) as [-> | Hne].
      * specialize (Hsuf 0). simpl in Hsuf. rewrite Nat.add_0_r in Hsuf. now rewrite <- Hsuf.
      * apply Hnl. lia.
    + assert (Hrest : separated text (S pos) (newline_runs_from (S pos) 0 s)).
      { replace (S pos) with (S pos - 0) at 1 by lia.
        apply IH; auto; try lia. }
      unfold close_run. destruct (2 <=? run)%nat; simpl.
      * repeat split; try lia.
        -- intros q Hq. apply Hnl. lia.
        -- apply separated_weaken with (lo := S pos); [lia | exact Hrest].
      * apply separated_weaken with (lo := S pos); [lia | exact Hrest].
Qed.

Lemma parts_chain_weaken parts : forall lo lo',
  lo' <= lo -> parts_chain text lo parts -> parts_chain text lo' parts.
Proof.
  destruct parts as [|part parts]; simpl; auto.
  intros lo lo' Hle (H1 & H2). split; [lia | exact H2].
Qed.

Lemma paragraph_parts_chain ms : forall idx,
  separated text idx ms -> idx <= String.length text ->
  parts_chain text idx (paragraph_parts text idx ms).
Proof.
  induction ms as [|[i l] ms IH]; intros idx Hsep Hidx; simpl in *.
  - destruct (idx <=? String.length text)%nat eqn:E; simpl; auto.
  - destruct Hsep as (H1 & H2 & H3 & H4).
    assert (Hparts : parts_chain text (i + l) (paragraph_parts text (i + l) ms))
      by (apply IH; [exact H4 | lia]).
    split; [lia | split; [lia | split; [lia | split; [reflexivity|]]]].
    apply parts_chain_weaken with (lo := i + l); [lia | exact Hparts].
Qed.

Lemma paragraph_parts_cover ms : forall idx p,
  separated text idx ms -> idx <= p < String.length text ->
  String.get p text <> Some newline ->
  exists part, In part (paragraph_parts text idx ms) /\ p_start part <= p < p_end part.
Proof.
  induction ms as [|[i l] ms IH]; intros idx p Hsep Hp Hnl; simpl in *.
  - destruct (idx <=? String.length text)%nat eqn:E; [|apply Nat.leb_gt in E; lia].
    eexists. split; [now left|]. simpl. lia.
  - destruct Hsep as (H1 & H2 & H3 & H4).
    destruct (lt_dec p i) as [Hlt | Hge].
    + eexists. split; [now left|]. simpl. lia.
    + destruct (lt_dec p (i + l)) as [Hin | Hout].
      * exfalso. apply Hnl, H3. lia.
      * destruct (IH (i + l) p H4) as (part & Hpart & Hr); auto; try lia.
        exists part. split; [now right | exact Hr].
Qed.

Lemma parts_chain_filter (f : Part -> bool) parts : forall lo,
  parts_chain text lo parts -> parts_chain text lo (filter f parts).
Proof.
  induction parts as [|part parts IH]; intros lo Hch; simpl in *; auto.
  destruct Hch as (H1 & H2 & H3 & H4 & H5).
  destruct (f part); simpl.
  - repeat split; auto.
  - apply parts_chain_weaken with (lo := p_end part); [lia | auto].
Qed.

Lemma splitParagraphs_chain : parts_chain text 0 (splitParagraphs text).
Proof.
  unfold splitParagraphs. apply parts_chain_filter.
  apply paragraph_parts_chain; [|lia].
  replace 0 with (0 - 0) at 1 by lia.
  apply newline_runs_separated; auto; try lia.
Qed.

Hypothesis newline_is_space : isSpace newline = true.

Lemma splitParagraphs_cover p :
  nonspace_at text p ->
  exists part, In part (splitParagraphs text) /\ p_start part <= p < p_end part.
Proof.
  intros (c & Hget & Hc).
  assert (Hlen : p < String.length text) by (eapply get_in_range; eauto).
  assert (Hsep : separated text 0 (newline_runs_from 0 0 text)).
  { replace 0 with (0 - 0) at 1 by lia.
    apply newline_runs_separated; auto; try lia. }
  destruct (@paragraph_parts_cover (newline_runs_from 0 0 text) 0 p Hsep) as (part & Hin & Hr).
  - lia.
  - rewrite Hget. intros [= ->]. congruence.
  - exists part. split; [|exact Hr].
    unfold splitParagraphs. apply filter_In. split; [exact Hin|].
    pose proof (paragraph_parts_chain _ Hsep ltac:(lia)) as Hch.
    assert (Htext : p_text part = slice text (p_start part) (p_end part)).
    { clear - Hch Hin. revert Hch Hin.
      generalize (paragraph_parts text 0 (newline_runs_from 0 0 text)) as parts.
      generalize 0 as lo.
      intros lo parts. revert lo.
      induction parts as [|q parts IH]; intros lo Hch Hin; simpl in *; [tauto|].
      destruct Hch as (A & B & C & D & E). destruct Hin as [-> | Hin]; eauto. }
    apply (@trim_nonblank H (p_text part) (p - p_start part) c); auto.
    rewrite Htext, get_slice by lia. rewrite <- Hget. f_equal. lia.
Qed.
End Paragraphs.

Section Packing.
Context {H : Host}.
Variable docId : string.
Variable targetChars sentenceOverlap : Z.

Lemma push_acc_covers st p :
  pending_or_covered st p -> nonempty (accText st) = true \/ covered (chunks st) p ->
  covered (push_acc docId st) p.
Proof.
  intros [(c & Hin & Hc) | (Hne & Hr)] _.
  - exists c. split; [|exact Hc]. unfold push_acc. apply in_or_app. now left.
  - eexists. split; [unfold push_acc; apply in_or_app; right; now left|].
    unfold covers. simpl. split; [lia|]. eexists. split; [reflexivity | lia].
Qed.

Lemma push_acc_keeps st p : pending_or_covered st p -> covered (push_acc docId st) p.
Proof.
  intros Hp. apply push_acc_covers; auto.
  destruct Hp as [Hc | [Hne _]]; auto.
Qed.

Lemma glue_nonempty_l a s : nonempty a = true -> nonempty (glue a s) = true.
Proof.
  intros Ha. unfold glue. rewrite Ha.
  apply nonempty_append_l, nonempty_append_l, Ha.
Qed.

Lemma glue_nonempty_r a s : nonempty s = true -> nonempty (glue a s) = true.
Proof. intros Hs. unfold glue. now apply nonempty_append_r. Qed.

Lemma flushOrAccumulate_step st unit s e :
  lastEnd st <= s -> s <= e -> packer_ok st ->
  let st' := flushOrAccumulate docId targetChars st unit s e in
  packer_ok st' /\ lastEnd st' = e /\
  (forall p, pending_or_covered st p -> pending_or_covered st' p) /\
  (forall p, s <= p < e -> nonempty unit = true -> pending_or_covered st' p).
Proof.
  intros Hle Hse Hok st'. unfold st', flushOrAccumulate.
  destruct ((targetChars <=? Z.of_nat (String.length (String.append (accText st) unit)))%Z
            && nonempty (accText st)) eqn:Eflush.
  - apply andb_prop in Eflush. destruct Eflush as [_ Hne].
    unfold packer_ok, pending_or_covered; simpl.
    split; [intros _; exact Hse | split; [reflexivity | split]].
    + intros p Hp. left. now apply push_acc_keeps.
    + intros p Hp Hu. right. split; [exact Hu | lia].
  - unfold packer_ok, pending_or_covered; simpl.
    split; [|split; [reflexivity | split]].
    + intros _. destruct (nonempty (accText st)) eqn:Ea; [|exact Hse].
      specialize (Hok Ea). lia.
    + intros p [Hc | (Hne & Hr)]; [now left|]. right.
      rewrite Hne. split; [now apply nonempty_append_l|].
      specialize (Hok Hne). lia.
    + intros p Hp Hu. right. split.
      * apply nonempty_append_r, nonempty_append_r, Hu.
      * destruct (nonempty (accText st)) eqn:Ea; [|lia].
        specialize (Hok Ea). lia.
Qed.

Lemma pack_sentence_step st queue pStart (s : string * nat) :
  lastEnd st <= pStart + snd s -> packer_ok st ->
  let st' := fst (pack_sentence docId targetChars sentenceOverlap pStart (st, queue) s) in
  packer_ok st' /\ lastEnd st' = pStart + snd s + String.length (fst s) /\
  (forall p, pending_or_covered st p -> pending_or_covered st' p) /\
  (forall p, pStart + snd s <= p < pStart + snd s + String.length (fst s) ->
             pending_or_covered st' p).
Proof.
  intros Hle Hok st'. unfold st', pack_sentence. cbn [fst snd].
  assert (Hseg : forall p, pStart + snd s <= p < pStart + snd s + String.length (fst s) ->
                           nonempty (fst s) = true).
  { intros p Hp. apply nonempty_length. lia. }
  destruct ((targetChars <=? Z.of_nat (String.length (glue (accText st) (fst s))))%Z
            && nonempty (accText st)) eqn:Eflush.
  - apply andb_prop in Eflush. destruct Eflush as [_ Hne].
    unfold packer_ok, pending_or_covered; cbn [chunks accText accStart lastEnd].
    split; [|split; [reflexivity | split]].
    + intros _. destruct (nonempty (join_space (slice_last sentenceOverlap queue))); lia.
    + intros p Hp. left. now apply push_acc_keeps.
    + intros p Hp. right. split; [apply glue_nonempty_r; eauto|].
      destruct (nonempty (join_space (slice_last sentenceOverlap queue))); lia.
  - unfold packer_ok, pending_or_covered; cbn [chunks accText accStart lastEnd].
    split; [|split; [reflexivity | split]].
    + intros _. destruct (nonempty (accText st)) eqn:Ea; [|lia].
      specialize (Hok Ea). lia.
    + intros p [Hc | (Hne & Hr)]; [now left|]. right.
      rewrite Hne. split; [now apply glue_nonempty_l|].
      specialize (Hok Hne). lia.
    + intros p Hp. right. split; [apply glue_nonempty_r; eauto|].
      destruct (nonempty (accText st)) eqn:Ea; [|lia].
      specialize (Hok Ea). lia.
Qed.

Lemma pack_sentences_steps pStart segs : forall from to st queue,
  contiguous from segs to ->
  lastEnd st <= pStart + from -> packer_ok st ->
  let st' := fst (fold_left (pack_sentence docId targetChars sentenceOverlap pStart)
                            segs (st, queue)) in
  packer_ok st' /\ lastEnd st' <= pStart + to /\
  (forall p, pending_or_covered st p -> pending_or_covered st' p) /\
  (forall p, pStart + from <= p < pStart + to -> pending_or_covered st' p).
Proof.
  induction segs as [|s segs IH]; intros from to st queue Hcont Hle Hok; simpl in *.
  - subst to. repeat split; auto. intros p Hp. lia.
  - destruct Hcont as [Hidx Hcont].
    destruct (@pack_sentence_step st queue pStart s) as (Hok1 & Hend1 & Hkeep1 & Hnew1);
      auto; [lia|].
    remember (pack_sentence docId targetChars sentenceOverlap pStart (st, queue) s) as r.
    destruct r as [st1 queue1]. cbn [fst] in *.
    destruct (IH _ _ st1 queue1 Hcont) as (Hok2 & Hend2 & Hkeep2 & Hnew2); auto; [lia|].
    split; [exact Hok2 | split; [exact Hend2 | split]].
    + intros p Hp. apply Hkeep2, Hkeep1, Hp.
    + intros p Hp.
      destruct (lt_dec p (pStart + from + String.length (fst s))) as [Hlt | Hge].
      * apply Hkeep2, Hnew1. lia.
      * apply Hnew2. lia.
Qed.

Hypothesis segmenter_ok : segmenter_partitions H.

Lemma pack_paragraph_step (text : string) st part :
  p_start part <= p_end part -> p_end part <= String.length text ->
  p_text part = slice text (p_start part) (p_end part) ->
  lastEnd st <= p_start part -> packer_ok st ->
  let st' := pack_paragraph docId targetChars sentenceOverlap st part in
  packer_ok st' /\ lastEnd st' <= p_end part /\
  (forall p, pending_or_covered st p -> pending_or_covered st' p) /\
  (forall p, p_start part <= p < p_end part -> pending_or_covered st' p).
Proof.
  intros Hse Hend Htext Hle Hok st'.
  assert (Hlen : String.length (p_text part) = p_end part - p_start part).
  { rewrite Htext. unfold slice. apply length_substring. lia. }
  unfold st', pack_paragraph. unfold segmenter_partitions in segmenter_ok.
  destruct Segmenter as [seg|].
  - destruct (@pack_sentences_steps (p_start part) (seg (p_text part)) 0
                (String.length (p_text part)) st [])
      as (Hok1 & Hend1 & Hkeep1 & Hnew1); auto; [lia|].
    set (st1 := fst (fold_left (pack_sentence docId targetChars sentenceOverlap (p_start part))
                               (seg (p_text part)) (st, []))) in *.
    assert (Hnew : forall p, p_start part <= p < p_end part -> pending_or_covered st1 p).
    { intros p Hp. apply Hnew1. lia. }
    destruct (targetChars <=? Z.of_nat (String.length (accText st1)))%Z.
    + unfold packer_ok, pending_or_covered; cbn [chunks accText accStart lastEnd].
      split; [discriminate | split; [lia | split]].
      * intros p Hp. left. apply push_acc_keeps, Hkeep1, Hp.
      * intros p Hp. left. apply push_acc_keeps, Hnew, Hp.
    + split; [exact Hok1 | split; [lia | split; auto]].
  - destruct (@flushOrAccumulate_step st (p_text part) (p_start part) (p_end part))
      as (Hok1 & Hend1 & Hkeep1 & Hnew1); auto.
    split; [exact Hok1 | split; [lia | split; [exact Hkeep1|]]].
    intros p Hp. apply Hnew1; [exact Hp|]. apply nonempty_length. lia.
Qed.

Lemma pack_paragraphs_steps (text : string) parts : forall lo st,
  parts_chain text lo parts -> lastEnd st <= lo -> packer_ok st ->
  let st' := fold_left (pack_paragraph docId targetChars sentenceOverlap) parts st in
  (forall p, pending_or_covered st p -> pending_or_covered st' p) /\
  (forall part p, In part parts -> p_start part <= p < p_end part ->
                  pending_or_covered st' p).
Proof.
  induction parts as [|part parts IH]; intros lo st Hch Hle Hok; simpl in *.
  - split; auto. intros part p [].
  - destruct Hch as (H1 & H2 & H3 & H4 & H5).
    destruct (@pack_paragraph_step text st part) as (Hok1 & Hend1 & Hkeep1 & Hnew1);
      auto; [lia|].
    destruct (IH (p_end part) (pack_paragraph docId targetChars sentenceOverlap st part))
      as (Hkeep2 & Hnew2); auto.
    split.
    + intros p Hp. apply Hkeep2, Hkeep1, Hp.
    + intros q p [<- | Hin] Hp.
      * apply Hkeep2, Hnew1, Hp.
      * apply (Hnew2 q p Hin Hp).
Qed.

Hypothesis newline_is_space : isSpace newline = true.

Lemma chunkBySentencesParagraphs_covers_nonspace (text : string) p :
  nonspace_at text p ->
  covered (chunkBySentencesParagraphs text docId targetChars sentenceOverlap) p.
Proof.
  intros Hp.
  destruct (@splitParagraphs_cover H text newline_is_space p Hp) as (part & Hin & Hr).
  unfold chunkBySentencesParagraphs.
  set (st0 := {| chunks := []; accText := ""; accStart := 0; lastEnd := 0 |}).
  destruct (@pack_paragraphs_steps text (splitParagraphs text) 0 st0) as (_ & Hnew).
  - apply splitParagraphs_chain.
  - simpl. lia.
  - unfold packer_ok. simpl. discriminate.
  - specialize (Hnew part p Hin Hr).
    set (st := fold_left (pack_paragraph docId targetChars sentenceOverlap)
                         (splitParagraphs text) st0) in *.
    destruct (nonempty (accText st)) eqn:Ea.
    + now apply push_acc_keeps.
    + destruct Hnew as [Hc | [Hne _]]; [exact Hc | congruence].
Qed.
End Packing.

Lemma full_stop_segments_contiguous s : forall pos start cur,
  start + String.length cur = pos ->
  contiguous start (full_stop_segments pos start cur s) (pos + String.length s).
Proof.
  induction s as [|c s IH]; intros pos start cur Hcur; simpl.
  - destruct cur; simpl in *; [lia | split; [reflexivity | lia]].
  - destruct (Ascii.eqb c "."%char); simpl.
    + split; [reflexivity|]. rewrite length_append_char.
      replace (start + S (String.length cur)) with (S pos) by lia.
      replace (pos + S (String.length s)) with (S pos + String.length s) by lia.
      apply IH. simpl. lia.
    + replace (pos + S (String.length s)) with (S pos + String.length s) by lia.
      apply IH. rewrite length_append_char. lia.
Qed.

Lemma full_stop_host_partitions :
  segmenter_partitions (ascii_host (Some full_stop_segmenter)).
Proof.
  unfold segmenter_partitions. simpl. intros s.
  apply (@full_stop_segments_contiguous s 0 0 EmptyString eq_refl).
Qed.

(** C2 (as amended): every position of the text that holds a code unit
    other than white space lies inside the span [[charStart, charEnd)]
    of a chunk of [chunkByTokens] (for [maxTokens >= 1] and any
    [overlapTokens]) and of a chunk of [chunkBySentencesParagraphs] (for
    any [targetChars] and [sentenceOverlap], with or without a
    segmenter).  The engine is assumed to count the newline as white
    space and to segment a string into consecutive sentences. *)
Theorem chunks_cover_nonspace (H : Host) (text docId : string) (p : nat) :
  isSpace newline = true -> segmenter_partitions H -> nonspace_at text p ->
  (forall maxTokens overlapTokens, (1 <= maxTokens)%Z ->
     covered (chunkByTokens text docId maxTokens overlapTokens) p) /\
  (forall targetChars sentenceOverlap,
     covered (chunkBySentencesParagraphs text docId targetChars sentenceOverlap) p).
Proof.
  intros Hnl Hseg Hp. split.
  - intros maxTokens overlapTokens Hmax.
    now apply chunkByTokens_covers_nonspace.
  - intros targetChars sentenceOverlap.
    now apply chunkBySentencesParagraphs_covers_nonspace.
Qed.

Lemma chunks_cover_nonspace_witness :
  @isSpace (ascii_host (Some full_stop_segmenter)) newline = true /\
  segmenter_partitions (ascii_host (Some full_stop_segmenter)) /\
  @nonspace_at (ascii_host (Some full_stop_segmenter)) " a. b" 4 /\
  covered (@chunkByTokens (ascii_host (Some full_stop_segmenter)) " a. b" "doc" 1 0) 4 /\
  covered (@chunkBySentencesParagraphs (ascii_host (Some full_stop_segmenter))
             " a. b" "doc" 2 0) 4.
Proof.
  assert (Hp : @nonspace_at (ascii_host (Some full_stop_segmenter)) " a. b" 4).
  { exists "b"%char. split; reflexivity. }
  split; [reflexivity | split; [apply full_stop_host_partitions | split; [exact Hp|]]].
  destruct (@chunks_cover_nonspace (ascii_host (Some full_stop_segmenter)) " a. b" "doc" 4
              eq_refl full_stop_host_partitions Hp) as [Htok Hsent].
  split; [apply Htok; lia | apply Hsent].
Defined.

(** C2, as stated, fails on white space outside the tokens: in " a" the
    only chunk of [chunkByTokens] is the token at [[1, 2)], and position
    0 lies in no chunk. *)
Lemma chunkByTokens_skips_leading_space :
  0 < String.length " a" /\
  @chunkByTokens (ascii_host None) " a" "doc" 10 0 = [span_chunk " a" "doc" 1 (Some 2)] /\
  ~ covered (@chunkByTokens (ascii_host None) " a" "doc" 10 0) 0.
Proof.
  split; [simpl; lia | split; [reflexivity|]].
  intros (c & Hin & Hstart & _).
  destruct Hin as [<- | []]. simpl in Hstart. lia.
Qed.

(** [chunkRecursive] takes the offsets of the paragraphs of a section
    relative to the section, not to the document: on the heading example
    the second and third section give the ids "doc:0-23" and "doc:0-17",
    and the position 32 of the document, which holds the "h" of the last
    heading, lies in no chunk. *)
Example chunkRecursive_section_offsets :
  map Chunk.id (@chunkRecursive (ascii_host None) headed_text "doc" 800)
    = ["doc:0-6"; "doc:0-23"; "doc:0-17"] /\
  String.get 32 headed_text = Some "h"%char /\
  ~ covered (@chunkRecursive (ascii_host None) headed_text "doc" 800) 32.
Proof.
  split; [reflexivity | split; [reflexivity|]].
  intros (c & Hin & _ & e & He & Hlt).
  vm_compute in Hin.
  destruct Hin as [<- | [<- | [<- | []]]]; simpl in He; injection He as <-; lia.
Qed.

(** ** The tokens of [tokenize] *)

Section TokenFacts.
Context {H : Host}.

Lemma list_ascii_append a c :
  list_ascii_of_string (String.append a c) =
  list_ascii_of_string a ++ list_ascii_of_string c.
Proof. induction a as [|x a IH]; simpl; [reflexivity | now rewrite IH]. Qed.

Lemma split_spaces_units (Q : ascii -> Prop) s : forall cur in_sep,
  Forall Q (list_ascii_of_string cur) ->
  Forall (fun c => isSpace c = true \/ Q c) (list_ascii_of_string s) ->
  Forall (fun t => Forall Q (list_ascii_of_string t)) (split_spaces_from cur in_sep s).
Proof.
  induction s as [|c s IH]; intros cur in_sep Hcur Hs; simpl.
  - constructor; [exact Hcur | constructor].
  - simpl in Hs. inversion Hs as [|? ? Hc Hs']; subst.
    destruct (isSpace c) eqn:Ec.
    + destruct in_sep.
      * apply IH; assumption.
      * constructor; [exact Hcur|]. apply IH; [constructor | assumption].
    + apply IH; [|assumption].
      rewrite list_ascii_append. apply Forall_app. split; [exact Hcur|].
      simpl. constructor; [|constructor].
      destruct Hc as [Hc|Hc]; [congruence | exact Hc].
Qed.

Lemma replace_other_units s :
  isSpace " "%char = true ->
  Forall (fun c => isSpace c = true \/
                   (isLetterOrNumber c = true /\ isSpace c = false))
         (list_ascii_of_string (replace_other s)).
Proof.
  intros Hsp. induction s as [|c s IH]; simpl; constructor; [|exact IH].
  destruct (isLetterOrNumber c) eqn:El, (isSpace c) eqn:Es; simpl; rewrite ?Es; auto.
Qed.

(** X1: every token that [tokenize] returns, whatever the options, is
    a non-empty string of letters and digits without white space; and
    unless [removeStopwords] is [false], no token is a stop word.  The
    engine's [\s] is assumed to hold the space character, which the
    replacement writes. *)
Theorem tokenize_tokens_clean (text : string) (options : TokenizerOptions) :
  isSpace " "%char = true ->
  Forall (fun t => nonempty t = true /\ word_units t) (tokenize_with text options) /\
  (removeStopwords options <> Some false ->
   Forall (fun t => stopword t = false) (tokenize_with text options)).
Proof.
  intros Hsp.
  assert (Hall : forall s,
    Forall (fun t => nonempty t = true /\ word_units t)
           (filter nonempty (split_spaces (replace_other s)))).
  { intros s. apply Forall_forall. intros t Ht. apply filter_In in Ht.
    destruct Ht as [Ht Hne]. split; [exact Hne|].
    pose proof (@split_spaces_units
                  (fun c => isLetterOrNumber c = true /\ isSpace c = false)
                  (replace_other s) EmptyString false (Forall_nil _)
                  (replace_other_units s Hsp)) as Hu.
    rewrite Forall_forall in Hu. exact (Hu t Ht). }
  unfold tokenize_with. split.
  - destruct (negb _).
    + apply Hall.
    + apply Forall_forall. intros t Ht. apply filter_In in Ht. destruct Ht as [Ht _].
      revert t Ht. apply Forall_forall. apply Hall.
  - intros Hrm. destruct (removeStopwords options) as [[|]|]; try congruence; simpl;
      apply Forall_forall; intros t Ht; apply filter_In in Ht;
      destruct Ht as [_ Ht]; now apply negb_true_iff in Ht.
Qed.
End TokenFacts.

Lemma tokenize_tokens_clean_witness :
  @isSpace (ascii_host None) " "%char = true /\
  Forall (fun t => nonempty t = true /\ @word_units (ascii_host None) t)
         (@tokenize_with (ascii_host None) "The cat's 2 hats!" no_options).
Proof.
  split; [reflexivity|].
  apply (@tokenize_tokens_clean (ascii_host None) "The cat's 2 hats!" no_options).
  reflexivity.
Defined.

(** ** Term counts, document lengths and batches of the BM25 index *)

Section IndexFacts.
Context {num : Type} {NUM : Number num} {H : Host}.
Import JSMap JSMapFacts.

Lemma count_terms_from_get tokens : forall (acc : JSMap.t num) t,
  get (fold_left (fun tfMap t => set t (nadd (get_or tfMap t n0) n1) tfMap) tokens acc) t =
  match count_occ string_dec tokens t with
  | O => get acc t
  | S k => Some (Nat.iter (S k) (fun x => nadd x n1) (get_or acc t n0))
  end.
Proof.
  induction tokens as [|a rest IH]; intros acc t; [reflexivity|].
  cbn [fold_left count_occ]. rewrite IH.
  destruct (string_dec a t) as [->|Hne].
  - assert (Hg : get_or (set t (nadd (get_or acc t n0) n1) acc) t n0 =
                 nadd (get_or acc t n0) n1).
    { unfold get_or at 1. now rewrite get_set_same. }
    rewrite Hg, get_set_same.
    destruct (count_occ string_dec rest t) as [|k].
    + reflexivity.
    + rewrite (Nat.iter_succ_r (S k)). reflexivity.
  - assert (Hg : get_or (set a (nadd (get_or acc a n0) n1) acc) t n0 = get_or acc t n0).
    { unfold get_or at 1 3. now rewrite (get_set_other _ _ Hne). }
    rewrite Hg, (get_set_other _ _ Hne). reflexivity.
Qed.

Lemma count_terms_get (tokens : list string) (t : string) :
  get (count_terms tokens) t =
    match count_occ string_dec tokens t with
    | O => None
    | S k => Some (counted_up (S k))
    end.
Proof. unfold count_terms. rewrite count_terms_from_get. reflexivity. Qed.

(** X2: the term-frequency map of a document holds, for each of its
    terms, the count of the term's occurrences among the tokens,
    reached by adding 1 that many times from 0, and nothing for other
    terms; the posting that [addDocuments] appends for the term
    carries that count.  In exact arithmetic the count is the number
    of occurrences itself. *)
Theorem count_terms_counts_occurrences (tokens : list string) (t : string) :
  get (count_terms tokens) t =
    match count_occ string_dec tokens t with
    | O => None
    | S k => Some (counted_up (S k))
    end /\
  (forall (idx : BM25Index num) (doc : BM25Doc),
     In t (tokenize (text doc)) ->
     get (vocab (addDocuments idx [doc])) t =
     Some (get_or (vocab idx) t []
             ++ [{| docId := id doc;
                    tf := counted_up (count_occ string_dec (tokenize (text doc)) t) |}])) /\
  (forall k, @counted_up R real_number k = INR k).
Proof.
  pose proof (fun toks => count_terms_get toks t) as Hget.
  split; [apply Hget|]. split.
  - intros idx doc Hin.
    destruct (@addDocument_postings num NUM H idx doc t Hin) as [f [Hf Hv]].
    cbn [addDocuments fold_left]. rewrite Hv. rewrite Hget in Hf.
    apply (count_occ_In string_dec) in Hin.
    destruct (count_occ string_dec (tokenize (text doc)) t) as [|k]; [lia|].
    injection Hf as <-. reflexivity.
  - induction k as [|k IH]; [reflexivity|].
    change (@counted_up R real_number (S k))
      with (@counted_up R real_number k + 1)%R.
    rewrite IH, S_INR. reflexivity.
Qed.

Lemma addDocuments_app (idx : BM25Index num) (docs more : list BM25Doc) :
  addDocuments idx (docs ++ more) = addDocuments (addDocuments idx docs) more.
Proof. apply fold_left_app. Qed.

Lemma addDocuments_docLengths_other docs : forall (idx : BM25Index num) x,
  ~ In x (map id docs) ->
  get (docLengths (addDocuments idx docs)) x = get (docLengths idx) x.
Proof.
  induction docs as [|d docs IH]; intros idx x Hx; [reflexivity|].
  cbn [addDocuments fold_left]. fold (addDocuments (addDocument idx d) docs).
  rewrite IH by (intros Hin; apply Hx; right; exact Hin).
  cbn [addDocument docLengths]. apply get_set_other.
  intros Heq. apply Hx. left. exact Heq.
Qed.

(** X3: after [addDocuments], the recorded length of a document id is
    the token count of the last document added under that id, and the
    ids that were not added keep the length they had. *)
Theorem addDocuments_docLengths (idx : BM25Index num)
        (before after : list BM25Doc) (d : BM25Doc) :
  ~ In (id d) (map id after) ->
  get (docLengths (addDocuments idx (before ++ d :: after))) (id d) =
    Some (of_nat (List.length (tokenize (text d)))) /\
  (forall x, ~ In x (map id (before ++ d :: after)) ->
     get (docLengths (addDocuments idx (before ++ d :: after))) x =
     get (docLengths idx) x).
Proof.
  intros Hlast. split.
  - rewrite addDocuments_app. cbn [addDocuments fold_left].
    fold (addDocuments (addDocument (addDocuments idx before) d) after).
    rewrite (addDocuments_docLengths_other _ _ _ Hlast).
    cbn [addDocument docLengths]. apply get_set_same.
  - intros x Hx. apply addDocuments_docLengths_other. exact Hx.
Qed.

(** Adding documents in several calls builds the same index as
    adding them in one call, in the same order; and no call changes
    the parameters [k1] and [b]. *)
Lemma addDocuments_in_batches (idx : BM25Index num) (batches : list (list BM25Doc)) :
  fold_left addDocuments batches idx = addDocuments idx (List.concat batches) /\
  (forall docs more,
     addDocuments (addDocuments idx docs) more = addDocuments idx (docs ++ more)) /\
  (forall docs, k1 (addDocuments idx docs) = k1 idx /\ b (addDocuments idx docs) = b idx).
Proof.
  split; [|split].
  - revert idx. induction batches as [|docs batches IH]; intros idx; [reflexivity|].
    cbn [fold_left List.concat]. rewrite IH. symmetry. apply addDocuments_app.
  - intros docs more. symmetry. apply addDocuments_app.
  - intros docs. revert idx. induction docs as [|d docs IH]; intros idx; [auto|].
    cbn [addDocuments fold_left]. fold (addDocuments (addDocument idx d) docs).
    destruct (IH (addDocument idx d)) as [-> ->]. auto.
Qed.

Lemma score_terms_unknown (idx : BM25Index num) N avgdl ts : forall scores,
  Forall (fun t => get (vocab idx) t = None) ts ->
  fold_left (score_term idx N avgdl) ts scores = scores.
Proof.
  induction ts as [|t ts IH]; intros scores Hts; [reflexivity|].
  inversion Hts as [|? ? Ht Hts']; subst.
  cbn [fold_left]. unfold score_term at 2. rewrite Ht. apply IH. exact Hts'.
Qed.

(** X7: a query none of whose tokens is a term of the index (an empty
    query, a query of stop words, unknown words) has an empty score
    map and no results, whatever the index holds. *)
Theorem search_unknown_terms (idx : BM25Index num) (query : string) (topK : Z) :
  Forall (fun t => get (vocab idx) t = None) (tokenize query) ->
  search_scores idx query = JSMap.empty /\ search idx query topK = [].
Proof.
  intros Hq.
  assert (Hs : search_scores idx query = JSMap.empty).
  { unfold search_scores. apply score_terms_unknown. exact Hq. }
  split; [exact Hs|]. unfold search. rewrite Hs.
  unfold slice0. cbn [entries JSMap.empty js_sort List.length].
  destruct (topK <? 0)%Z; rewrite firstn_nil; reflexivity.
Qed.

Lemma length_slice0 {A : Type} (k : Z) (l : list A) :
  (0 <= k)%Z -> (Z.of_nat (List.length (slice0 k l)) <= k)%Z /\
                List.length (slice0 k l) <= List.length l.
Proof.
  intros Hk. unfold slice0. destruct (Z.ltb_spec k 0); [lia|].
  rewrite length_firstn. lia.
Qed.

(** X5: for a non-negative [topK], [search] returns at most [topK]
    results and never more than there are scored documents; the
    results have distinct ids, and each carries the score that the
    score map holds for its id. *)
Theorem search_at_most_topK (idx : BM25Index num) (query : string) (topK : Z) :
  (0 <= topK)%Z ->
  (Z.of_nat (List.length (search idx query topK)) <= topK)%Z /\
  List.length (search idx query topK) <= List.length (search_scores idx query) /\
  NoDup (map (@r_docId num) (search idx query topK)) /\
  Forall (fun r => get (search_scores idx query) (r_docId r) = Some (score r))
         (search idx query topK).
Proof.
  intros Hk. split; [|split; [|split]].
  - unfold search. rewrite length_map. apply length_slice0. exact Hk.
  - unfold search. rewrite length_map.
    destruct (@length_slice0 _ topK
                (js_sort by_score_desc (entries (search_scores idx query))) Hk) as [_ Hl].
    rewrite (Permutation_length (js_sort_perm _ _)) in Hl. exact Hl.
  - apply search_ids_distinct.
  - apply Forall_forall. intros r Hr. apply search_in_scores in Hr.
    apply In_get_wf; [apply search_scores_wf | exact Hr].
Qed.

Lemma of_entries_distinct {V : Type} (es : list (string * V)) :
  NoDup (map fst es) -> of_entries es = es.
Proof. intros Hnd. unfold of_entries. apply (@fold_set_fresh V es []). exact Hnd. Qed.

(** X8: decoding serialized data and encoding the result gives the
    data back, when no term and no document id is listed twice in
    it. *)
Theorem fromJSON_then_serialize (data : Serialized num) :
  NoDup (map fst (s_docLengths data)) -> NoDup (map fst (s_vocab data)) ->
  serialize (fromJSON data) = data.
Proof.
  intros Hd Hv. destruct data as [dk1 db dN dL dls dv]. cbn [s_docLengths s_vocab] in *.
  unfold serialize, fromJSON.
  cbn [k1 b totalDocs totalDocLength docLengths vocab
       s_k1 s_b s_totalDocs s_totalDocLength s_docLengths s_vocab].
  rewrite !copy_entries_id. unfold entries.
  rewrite (of_entries_distinct _ Hd), (of_entries_distinct _ Hv).
  rewrite ?copy_entries_id. reflexivity.
Qed.
End IndexFacts.

(** ** The order of the results, in exact arithmetic *)

Section SortedScores.
Context {H : Host}.
Import JSMap JSMapFacts.

Local Open Scope R_scope.

Let RN : Number R := real_number.

Lemma Forall_sort_insert {A : Type} (cmp : A -> A -> R) (Q : A -> Prop) x l :
  Q x -> Forall Q l -> Forall Q (@sort_insert R RN A cmp x l).
Proof.
  intros Hx Hl. induction Hl as [|y l Hy Hl IH]; cbn [sort_insert].
  - constructor; [exact Hx | constructor].
  - destruct (nlt (cmp y x) n0); constructor; auto.
Qed.

Lemma sort_insert_descending (x : string * R) l :
  StronglySorted (fun a c => snd c <= snd a) l ->
  StronglySorted (fun a c => snd c <= snd a) (@sort_insert R RN _ (@by_score_desc R RN) x l).
Proof.
  intros Hl. induction Hl as [|y l Hl IH Hy]; cbn [sort_insert].
  - constructor; [constructor | constructor].
  - unfold by_score_desc at 1. cbn [nlt nsub n0 RN real_number].
    destruct (Rlt_dec (snd x - snd y) 0) as [Hlt|Hge].
    + constructor; [exact IH|].
      apply Forall_sort_insert; [lra | exact Hy].
    + constructor; [constructor; assumption|].
      constructor; [lra|].
      apply Forall_forall. intros z Hz. rewrite Forall_forall in Hy.
      specialize (Hy z Hz). lra.
Qed.

Lemma js_sort_descending (l : list (string * R)) :
  StronglySorted (fun a c => snd c <= snd a) (@js_sort R RN _ (@by_score_desc R RN) l).
Proof.
  induction l as [|x l IH]; cbn [js_sort]; [constructor|].
  apply sort_insert_descending. exact IH.
Qed.

Lemma sorted_firstn {A : Type} (Rel : A -> A -> Prop) (l : list A) : forall m,
  StronglySorted Rel l -> StronglySorted Rel (firstn m l).
Proof.
  induction l as [|x l IH]; intros m Hl; [rewrite firstn_nil; constructor|].
  destruct m as [|m]; [constructor|].
  inversion Hl as [|? ? Hl' Hx]; subst. cbn [firstn]. constructor; [auto|].
  apply Forall_forall. intros y Hy. rewrite Forall_forall in Hx. apply Hx.
  rewrite <- (firstn_skipn m l). apply in_or_app. left. exact Hy.
Qed.

Lemma sorted_prefix_first {A : Type} (Rel : A -> A -> Prop) (l : list A) : forall m a c,
  StronglySorted Rel l -> In a (firstn m l) -> In c (skipn m l) -> Rel a c.
Proof.
  induction l as [|x l IH]; intros m a c Hl Ha Hc.
  - rewrite firstn_nil in Ha. contradiction.
  - destruct m as [|m]; [contradiction|].
    inversion Hl as [|? ? Hl' Hx]; subst. cbn [firstn skipn] in *.
    destruct Ha as [<-|Ha].
    + rewrite Forall_forall in Hx. apply Hx.
      rewrite <- (firstn_skipn m l). apply in_or_app. right. exact Hc.
    + eapply IH; eassumption.
Qed.

Lemma sorted_map {A B : Type} (f : A -> B) (Rel : B -> B -> Prop) (l : list A) :
  StronglySorted (fun a c => Rel (f a) (f c)) l -> StronglySorted Rel (map f l).
Proof.
  induction 1 as [|x l Hl IH Hx]; cbn [map]; constructor; [exact IH|].
  apply Forall_forall. intros y Hy. apply in_map_iff in Hy. destruct Hy as [z [<- Hz]].
  rewrite Forall_forall in Hx. apply Hx. exact Hz.
Qed.

Lemma slice0_prefix {A : Type} (k : Z) (l : list A) :
  exists m, slice0 k l = firstn m l.
Proof. unfold slice0. destruct (k <? 0)%Z; eexists; reflexivity. Qed.

(** X6: in exact arithmetic the results of [search] are in descending
    order of score, and a scored document that is left out scores no
    more than any document returned: the results are the best ones. *)
Theorem search_best_first (idx : BM25Index R) (query : string) (topK : Z) :
  StronglySorted (fun r1 r2 => score r2 <= score r1)
                 (@search R RN H idx query topK) /\
  (forall x s,
     get (@search_scores R RN H idx query) x = Some s ->
     ~ In x (map (@r_docId R) (@search R RN H idx query topK)) ->
     Forall (fun r => s <= score r) (@search R RN H idx query topK)).
Proof.
  unfold search.
  destruct (slice0_prefix topK
              (@js_sort R RN _ (@by_score_desc R RN) (entries (@search_scores R RN H idx query))))
    as [m Hm].
  rewrite Hm.
  pose proof (js_sort_descending (entries (@search_scores R RN H idx query))) as Hs.
  split.
  - apply sorted_map. cbn [score]. apply sorted_firstn. exact Hs.
  - intros x s Hget Hout. apply Forall_forall. intros r Hr.
    apply in_map_iff in Hr. destruct Hr as [e [<- He]]. cbn [score].
    apply get_Some_In in Hget.
    assert (Hin : In (x, s) (@js_sort R RN _ (@by_score_desc R RN)
                               (entries (@search_scores R RN H idx query)))).
    { apply (Permutation_in _ (Permutation_sym (js_sort_perm _ _))). exact Hget. }
    rewrite <- (firstn_skipn m) in Hin. apply in_app_or in Hin.
    destruct Hin as [Hin|Hin].
    + exfalso. apply Hout. rewrite map_map. cbn [r_docId].
      change x with (fst (x, s)). apply in_map. exact Hin.
    + change s with (snd (x, s)).
      exact (@sorted_prefix_first _ _ _ m e (x, s) Hs He Hin).
Qed.
End SortedScores.

Lemma addDocuments_docLengths_witness :
  ~ In "a" (map id [ {| id := "b"; text := "z" |} ]) /\
  JSMap.get (docLengths
               (@addDocuments float (float_number series_log) (ascii_host None)
                  (@new_BM25Index float (float_number series_log))
                  ([ {| id := "a"; text := "x y" |} ]
                     ++ {| id := "a"; text := "p q r" |}
                     :: [ {| id := "b"; text := "z" |} ]))) "a"
  = Some 3%float.
Proof.
  assert (Hlast : ~ In "a" (map id [ {| id := "b"; text := "z" |} ])).
  { simpl. intuition discriminate. }
  split; [exact Hlast|].
  exact (proj1 (@addDocuments_docLengths float (float_number series_log) (ascii_host None)
                  (@new_BM25Index float (float_number series_log)) [ {| id := "a"; text := "x y" |} ]
                  [ {| id := "b"; text := "z" |} ]
                  {| id := "a"; text := "p q r" |} Hlast)).
Defined.

Lemma search_unknown_terms_witness :
  Forall (fun t => JSMap.get
                     (vocab (@addDocuments float (float_number series_log) (ascii_host None)
                               (@new_BM25Index float (float_number series_log)) [ {| id := "d"; text := "the cat sat" |} ])) t
                   = None)
         (@tokenize (ascii_host None) "the zebra") /\
  @search float (float_number series_log) (ascii_host None)
    (@addDocuments float (float_number series_log) (ascii_host None)
       (@new_BM25Index float (float_number series_log)) [ {| id := "d"; text := "the cat sat" |} ])
    "the zebra" 10 = [].
Proof.
  assert (Hq : Forall (fun t => JSMap.get
                     (vocab (@addDocuments float (float_number series_log) (ascii_host None)
                               (@new_BM25Index float (float_number series_log)) [ {| id := "d"; text := "the cat sat" |} ])) t
                   = None)
         (@tokenize (ascii_host None) "the zebra")).
  { vm_compute. constructor; [reflexivity | constructor]. }
  split; [exact Hq|].
  exact (proj2 (@search_unknown_terms float (float_number series_log) (ascii_host None)
                  _ "the zebra" 10 Hq)).
Defined.

Lemma search_at_most_topK_witness :
  (0 <= 1)%Z /\
  (Z.of_nat (List.length
     (@search float (float_number series_log) (ascii_host None)
        (@addDocuments float (float_number series_log) (ascii_host None)
           (@new_BM25Index float (float_number series_log))
           [ {| id := "d1"; text := "the cat sat" |}; {| id := "d2"; text := "a cat" |} ])
        "cat" 1)) <= 1)%Z.
Proof.
  split; [lia|].
  apply (@search_at_most_topK float (float_number series_log) (ascii_host None)). lia.
Defined.

Lemma fromJSON_then_serialize_witness :
  NoDup (map fst [("d1", 2%float); ("d2", 1%float)]) /\
  NoDup (map fst [("cat", [ {| docId := "d1"; tf := 1%float |} ])]) /\
  serialize (fromJSON
    {| s_k1 := 1.5%float; s_b := 0.5%float; s_totalDocs := 2%float;
       s_totalDocLength := 3%float;
       s_docLengths := [("d1", 2%float); ("d2", 1%float)];
       s_vocab := [("cat", [ {| docId := "d1"; tf := 1%float |} ])] |})
  = {| s_k1 := 1.5%float; s_b := 0.5%float; s_totalDocs := 2%float;
       s_totalDocLength := 3%float;
       s_docLengths := [("d1", 2%float); ("d2", 1%float)];
       s_vocab := [("cat", [ {| docId := "d1"; tf := 1%float |} ])] |}.
Proof.
  assert (Hd : NoDup (map fst [("d1", 2%float); ("d2", 1%float)])).
  { simpl. distinct_strings. }
  assert (Hv : NoDup (map fst [("cat", [ {| docId := "d1"; tf := 1%float |} ])])).
  { simpl. distinct_strings. }
  split; [exact Hd|]. split; [exact Hv|].
  exact (@fromJSON_then_serialize float
           {| s_k1 := 1.5%float; s_b := 0.5%float; s_totalDocs := 2%float;
              s_totalDocLength := 3%float;
              s_docLengths := [("d1", 2%float); ("d2", 1%float)];
              s_vocab := [("cat", [ {| docId := "d1"; tf := 1%float |} ])] |} Hd Hv).
Defined.

(** ** [simpleTextChunk] *)

Section SimpleChunks.
Variables (text docId : string) (maxChars : nat) (overlap : Z).

Lemma substring_whole s : substring 0 (String.length s) s = s.
Proof. induction s as [|c s IH]; simpl; [reflexivity | now rewrite IH]. Qed.

Lemma simple_chunks_cover :
  (0 <= overlap < Z.of_nat maxChars)%Z ->
  forall fuel start, String.length text - start <= fuel ->
  exists chunks,
    simple_chunks_from fuel text docId maxChars overlap start = Some chunks /\
    (forall p, start <= p < String.length text -> covered chunks p) /\
    Forall (fun c => start <= Chunk.charStart c /\
                     exists e, Chunk.charEnd c = Some e /\
                       Chunk.charStart c < e <= String.length text /\
                       e - Chunk.charStart c <= maxChars /\
                       Chunk.text c = slice text (Chunk.charStart c) e /\
                       Chunk.id c = chunk_id docId (Chunk.charStart c) (Some e) /\
                       Chunk.docId c = docId)
           chunks.
Proof.
  intros Hov. induction fuel as [|fuel IH]; intros start Hfuel.
  - exists []. cbn [simple_chunks_from].
    destruct (Nat.ltb_spec start (String.length text)); [lia|].
    split; [reflexivity|]. split; [intros p Hp; lia | constructor].
  - cbn [simple_chunks_from].
    destruct (Nat.ltb_spec start (String.length text)) as [Hlt|Hge].
    2:{ exists []. split; [reflexivity|]. split; [intros p Hp; lia | constructor]. }
    set (end_ := Nat.min (start + maxChars) (String.length text)).
    set (chunk := {| Chunk.id := chunk_id docId start (Some end_);
                     Chunk.docId := docId;
                     Chunk.text := slice text start end_;
                     Chunk.charStart := start;
                     Chunk.charEnd := Some end_ |}).
    assert (Hchunk : start <= Chunk.charStart chunk /\
                     exists e, Chunk.charEnd chunk = Some e /\
                       Chunk.charStart chunk < e <= String.length text /\
                       e - Chunk.charStart chunk <= maxChars /\
                       Chunk.text chunk = slice text (Chunk.charStart chunk) e /\
                       Chunk.id chunk = chunk_id docId (Chunk.charStart chunk) (Some e) /\
                       Chunk.docId chunk = docId).
    { split; [simpl; lia|]. exists end_. simpl. repeat split; try reflexivity; lia. }
    destruct (Nat.eqb_spec end_ (String.length text)) as [Hend|Hend].
    + exists [chunk]. split; [reflexivity|]. split.
      * intros p Hp. exists chunk. split; [left; reflexivity|].
        split; [simpl; lia|]. exists end_. split; [reflexivity | lia].
      * constructor; [exact Hchunk | constructor].
    + set (next := Z.to_nat (Z.max 0 (Z.of_nat end_ - overlap))).
      assert (Hnext : start < next <= end_) by lia.
      destruct (IH next) as [chunks [Hrun [Hcov Hall]]]; [lia|].
      exists (chunk :: chunks). rewrite Hrun. split; [reflexivity|]. split.
      * intros p Hp. destruct (Nat.lt_ge_cases p next) as [Hp'|Hp'].
        -- exists chunk. split; [left; reflexivity|].
           split; [simpl; lia|]. exists end_. split; [reflexivity | lia].
        -- destruct (Hcov p) as [c [Hc Hcp]]; [lia|].
           exists c. split; [right; exact Hc | exact Hcp].
      * constructor; [exact Hchunk|].
        eapply Forall_impl; [|exact Hall]. intros c [Hs Hc]. split; [lia | exact Hc].
Qed.

Lemma simple_chunks_more_fuel : forall fuel fuel' start chunks,
  fuel <= fuel' ->
  simple_chunks_from fuel text docId maxChars overlap start = Some chunks ->
  simple_chunks_from fuel' text docId maxChars overlap start = Some chunks.
Proof.
  induction fuel as [|fuel IH]; intros fuel' start chunks Hle Hrun.
  - cbn [simple_chunks_from] in Hrun.
    destruct fuel'; cbn [simple_chunks_from];
      destruct (start <? String.length text)%nat; congruence.
  - destruct fuel' as [|fuel']; [lia|]. cbn [simple_chunks_from] in *.
    destruct (start <? String.length text)%nat; [|exact Hrun].
    destruct (_ =? String.length text)%nat; [exact Hrun|].
    destruct (simple_chunks_from fuel text docId maxChars overlap _) as [rest|] eqn:E;
      [|discriminate].
    rewrite (IH fuel' _ rest); [exact Hrun | lia | exact E].
Qed.

Lemma simple_chunks_stuck :
  (Z.of_nat maxChars <= overlap)%Z ->
  forall fuel start, start + maxChars < String.length text ->
  simple_chunks_from fuel text docId maxChars overlap start = None.
Proof.
  intros Hov. induction fuel as [|fuel IH]; intros start Hstart; cbn [simple_chunks_from].
  - destruct (Nat.ltb_spec start (String.length text)); [reflexivity | lia].
  - destruct (Nat.ltb_spec start (String.length text)); [|lia].
    destruct (Nat.eqb_spec (Nat.min (start + maxChars) (String.length text))
                           (String.length text)); [lia|].
    rewrite IH; [reflexivity | lia].
Qed.
End SimpleChunks.

(** X9: with [0 <= overlap < maxChars], [simpleTextChunk] ends within
    [text.length] turns of its loop, and its chunks cover every
    position of the text, white space included; every chunk is a
    non-empty slice of at most [maxChars] code units, with the id of
    its span. *)
Theorem simpleTextChunk_covers (text docId : string) (maxChars : nat) (overlap : Z) :
  (0 <= overlap < Z.of_nat maxChars)%Z ->
  exists chunks,
    (forall fuel, String.length text <= fuel ->
       simpleTextChunk fuel text docId (Some maxChars) (Some overlap) = Some chunks) /\
    (forall p, p < String.length text -> covered chunks p) /\
    Forall (fun c => exists e, Chunk.charEnd c = Some e /\
                       Chunk.charStart c < e <= String.length text /\
                       e - Chunk.charStart c <= maxChars /\
                       Chunk.text c = slice text (Chunk.charStart c) e /\
                       Chunk.id c = chunk_id docId (Chunk.charStart c) (Some e) /\
                       Chunk.docId c = docId)
           chunks.
Proof.
  intros Hov.
  destruct (@simple_chunks_cover text docId maxChars overlap Hov (String.length text) 0)
    as [chunks [Hrun [Hcov Hall]]]; [lia|].
  exists chunks. split; [|split].
  - intros fuel Hfuel. unfold simpleTextChunk.
    exact (@simple_chunks_more_fuel text docId maxChars overlap _ fuel 0 chunks Hfuel Hrun).
  - intros p Hp. apply Hcov. lia.
  - eapply Forall_impl; [|exact Hall]. intros c [_ Hc]. exact Hc.
Qed.

Lemma simpleTextChunk_covers_witness :
  (0 <= 1 < Z.of_nat 3)%Z /\
  simpleTextChunk 7 "a b c d" "doc" (Some 3) (Some 1%Z) =
  Some [span_chunk "a b c d" "doc" 0 (Some 3); span_chunk "a b c d" "doc" 2 (Some 5);
        span_chunk "a b c d" "doc" 4 (Some 7)].
Proof.
  split; [lia|].
  destruct (@simpleTextChunk_covers "a b c d" "doc" 3 1%Z) as [chunks [Hrun _]]; [lia|].
  rewrite (Hrun 7) by (simpl; lia).
  specialize (Hrun 7 (Nat.le_refl 7)). vm_compute in Hrun.
  injection Hrun as <-. reflexivity.
Defined.

(** X10: when [overlap] is [maxChars] or more and the text is longer
    than [maxChars], the loop of [simpleTextChunk] steps back to a
    start it already had: no number of turns makes it return. *)
Theorem simpleTextChunk_never_returns (text docId : string) (maxChars : nat)
        (overlap : Z) (fuel : nat) :
  (Z.of_nat maxChars <= overlap)%Z -> maxChars < String.length text ->
  simpleTextChunk fuel text docId (Some maxChars) (Some overlap) = None.
Proof.
  intros Hov Hlen. unfold simpleTextChunk. apply simple_chunks_stuck; [exact Hov | lia].
Qed.

Lemma simpleTextChunk_never_returns_witness :
  (Z.of_nat 2 <= 2)%Z /\ 2 < String.length "abc" /\
  simpleTextChunk 1000 "abc" "doc" (Some 2) (Some 2%Z) = None.
Proof.
  split; [lia|]. split; [simpl; lia|].
  apply simpleTextChunk_never_returns; [lia | simpl; lia].
Defined.

(** A non-empty text of at most [maxChars] code units gives
    exactly one chunk, the whole text from 0 to its length, whatever
    the overlap; the empty text gives no chunk. *)
Lemma simpleTextChunk_short (text docId : string) (maxChars : nat)
        (overlap : option Z) (fuel : nat) :
  0 < String.length text <= maxChars ->
  simpleTextChunk (S fuel) text docId (Some maxChars) overlap =
    Some [{| Chunk.id := chunk_id docId 0 (Some (String.length text));
             Chunk.docId := docId;
             Chunk.text := text;
             Chunk.charStart := 0;
             Chunk.charEnd := Some (String.length text) |}] /\
  simpleTextChunk fuel "" docId (Some maxChars) overlap = Some [].
Proof.
  intros Hlen. split.
  - unfold simpleTextChunk. cbn [simple_chunks_from].
    destruct (Nat.ltb_spec 0 (String.length text)); [|lia].
    replace (Nat.min (0 + maxChars) (String.length text)) with (String.length text) by lia.
    rewrite Nat.eqb_refl. unfold slice. rewrite Nat.sub_0_r, substring_whole.
    reflexivity.
  - unfold simpleTextChunk. destruct fuel; reflexivity.
Qed.

Lemma simpleTextChunk_short_witness :
  0 < String.length "hello" <= 800 /\
  simpleTextChunk 1 "hello" "doc" (Some 800) None =
    Some [{| Chunk.id := "doc:0-5"; Chunk.docId := "doc"; Chunk.text := "hello";
             Chunk.charStart := 0; Chunk.charEnd := Some 5 |}].
Proof.
  split; [simpl; lia|].
  apply (@simpleTextChunk_short "hello" "doc" 800 None 0). simpl. lia.
Defined.

(** ** Chunk ids *)

Section ChunkIds.

Lemma append_inj_l d : forall x y, String.append d x = String.append d y -> x = y.
Proof.
  induction d as [|c d IH]; intros x y Heq; [exact Heq|].
  simpl in Heq. injection Heq as Heq. apply IH. exact Heq.
Qed.

Lemma not_free_of_append x a c : ~ free_of x (String.append a (String x c)).
Proof.
  unfold free_of. induction a as [|y a IH]; simpl; intros Hf;
    inversion Hf as [|? ? Hy Hf']; subst; [congruence | auto].
Qed.

(** Cutting at the first [x]. *)
Lemma append_split_first x u : forall u' v v',
  free_of x u -> free_of x u' ->
  String.append u (String x v) = String.append u' (String x v') -> u = u' /\ v = v'.
Proof.
  unfold free_of.
  induction u as [|c u IH]; intros [|c' u'] v v' Hu Hu' Heq; simpl in *.
  - injection Heq as ->. auto.
  - injection Heq as -> _. inversion Hu'; congruence.
  - injection Heq as -> _. inversion Hu; congruence.
  - injection Heq as -> Heq. inversion Hu; inversion Hu'; subst.
    destruct (IH u' v v') as [-> ->]; auto.
Qed.

(** Cutting at the last [x]. *)
Lemma append_split_last x d : forall d' v v',
  free_of x v -> free_of x v' ->
  String.append d (String x v) = String.append d' (String x v') -> d = d' /\ v = v'.
Proof.
  induction d as [|c d IH]; intros [|c' d'] v v' Hv Hv' Heq; simpl in *.
  - injection Heq as ->. auto.
  - injection Heq as _ ->. exfalso. exact (@not_free_of_append _ _ _ Hv).
  - injection Heq as _ <-. exfalso. exact (@not_free_of_append _ _ _ Hv').
  - injection Heq as -> Heq. destruct (IH d' v v') as [-> ->]; auto.
Qed.

Lemma free_of_append x a c : free_of x a -> free_of x c -> free_of x (String.append a c).
Proof.
  unfold free_of. induction a as [|y a IH]; simpl; intros Ha Hc; [exact Hc|].
  inversion Ha; subst. constructor; auto.
Qed.

Lemma digits_free_of x s :
  is_digit x = false ->
  Forall (fun c => is_digit c = true) (list_ascii_of_string s) -> free_of x s.
Proof.
  intros Hx Hs. unfold free_of. eapply Forall_impl; [|exact Hs].
  intros c Hc ->. congruence.
Qed.

Lemma string_of_uint_digits d :
  Forall (fun c => is_digit c = true) (list_ascii_of_string (NilEmpty.string_of_uint d)).
Proof. induction d; simpl; constructor; auto. Qed.

Lemma decimal_digits n :
  Forall (fun c => is_digit c = true) (list_ascii_of_string (decimal n)).
Proof. apply string_of_uint_digits. Qed.

Lemma decimal_inj n n' : decimal n = decimal n' -> n = n'.
Proof.
  unfold decimal. intros Heq. apply Unsigned.to_uint_inj.
  pose proof (NilEmpty.usu (Nat.to_uint n)) as Hn.
  rewrite Heq, NilEmpty.usu in Hn. now injection Hn.
Qed.

Lemma decimal_or_undefined_free x e :
  is_digit x = false -> free_of x "undefined" -> free_of x (decimal_or_undefined e).
Proof.
  intros Hx Hu. destruct e as [e|]; [|exact Hu].
  apply digits_free_of; [exact Hx | apply decimal_digits].
Qed.

Lemma decimal_or_undefined_inj e e' :
  decimal_or_undefined e = decimal_or_undefined e' -> e = e'.
Proof.
  destruct e as [e|], e' as [e'|]; cbn [decimal_or_undefined]; intros Heq.
  - f_equal. apply decimal_inj. exact Heq.
  - exfalso. pose proof (decimal_digits e) as Hd. rewrite Heq in Hd.
    inversion Hd as [|? ? Hu _]. discriminate Hu.
  - exfalso. pose proof (decimal_digits e') as Hd. rewrite <- Heq in Hd.
    inversion Hd as [|? ? Hu _]. discriminate Hu.
  - reflexivity.
Qed.

Lemma undefined_free_of x :
  (if in_dec ascii_dec x (list_ascii_of_string "undefined") then false else true) = true ->
  free_of x "undefined".
Proof.
  destruct (in_dec ascii_dec x (list_ascii_of_string "undefined")) as [|Hn];
    [discriminate|].
  intros _. unfold free_of. apply Forall_forall. intros c Hc ->. exact (Hn Hc).
Qed.

Lemma chunk_id_inj d s e d' s' e' :
  chunk_id d s e = chunk_id d' s' e' -> d = d' /\ s = s' /\ e = e'.
Proof.
  unfold chunk_id. intros Heq.
  change (String.append ":" ?x) with (String ":"%char x) in Heq.
  apply append_split_last in Heq.
  - destruct Heq as [-> Heq]. split; [reflexivity|].
    change (String.append "-" ?x) with (String "-"%char x) in Heq.
    apply append_split_first in Heq.
    + destruct Heq as [Hs He]. split; [exact (decimal_inj _ _ Hs)|].
      exact (decimal_or_undefined_inj _ _ He).
    + apply digits_free_of; [reflexivity | apply decimal_digits].
    + apply digits_free_of; [reflexivity | apply decimal_digits].
  - apply free_of_append; [apply digits_free_of; [reflexivity | apply decimal_digits]|].
    apply (@free_of_append _ "-"); [repeat constructor; discriminate|].
    apply decimal_or_undefined_free; [reflexivity | apply undefined_free_of; reflexivity].
  - apply free_of_append; [apply digits_free_of; [reflexivity | apply decimal_digits]|].
    apply (@free_of_append _ "-"); [repeat constructor; discriminate|].
    apply decimal_or_undefined_free; [reflexivity | apply undefined_free_of; reflexivity].
Qed.

(** X12: a chunk id names its document and its span: two ids of the
    form [docId:charStart-charEnd] are equal only when the document
    ids, the starts and the ends are equal, also when a document id
    itself holds colons or dashes. *)
Theorem chunk_id_injective (d d' : string) (s s' : nat) (e e' : option nat) :
  chunk_id d s e = chunk_id d' s' e' <-> d = d' /\ s = s' /\ e = e'.
Proof.
  split; [apply chunk_id_inj|]. intros [-> [-> ->]]. reflexivity.
Qed.
End ChunkIds.

(** ** The spans and the ids of token chunks *)

Section TokenSpans.
Context {H : Host}.

Lemma nonspace_runs_sound (text : string) s : forall pos cur,
  (forall k, String.get k s = String.get (pos + k) text) ->
  pos + String.length s = String.length text ->
  match cur with
  | Some r => 0 < String.length (snd r) /\ run_end r = pos /\
              forall q, fst r <= q < pos -> nonspace_at text q
  | None => True
  end ->
  Forall (token_run text) (nonspace_runs_from pos cur s).
Proof.
  induction s as [|c s IH]; intros pos cur Hsuf Hlen Hcur.
  - cbn [nonspace_runs_from]. destruct cur as [r|]; [|constructor].
    destruct Hcur as [Hne [Hend Hq]]. simpl in Hlen.
    constructor; [|constructor]. split; [exact Hne|]. split; [lia|].
    intros q Hqr. apply Hq. lia.
  - assert (Hsuf' : forall k, String.get k s = String.get (S pos + k) text).
    { intros k. specialize (Hsuf (S k)). simpl in Hsuf. rewrite Hsuf. f_equal. lia. }
    assert (Hc : String.get pos text = Some c).
    { specialize (Hsuf 0). simpl in Hsuf. rewrite Nat.add_0_r in Hsuf. now symmetry. }
    assert (Hlen' : S pos + String.length s = String.length text) by (simpl in Hlen; lia).
    cbn [nonspace_runs_from]. destruct (isSpace c) eqn:Ec.
    + destruct cur as [r|].
      * destruct Hcur as [Hne [Hend Hq]]. constructor.
        -- split; [exact Hne|]. split; [lia|]. intros q Hqr. apply Hq. lia.
        -- apply IH; auto.
      * apply IH; auto.
    + assert (Hpos : nonspace_at text pos) by (exists c; auto).
      destruct cur as [[i w]|].
      * destruct Hcur as [Hne [Hend Hq]]. unfold run_end in Hend. cbn [fst snd] in *.
        apply IH; auto. cbn [fst snd]. unfold run_end. cbn [fst snd].
        rewrite length_append_char. split; [lia|]. split; [lia|].
        intros q Hqr. destruct (Nat.eq_dec q pos) as [->|Hne']; [exact Hpos|].
        apply Hq. lia.
      * apply IH; auto. unfold run_end. cbn [fst snd String.length].
        split; [lia|]. split; [lia|].
        intros q Hqr. replace q with pos by lia. exact Hpos.
Qed.

Lemma matchAll_token_runs (text : string) :
  Forall (token_run text) (matchAll_nonspace text).
Proof.
  unfold matchAll_nonspace. apply nonspace_runs_sound; [reflexivity | reflexivity | exact I].
Qed.

Lemma matchAll_chained (text : string) : chained 0 (matchAll_nonspace text).
Proof. exact (@nonspace_runs_chained H text 0 None I). Qed.

Lemma runs_starts_increasing runs : forall lo,
  chained lo runs -> Forall (fun r => 0 < String.length (snd r)) runs ->
  StronglySorted lt (map fst runs).
Proof.
  induction runs as [|r runs IH]; intros lo Hch Hne; cbn [map]; [constructor|].
  destruct Hch as [_ Hch]. inversion Hne as [|? ? Hr Hne']; subst.
  constructor; [eapply IH; eassumption|].
  apply Forall_forall. intros x Hx. apply in_map_iff in Hx. destruct Hx as [r' [<- Hr']].
  pose proof (@chained_lower runs _ r' Hch Hr'). lia.
Qed.

Lemma sorted_nth_lt (l : list nat) : StronglySorted lt l ->
  forall i j, i < j < List.length l -> nth i l 0 < nth j l 0.
Proof.
  induction 1 as [|x l Hl IH Hx]; intros i j Hij; [simpl in Hij; lia|].
  destruct j as [|j]; [lia|]. cbn [List.length] in Hij. destruct i as [|i].
  - cbn [nth]. rewrite Forall_forall in Hx. apply Hx. apply nth_In. lia.
  - cbn [nth]. apply IH. lia.
Qed.

Lemma sorted_lt_NoDup (l : list nat) : StronglySorted lt l -> NoDup l.
Proof.
  induction 1 as [|x l Hl IH Hx]; constructor; [|exact IH].
  intros Hin. rewrite Forall_forall in Hx. specialize (Hx x Hin). lia.
Qed.

Section Windows.
Variables (text docId : string) (starts ends : list nat) (maxTokens stride : Z).

Lemma token_windows_past : forall fuel tStart,
  (Z.of_nat (List.length starts) <= tStart)%Z ->
  token_windows fuel text docId starts ends maxTokens stride tStart = [].
Proof.
  intros [|fuel] tStart Hn; cbn [token_windows]; [reflexivity|].
  destruct (Z.ltb_spec tStart (Z.of_nat (List.length starts))); [lia | reflexivity].
Qed.

Lemma token_windows_length : forall fuel tStart,
  List.length (token_windows fuel text docId starts ends maxTokens stride tStart) <= fuel.
Proof.
  induction fuel as [|fuel IH]; intros tStart; cbn [token_windows]; [simpl; lia|].
  destruct (_ <? _)%Z; [|simpl; lia].
  destruct (_ =? _)%Z; [simpl; lia|]. cbn [List.length]. specialize (IH (tStart + stride)%Z). lia.
Qed.

Lemma token_windows_named : forall fuel tStart,
  Forall (fun c => Chunk.docId c = docId /\
                   Chunk.id c = chunk_id docId (Chunk.charStart c) (Chunk.charEnd c) /\
                   Chunk.text c = slice_opt text (Chunk.charStart c) (Chunk.charEnd c))
         (token_windows fuel text docId starts ends maxTokens stride tStart).
Proof.
  induction fuel as [|fuel IH]; intros tStart; cbn [token_windows]; [constructor|].
  destruct (_ <? _)%Z; [|constructor].
  destruct (_ =? _)%Z; constructor; cbn; auto.
Qed.

Lemma token_windows_starts :
  (1 <= stride)%Z -> StronglySorted lt starts ->
  forall fuel tStart, (0 <= tStart)%Z ->
  StronglySorted lt
    (map Chunk.charStart
         (token_windows fuel text docId starts ends maxTokens stride tStart)) /\
  Forall (fun c => nth (Z.to_nat tStart) starts 0 <= Chunk.charStart c)
         (token_windows fuel text docId starts ends maxTokens stride tStart).
Proof.
  intros Hstride Hsorted.
  induction fuel as [|fuel IH]; intros tStart Ht; cbn [token_windows].
  - split; constructor.
  - destruct (Z.ltb_spec tStart (Z.of_nat (List.length starts))) as [Hlt|Hge];
      [|split; constructor].
    destruct (_ =? _)%Z.
    + cbn [map Chunk.charStart]. split.
      * constructor; [constructor | constructor].
      * constructor; [apply Nat.le_refl | constructor].
    + cbn [map Chunk.charStart].
      destruct (IH (tStart + stride)%Z) as [IHs IHl]; [lia|].
      destruct (Z.lt_ge_cases (tStart + stride) (Z.of_nat (List.length starts)))
        as [Hin|Hout].
      * assert (Hnth : nth (Z.to_nat tStart) starts 0
                       < nth (Z.to_nat (tStart + stride)) starts 0).
        { apply sorted_nth_lt; [exact Hsorted | lia]. }
        split.
        -- constructor; [exact IHs|]. apply Forall_forall. intros x Hx.
           apply in_map_iff in Hx. destruct Hx as [c [<- Hc]].
           rewrite Forall_forall in IHl. specialize (IHl c Hc). lia.
        -- constructor; [apply Nat.le_refl|].
           eapply Forall_impl; [|exact IHl]. cbn beta. intros c Hc. lia.
      * rewrite token_windows_past by exact Hout. cbn [map]. split.
        -- constructor; [constructor | constructor].
        -- constructor; [apply Nat.le_refl | constructor].
Qed.

Lemma token_windows_spans :
  (1 <= maxTokens)%Z -> (1 <= stride)%Z ->
  forall fuel tStart, (0 <= tStart)%Z ->
  Forall (fun c => exists a b, a <= b < List.length starts /\
                     Chunk.charStart c = nth a starts 0 /\
                     Chunk.charEnd c = Some (nth b ends 0))
         (token_windows fuel text docId starts ends maxTokens stride tStart).
Proof.
  intros Hmax Hstride. induction fuel as [|fuel IH]; intros tStart Ht; cbn [token_windows].
  - constructor.
  - destruct (Z.ltb_spec tStart (Z.of_nat (List.length starts))) as [Hlt|Hge];
      [|constructor].
    set (tEnd := Z.min (tStart + maxTokens) (Z.of_nat (List.length starts))).
    assert (Hend : (tStart + 1 <= tEnd <= Z.of_nat (List.length starts))%Z)
      by (unfold tEnd; lia).
    destruct (Z.leb_spec 0 (tEnd - 1)) as [_|Hneg]; [|lia].
    assert (Hhead : exists a b, a <= b < List.length starts /\
                      nth (Z.to_nat tStart) starts 0 = nth a starts 0 /\
                      Some (nth (Z.to_nat (tEnd - 1)) ends 0) = Some (nth b ends 0)).
    { exists (Z.to_nat tStart), (Z.to_nat (tEnd - 1)). split; [lia | auto]. }
    destruct (tEnd =? _)%Z.
    + constructor; [exact Hhead | constructor].
    + constructor; [exact Hhead | apply IH; lia].
Qed.
End Windows.

Lemma ids_distinct_by_start (docId : string) (chunks : list Chunk.t) :
  Forall (fun c => Chunk.id c = chunk_id docId (Chunk.charStart c) (Chunk.charEnd c))
         chunks ->
  NoDup (map Chunk.charStart chunks) -> NoDup (map Chunk.id chunks).
Proof.
  induction chunks as [|c chunks IH]; intros Hid Hnd; cbn [map]; [constructor|].
  inversion Hid as [|? ? Hc Hid']; subst. cbn [map] in Hnd.
  inversion Hnd as [|? ? Hnotin Hnd']; subst.
  constructor; [|apply IH; assumption].
  intros Hin. apply Hnotin. apply in_map_iff in Hin. destruct Hin as [c' [Heq Hc']].
  rewrite Forall_forall in Hid'. rewrite (Hid' c' Hc'), Hc in Heq.
  apply chunk_id_inj in Heq. destruct Heq as [_ [Heq _]].
  apply in_map_iff. exists c'. auto.
Qed.

Lemma chunkByTokens_starts_sorted (text docId : string) (maxTokens overlapTokens : Z) :
  StronglySorted lt (map Chunk.charStart (chunkByTokens text docId maxTokens overlapTokens)).
Proof.
  assert (Hsorted : StronglySorted lt (map fst (matchAll_nonspace text))).
  { apply (@runs_starts_increasing _ 0 (matchAll_chained text)).
    eapply Forall_impl; [|apply matchAll_token_runs]. intros r Hr. apply Hr. }
  unfold chunkByTokens. destruct (matchAll_nonspace text) as [|r runs] eqn:E.
  - constructor.
  - apply (@token_windows_starts text docId (map fst (r :: runs))
             (map (fun m => fst m + String.length (snd m)) (r :: runs))
             maxTokens (Z.max 1 (maxTokens - Z.max 0 overlapTokens))
             ltac:(lia) Hsorted (List.length (r :: runs)) 0%Z ltac:(lia)).
Qed.

Lemma chunkByTokens_named (text docId : string) (maxTokens overlapTokens : Z) :
  Forall (fun c => Chunk.id c = chunk_id docId (Chunk.charStart c) (Chunk.charEnd c))
         (chunkByTokens text docId maxTokens overlapTokens).
Proof.
  unfold chunkByTokens. destruct (matchAll_nonspace text); [constructor|].
  eapply Forall_impl; [|apply token_windows_named]. cbn beta. intros c Hc. apply Hc.
Qed.

Lemma chunkByTokens_ids_NoDup (text docId : string) (maxTokens overlapTokens : Z) :
  NoDup (map Chunk.id (chunkByTokens text docId maxTokens overlapTokens)).
Proof.
  apply (@ids_distinct_by_start docId); [apply chunkByTokens_named|].
  apply sorted_lt_NoDup, chunkByTokens_starts_sorted.
Qed.

(** X13: the chunks of [chunkByTokens] start at strictly increasing
    offsets, for every [maxTokens] and [overlapTokens], so their ids
    are pairwise distinct within a document; and there are at most as
    many chunks as the text has tokens. *)
Theorem chunkByTokens_ids_distinct (text docId : string) (maxTokens overlapTokens : Z) :
  StronglySorted lt (map Chunk.charStart (chunkByTokens text docId maxTokens overlapTokens)) /\
  NoDup (map Chunk.id (chunkByTokens text docId maxTokens overlapTokens)) /\
  List.length (chunkByTokens text docId maxTokens overlapTokens)
    <= List.length (matchAll_nonspace text).
Proof.
  split; [apply chunkByTokens_starts_sorted|]. split; [apply chunkByTokens_ids_NoDup|].
  unfold chunkByTokens. destruct (matchAll_nonspace text) as [|r runs] eqn:E.
  - cbn [List.length]. lia.
  - apply token_windows_length.
Qed.

(** X14: with [maxTokens >= 1], every chunk of [chunkByTokens] runs
    from the first code unit of a token to the last code unit of a
    token: its span is non-empty and inside the text, it begins and
    ends on a code unit that is not white space, and its text is the
    slice of that span. *)
Theorem chunkByTokens_spans (text docId : string) (maxTokens overlapTokens : Z) :
  (1 <= maxTokens)%Z ->
  Forall (fun c => exists e, Chunk.charEnd c = Some e /\
                     Chunk.charStart c < e <= String.length text /\
                     nonspace_at text (Chunk.charStart c) /\
                     nonspace_at text (e - 1) /\
                     Chunk.text c = slice text (Chunk.charStart c) e /\
                     String.length (Chunk.text c) = e - Chunk.charStart c)
         (chunkByTokens text docId maxTokens overlapTokens).
Proof.
  intros Hmax.
  pose proof (matchAll_token_runs text) as Hruns.
  pose proof (matchAll_chained text) as Hch.
  unfold chunkByTokens. destruct (matchAll_nonspace text) as [|r0 runs0] eqn:E;
    [constructor|].
  set (runs := r0 :: runs0) in *.
  change (map (fun m => fst m + String.length (snd m)) runs) with (map run_end runs).
  pose proof (@token_windows_spans text docId (map fst runs) (map run_end runs)
                maxTokens (Z.max 1 (maxTokens - Z.max 0 overlapTokens))
                Hmax ltac:(lia) (List.length runs) 0%Z ltac:(lia)) as Hsp.
  pose proof (@token_windows_named text docId (map fst runs) (map run_end runs)
                maxTokens (Z.max 1 (maxTokens - Z.max 0 overlapTokens))
                (List.length runs) 0%Z) as Hnm.
  rewrite Forall_forall in Hsp, Hnm. apply Forall_forall. intros c Hc.
  destruct (Hsp c Hc) as [a [b [Hab [Hs He]]]]. destruct (Hnm c Hc) as [_ [_ Htext]].
  rewrite length_map in Hab.
  destruct (@chained_mono runs 0 a b Hch ltac:(lia)) as [Hmono _].
  rewrite Forall_forall in Hruns.
  assert (Ha : token_run text (nth a runs (0, EmptyString))) by (apply Hruns, nth_In; lia).
  assert (Hb : token_run text (nth b runs (0, EmptyString))) by (apply Hruns, nth_In; lia).
  change 0 with (fst (0, EmptyString)) in Hs, Hmono.
  rewrite map_nth in Hs. rewrite !map_nth in Hmono.
  change 0 with (run_end (0, EmptyString)) in He. rewrite map_nth in He.
  destruct Ha as [Hane [_ Haq]]. destruct Hb as [Hbne [Hbend Hbq]].
  unfold run_end in *.
  exists (fst (nth b runs (0, "")) + String.length (snd (nth b runs (0, "")))).
  rewrite Htext, He, Hs. cbn [slice_opt].
  split; [reflexivity|]. split; [lia|]. split; [apply Haq; lia|].
  split; [apply Hbq; lia|]. split; [reflexivity|].
  unfold slice. apply length_substring. lia.
Qed.
End TokenSpans.

(** ** Short and blank texts *)

Section EdgeTexts.
Context {H : Host}.

(** X15: a text of at least one and at most [maxTokens] tokens gives
    exactly one chunk, from the start of its first token to the end of
    its last token, whatever the overlap. *)
Theorem chunkByTokens_single_window (text docId : string) (maxTokens overlapTokens : Z) :
  let n := List.length (matchAll_nonspace text) in
  1 <= n -> (Z.of_nat n <= maxTokens)%Z ->
  chunkByTokens text docId maxTokens overlapTokens =
    [span_chunk text docId (nth 0 (map fst (matchAll_nonspace text)) 0)
                (Some (nth (n - 1) (map run_end (matchAll_nonspace text)) 0))].
Proof.
  intros n Hn Hmax. unfold chunkByTokens. subst n.
  destruct (matchAll_nonspace text) as [|r runs] eqn:E; [simpl in Hn; lia|].
  set (ms := r :: runs) in *.
  change (map (fun m => fst m + String.length (snd m)) ms) with (map run_end ms).
  assert (Hfuel : List.length ms = S (List.length runs)) by reflexivity.
  rewrite Hfuel at 1. cbn [token_windows]. rewrite length_map.
  destruct (Z.ltb_spec 0 (Z.of_nat (List.length ms))) as [_|Hbad]; [|lia].
  replace (Z.min (0 + maxTokens) (Z.of_nat (List.length ms)))
    with (Z.of_nat (List.length ms)) by lia.
  destruct (Z.leb_spec 0 (Z.of_nat (List.length ms) - 1)) as [_|Hbad]; [|lia].
  rewrite Z.eqb_refl.
  replace (Z.to_nat (Z.of_nat (List.length ms) - 1)) with (List.length ms - 1) by lia.
  reflexivity.
Qed.

Lemma nonspace_runs_blank s : all_space s = true ->
  forall pos, nonspace_runs_from pos None s = [].
Proof.
  induction s as [|c s IH]; intros Hs pos; [reflexivity|].
  cbn [all_space] in Hs. apply andb_true_iff in Hs. destruct Hs as [Hc Hs].
  cbn [nonspace_runs_from]. rewrite Hc. apply IH. exact Hs.
Qed.

Lemma all_space_substring s : all_space s = true ->
  forall a n, all_space (substring a n s) = true.
Proof.
  induction s as [|c s IH]; intros Hs a n.
  - destruct a, n; reflexivity.
  - cbn [all_space] in Hs. apply andb_true_iff in Hs. destruct Hs as [Hc Hs].
    destruct a as [|a]; [destruct n as [|n]|]; cbn [substring all_space];
      [reflexivity | rewrite Hc; apply IH; exact Hs | apply IH; exact Hs].
Qed.

Lemma trim_blank s : all_space s = true -> trim s = EmptyString.
Proof.
  intros Hs. unfold trim.
  assert (Ht : trim_start s = EmptyString).
  { induction s as [|c s IH]; [reflexivity|].
    cbn [all_space] in Hs. apply andb_true_iff in Hs. destruct Hs as [Hc Hs].
    cbn [trim_start]. rewrite Hc. apply IH. exact Hs. }
  rewrite Ht. reflexivity.
Qed.

Lemma filter_none {A : Type} (f : A -> bool) (l : list A) :
  Forall (fun x => f x = false) l -> filter f l = [].
Proof.
  induction 1 as [|x l Hx Hl IH]; [reflexivity|]. cbn [filter]. now rewrite Hx.
Qed.

Lemma paragraph_parts_slices text ms : forall idx,
  Forall (fun p => exists a n, p_text p = substring a n text) (paragraph_parts text idx ms).
Proof.
  induction ms as [|[m_index m_len] ms IH]; intros idx; cbn [paragraph_parts].
  - destruct (_ <=? _)%nat; constructor; [|constructor].
    eexists _, _. reflexivity.
  - constructor; [|apply IH]. eexists _, _. reflexivity.
Qed.

Lemma splitParagraphs_blank text : all_space text = true -> splitParagraphs text = [].
Proof.
  intros Hs. unfold splitParagraphs. apply filter_none.
  eapply Forall_impl; [|apply paragraph_parts_slices].
  cbn beta. intros p [a [n ->]].
  rewrite (trim_blank _ (all_space_substring _ Hs a n)). reflexivity.
Qed.

Lemma consecutive_parts_slices text indices :
  Forall (fun p => exists a n, p_text p = substring a n text)
         (consecutive_parts text indices).
Proof.
  induction indices as [|a [|c rest] IH]; cbn [consecutive_parts]; try constructor.
  - eexists _, _. reflexivity.
  - exact IH.
Qed.

Lemma pack_sections_blank docId targetChars secs : forall chunks,
  Forall (fun sec => all_space (p_text sec) = true) secs ->
  fold_left (pack_section docId targetChars) secs chunks = chunks.
Proof.
  induction secs as [|sec secs IH]; intros chunks Hsecs; [reflexivity|].
  inversion Hsecs as [|? ? Hsec Hsecs']; subst.
  cbn [fold_left]. rewrite IH by exact Hsecs'.
  unfold pack_section. rewrite (splitParagraphs_blank _ Hsec). reflexivity.
Qed.

(** X16: a text that holds white space only (the empty text too)
    gives no chunk, with each of the three chunkers of the worker and
    for all their parameters. *)
Theorem blank_text_no_chunks (text docId : string) :
  all_space text = true ->
  (forall maxTokens overlapTokens,
     chunkByTokens text docId maxTokens overlapTokens = []) /\
  (forall targetChars sentenceOverlap,
     chunkBySentencesParagraphs text docId targetChars sentenceOverlap = []) /\
  (forall targetChars, chunkRecursive text docId targetChars = []).
Proof.
  intros Hs. split; [|split].
  - intros maxTokens overlapTokens. unfold chunkByTokens, matchAll_nonspace.
    rewrite (nonspace_runs_blank _ Hs). reflexivity.
  - intros targetChars sentenceOverlap. unfold chunkBySentencesParagraphs.
    rewrite (splitParagraphs_blank _ Hs). reflexivity.
  - intros targetChars. unfold chunkRecursive. apply pack_sections_blank.
    unfold splitByHeadings.
    eapply Forall_impl; [|apply consecutive_parts_slices].
    cbn beta. intros p [a [n ->]]. apply all_space_substring. exact Hs.
Qed.
End EdgeTexts.

Lemma chunkByTokens_single_window_witness :
  1 <= List.length (@matchAll_nonspace (ascii_host None) " one two ") /\
  (Z.of_nat (List.length (@matchAll_nonspace (ascii_host None) " one two ")) <= 200)%Z /\
  @chunkByTokens (ascii_host None) " one two " "doc" 200 0 =
    [{| Chunk.id := "doc:1-8"; Chunk.docId := "doc"; Chunk.text := "one two";
        Chunk.charStart := 1; Chunk.charEnd := Some 8 |}].
Proof.
  assert (Hn : 1 <= List.length (@matchAll_nonspace (ascii_host None) " one two "))
    by (vm_compute; lia).
  assert (Hmax : (Z.of_nat (List.length (@matchAll_nonspace (ascii_host None) " one two "))
                  <= 200)%Z) by (vm_compute; discriminate).
  split; [exact Hn|]. split; [exact Hmax|].
  exact (@chunkByTokens_single_window (ascii_host None) " one two " "doc" 200 0 Hn Hmax).
Defined.

Lemma blank_text_no_chunks_witness :
  @all_space (ascii_host None) "   " = true /\
  @chunkRecursive (ascii_host None) "   " "doc" 800 = [].
Proof.
  split; [reflexivity|].
  apply (@blank_text_no_chunks (ascii_host None) "   " "doc"). reflexivity.
Defined.

Lemma chunkByTokens_spans_witness :
  (1 <= 2)%Z /\
  Forall (fun c => exists e, Chunk.charEnd c = Some e /\
                     Chunk.charStart c < e <= String.length " a b  c " /\
                     @nonspace_at (ascii_host None) " a b  c " (Chunk.charStart c) /\
                     @nonspace_at (ascii_host None) " a b  c " (e - 1) /\
                     Chunk.text c = slice " a b  c " (Chunk.charStart c) e /\
                     String.length (Chunk.text c) = e - Chunk.charStart c)
         (@chunkByTokens (ascii_host None) " a b  c " "doc" 2 1).
Proof.
  split; [lia|]. apply chunkByTokens_spans. lia.
Defined.

(** ** Sections and paragraphs *)

Section Splits.
Context {H : Host}.

Lemma substring_add s : forall a n m,
  substring a (n + m) s = String.append (substring a n s) (substring (a + n) m s).
Proof.
  induction s as [|c s IH]; intros a n m.
  - destruct a, n, m; reflexivity.
  - destruct a as [|a].
    + destruct n as [|n]; [reflexivity|]. cbn [Nat.add substring String.append].
      f_equal. apply (IH 0).
    + cbn [Nat.add substring]. apply IH.
Qed.

Lemma substring_empty s : forall a, substring a 0 s = EmptyString.
Proof. induction s as [|c s IH]; intros [|a]; cbn [substring]; auto. Qed.

Lemma slice_append text a c e :
  a <= c <= e -> String.append (slice text a c) (slice text c e) = slice text a e.
Proof.
  intros Hace. unfold slice.
  replace (e - a) with ((c - a) + (e - c)) by lia.
  rewrite substring_add. do 2 f_equal. lia.
Qed.

Lemma heading_starts_bounds s : forall pos line_start,
  Forall (fun i => pos <= i < pos + String.length s)
         (heading_starts_from pos line_start s) /\
  StronglySorted lt (heading_starts_from pos line_start s).
Proof.
  induction s as [|c s IH]; intros pos line_start; cbn [heading_starts_from].
  - split; constructor.
  - destruct (IH (S pos) (isLineTerminator c)) as [Hb Hs].
    assert (Hb' : Forall (fun i => pos < i < pos + String.length (String c s))
                         (heading_starts_from (S pos) (isLineTerminator c) s)).
    { eapply Forall_impl; [|exact Hb]. cbn beta. cbn [String.length]. intros i Hi. lia. }
    destruct (line_start && heading_prefix 0 (String c s)); cbn [app].
    + split.
      * constructor; [cbn [String.length]; lia|].
        eapply Forall_impl; [|exact Hb']. cbn beta. intros i Hi. lia.
      * constructor; [exact Hs|].
        eapply Forall_impl; [|exact Hb']. cbn beta. intros i Hi. lia.
    + split; [|exact Hs].
      eapply Forall_impl; [|exact Hb']. cbn beta. intros i Hi. lia.
Qed.

Lemma consecutive_parts_tiles text mids : forall a hi,
  StronglySorted le (a :: mids ++ [hi]) ->
  tiles text a (consecutive_parts text (a :: mids ++ [hi])) hi.
Proof.
  induction mids as [|m mids IH]; intros a hi Hs.
  - cbn [app consecutive_parts tiles mkPart p_start p_end p_text].
    inversion Hs as [|? ? _ Ha]; subst. inversion Ha; subst. auto.
  - cbn [app consecutive_parts tiles mkPart p_start p_end p_text].
    inversion Hs as [|? ? Hs' Ha]; subst. inversion Ha; subst.
    repeat split; auto. apply IH. exact Hs'.
Qed.

Lemma tiles_le text parts : forall lo hi, tiles text lo parts hi -> lo <= hi.
Proof.
  induction parts as [|p parts IH]; intros lo hi Ht; cbn [tiles] in Ht; [lia|].
  destruct Ht as [_ [Hle [_ Ht]]]. apply IH in Ht. lia.
Qed.

Lemma tiles_concat text parts : forall lo hi,
  tiles text lo parts hi ->
  String.concat "" (map p_text parts) = slice text lo hi.
Proof.
  induction parts as [|p parts IH]; intros lo hi Ht; cbn [tiles] in Ht.
  - subst hi. unfold slice. rewrite Nat.sub_diag. cbn [map String.concat].
    symmetry. apply substring_empty.
  - destruct Ht as [Hs [Hle [Htext Ht]]].
    pose proof (tiles_le _ _ _ _ Ht) as Hhi. specialize (IH _ _ Ht).
    destruct parts as [|q parts].
    + cbn [tiles] in Ht. subst hi. cbn [map String.concat]. exact Htext.
    + change (String.concat "" (map p_text (p :: q :: parts)))
        with (String.append (p_text p)
                (String.append "" (String.concat "" (map p_text (q :: parts))))).
      cbn [String.append]. rewrite IH, Htext. apply slice_append. lia.
Qed.

(** X17: [splitByHeadings] cuts the text into consecutive sections
    that tile it from 0 to its length: the first starts at 0, each
    starts where the one before ends, the last ends at the length,
    each is the slice it names, and joined they give the text back.
    There is one section more than there are heading lines. *)
Theorem splitByHeadings_partition (text : string) :
  tiles text 0 (splitByHeadings text) (String.length text) /\
  String.concat "" (map p_text (splitByHeadings text)) = text /\
  List.length (splitByHeadings text) = S (List.length (heading_starts_from 0 true text)).
Proof.
  assert (Ht : tiles text 0 (splitByHeadings text) (String.length text)).
  { unfold splitByHeadings. cbn [app]. apply consecutive_parts_tiles.
    destruct (heading_starts_bounds text 0 true) as [Hb Hs].
    constructor.
    - induction Hs as [|i l Hl IH Hi]; cbn [app].
      + constructor; [constructor | constructor].
      + inversion Hb as [|? ? Hib Hb']; subst. constructor; [apply IH; exact Hb'|].
        apply Forall_app. split.
        * eapply Forall_impl; [|exact Hi]. cbn beta. intros j Hj. lia.
        * constructor; [lia | constructor].
    - apply Forall_app. split.
      + eapply Forall_impl; [|exact Hb]. cbn beta. intros j Hj. lia.
      + constructor; [lia | constructor]. }
  split; [exact Ht|]. split.
  - rewrite (tiles_concat _ _ _ _ Ht). unfold slice. rewrite Nat.sub_0_r. apply substring_whole.
  - unfold splitByHeadings. cbn [app].
    generalize (heading_starts_from 0 true text) as mids. generalize 0 as a.
    intros a mids. revert a. induction mids as [|m mids IH]; intros a; [reflexivity|].
    cbn [app consecutive_parts List.length]. f_equal. apply IH.
Qed.

Lemma parts_chain_Forall text parts : forall lo,
  parts_chain text lo parts ->
  Forall (fun part => p_start part <= p_end part <= String.length text /\
                      p_text part = slice text (p_start part) (p_end part)) parts.
Proof.
  induction parts as [|p parts IH]; intros lo Hc; [constructor|].
  cbn [parts_chain] in Hc. destruct Hc as [_ [Hse [Hel [Ht Hc]]]].
  constructor; [auto | eapply IH; exact Hc].
Qed.

Lemma splitParagraphs_nonblank (text : string) :
  Forall (fun part => p_start part < p_end part <= String.length text /\
                      p_text part = slice text (p_start part) (p_end part) /\
                      trim (p_text part) <> EmptyString)
         (splitParagraphs text).
Proof.
  pose proof (@splitParagraphs_chain H text) as Hc.
  pose proof (parts_chain_Forall _ _ _ Hc) as Hall.
  rewrite Forall_forall in Hall. apply Forall_forall. intros part Hin.
  destruct (Hall part Hin) as [Hse Htext].
  unfold splitParagraphs in Hin. apply filter_In in Hin. destruct Hin as [_ Hnb].
  assert (Htrim : trim (p_text part) <> EmptyString).
  { intros Heq. rewrite Heq in Hnb. discriminate Hnb. }
  split; [|split; [exact Htext | exact Htrim]].
  split; [|lia].
  destruct (Nat.eq_dec (p_start part) (p_end part)) as [Heq|Hne]; [|lia].
  exfalso. apply Htrim. rewrite Htext, Heq. unfold slice. rewrite Nat.sub_diag.
  rewrite substring_empty. reflexivity.
Qed.

(** X18: the paragraphs of [splitParagraphs] come in text order and do
    not overlap; each is the slice of the text between its [start] and
    its [end], is not empty, and holds more than white space. *)
Theorem splitParagraphs_parts (text : string) :
  parts_chain text 0 (splitParagraphs text) /\
  Forall (fun part => p_start part < p_end part <= String.length text /\
                      p_text part = slice text (p_start part) (p_end part) /\
                      trim (p_text part) <> EmptyString)
         (splitParagraphs text).
Proof.
  split; [apply splitParagraphs_chain | apply splitParagraphs_nonblank].
Qed.
End Splits.

(** ** What an ingest stores and reports *)

Section StoredChunks.
Context {num : Type} {NUM : Number num} {H : Host}.
Import JSMap JSMapFacts.

Lemma parseAndChunk_from method files : forall acc,
  fold_left (fun chunks f => chunks ++ chunk_file method f) files acc =
  acc ++ flat_map (chunk_file method) files.
Proof.
  induction files as [|f files IH]; intros acc; cbn [fold_left flat_map].
  - now rewrite app_nil_r.
  - rewrite IH. now rewrite app_assoc.
Qed.

Lemma parseAndChunk_flat_map files method :
  parseAndChunk files method = flat_map (chunk_file method) files.
Proof. unfold parseAndChunk. now rewrite parseAndChunk_from. Qed.

Lemma chunk_file_by_tokens method f :
  by_tokens method = true ->
  exists maxTokens overlapTokens,
    chunk_file method f = chunkByTokens (f_text f) (path f) maxTokens overlapTokens.
Proof.
  destruct method as [[m|m o|t s|t]|]; cbn [by_tokens chunk_file]; intros Hm;
    try discriminate; eexists _, _; reflexivity.
Qed.

Lemma token_files_ids_distinct method files :
  by_tokens method = true -> NoDup (map path files) ->
  NoDup (map Chunk.id (flat_map (chunk_file method) files)).
Proof.
  intros Hm. induction files as [|f files IH]; intros Hnd; cbn [flat_map map];
    [constructor|].
  cbn [map] in Hnd. inversion Hnd as [|? ? Hf Hnd']; subst.
  rewrite map_app. apply NoDup_app; [| apply IH; exact Hnd' |].
  - destruct (@chunk_file_by_tokens method f Hm) as [m [o ->]].
    apply chunkByTokens_ids_NoDup.
  - intros x Hx Hx'. apply Hf.
    apply in_map_iff in Hx. destruct Hx as [c [<- Hc]].
    apply in_map_iff in Hx'. destruct Hx' as [c' [Heq Hc']].
    apply in_flat_map in Hc'. destruct Hc' as [f' [Hf' Hc']].
    destruct (@chunk_file_by_tokens method f Hm) as [m [o Ef]].
    destruct (@chunk_file_by_tokens method f' Hm) as [m' [o' Ef']].
    rewrite Ef in Hc. rewrite Ef' in Hc'.
    pose proof (chunkByTokens_named (f_text f) (path f) m o) as Hn.
    pose proof (chunkByTokens_named (f_text f') (path f') m' o') as Hn'.
    rewrite Forall_forall in Hn, Hn'.
    rewrite (Hn c Hc), (Hn' c' Hc') in Heq.
    apply chunk_id_inj in Heq. destruct Heq as [Heq _].
    rewrite <- Heq. apply in_map. exact Hf'.
Qed.

Lemma fold_set_chunks (chunks : list Chunk.t) : forall acc : JSMap.t Chunk.t,
  NoDup (keys acc ++ map Chunk.id chunks) ->
  fold_left (fun m c => set (Chunk.id c) c m) chunks acc =
  acc ++ map (fun c => (Chunk.id c, c)) chunks.
Proof.
  induction chunks as [|c chunks IH]; intros acc Hnd; cbn [fold_left map].
  - now rewrite app_nil_r.
  - cbn [map] in Hnd.
    assert (Hfresh : ~ In (Chunk.id c) (keys acc)).
    { intros Hin. apply NoDup_remove_2 in Hnd. apply Hnd. apply in_or_app. now left. }
    rewrite (@set_fresh _ _ _ c Hfresh). rewrite IH.
    + now rewrite <- app_assoc.
    + unfold keys. rewrite map_app. cbn [map fst]. rewrite <- app_assoc. exact Hnd.
Qed.

(** X19: when the files of an ingest have distinct paths and the
    method cuts by tokens (fixed or sliding windows, or the default),
    all chunk ids of the ingest are distinct, and on a fresh worker
    the chunk map holds every chunk under its id, in the order the
    chunks were cut: none replaces another. *)
Theorem token_chunks_all_stored (E : Embedder num) (files : list IngestFile)
        (method : option ChunkingMethod) (retrieval : Retrieval) :
  by_tokens method = true -> NoDup (map path files) ->
  NoDup (map Chunk.id (parseAndChunk files method)) /\
  chunkIdToChunk (fst (handleIngest E new_Worker files method retrieval)) =
    map (fun c => (Chunk.id c, c)) (parseAndChunk files method).
Proof.
  intros Hm Hnd.
  assert (Hids : NoDup (map Chunk.id (parseAndChunk files method))).
  { rewrite parseAndChunk_flat_map. apply token_files_ids_distinct; assumption. }
  split; [exact Hids|].
  destruct (handleIngest_state E new_Worker files method retrieval) as [Hmap _].
  rewrite Hmap. cbn [new_Worker chunkIdToChunk].
  rewrite fold_set_chunks; [reflexivity | exact Hids].
Qed.

Lemma embed_batches_messages (E : Embedder num) : forall fuel rest m,
  Forall (fun msg => forall d c, msg <> ingested d c) (snd (embed_batches fuel E rest m)).
Proof.
  induction fuel as [|fuel IH]; intros rest m; destruct rest as [|c rest];
    try (cbn [embed_batches snd]; constructor).
  cbn [embed_batches]. destruct (embedTexts E _); cbn [snd].
  - constructor; [intros; discriminate | apply IH].
  - apply IH.
Qed.

(** X20: [handleIngest] posts [ingested], with the numbers of files
    and chunks, as its last message and only once; except when the
    retrieval is dense or hybrid, the embedder loads and there is no
    chunk: then it returns after [embedderReady] and posts no
    [ingested] message at all. *)
Theorem ingest_reports_once (E : Embedder num) (w : Worker num)
        (files : list IngestFile) (method : option ChunkingMethod)
        (retrieval : Retrieval) :
  let chunks := parseAndChunk files method in
  let msgs := snd (handleIngest E w files method retrieval) in
  let silent :=
    retrieval <> sparse /\ chunks = [] /\ snd (ensureEmbedder E w) = None in
  (silent ->
   Forall (fun msg => forall d c, msg <> ingested d c) msgs /\
   exists before, msgs = before ++ [embedderReadyMsg]) /\
  (~ silent ->
   exists before,
     msgs = before ++ [ingested (List.length files) (List.length chunks)] /\
     Forall (fun msg => forall d c, msg <> ingested d c) before).
Proof.
  intros chunks msgs silent. subst msgs silent. unfold handleIngest.
  fold chunks.
  set (loading := match embedderReady w with
                  | None => [embedderLoading]
                  | Some _ => @nil (RAGWorkerResponse num)
                  end).
  assert (Hloading : forall l : list (RAGWorkerResponse num),
            Forall (fun msg => forall d c, msg <> ingested d c) l ->
            Forall (fun msg => forall d c, msg <> ingested d c) (loading ++ l)).
  { intros l Hl. subst loading. destruct (embedderReady w); cbn [app]; [exact Hl|].
    constructor; [intros; discriminate | exact Hl]. }
  assert (Hens : forall w1 : Worker num, embedderReady w1 = embedderReady w ->
                 snd (ensureEmbedder E w1) = snd (ensureEmbedder E w)).
  { intros w1 Hw1. unfold ensureEmbedder. rewrite Hw1.
    destruct (embedderReady w); reflexivity. }
  destruct retrieval; cbn [snd].
  - split; [intros [Hr _]; congruence|]. intros _. exists []. split; [reflexivity | constructor].
  - cbn [embedderReady]. fold loading.
    match goal with
    | |- context [ensureEmbedder E (Build_Worker ?i ?m ?v ?r)] =>
        rewrite !(Hens (Build_Worker i m v r) eq_refl)
    end.
    destruct (snd (ensureEmbedder E w)) as [err|] eqn:Eo; cbn [snd].
    + split; [intros [_ [_ Hn]]; discriminate|]. intros _.
      exists (loading ++ [embedderFailed (failed_message err)]). split.
      * rewrite <- app_assoc. reflexivity.
      * apply Hloading. constructor; [intros; discriminate | constructor].
    + destruct chunks as [|c0 chunks0] eqn:Ec; cbn [snd].
      * split.
        -- intros _. split; [|eexists; reflexivity].
           apply Hloading. constructor; [intros; discriminate | constructor].
        -- intros Hns. exfalso. apply Hns. repeat split; congruence.
      * split; [intros [_ [Hn _]]; discriminate|]. intros _.
        match goal with
        | |- context [embed_batches ?f E ?rest ?m] => set (r := embed_batches f E rest m)
        end.
        exists (loading ++ [embedderReadyMsg; embeddingStarted (List.length (c0 :: chunks0))]
                  ++ snd r).
        split.
        -- rewrite <- app_assoc. reflexivity.
        -- apply Hloading. constructor; [intros; discriminate|].
           constructor; [intros; discriminate|]. apply embed_batches_messages.
  - cbn [embedderReady]. fold loading.
    match goal with
    | |- context [ensureEmbedder E (Build_Worker ?i ?m ?v ?r)] =>
        rewrite !(Hens (Build_Worker i m v r) eq_refl)
    end.
    destruct (snd (ensureEmbedder E w)) as [err|] eqn:Eo; cbn [snd].
    + split; [intros [_ [_ Hn]]; discriminate|]. intros _.
      exists (loading ++ [embedderFailed (failed_message err)]). split.
      * rewrite <- app_assoc. reflexivity.
      * apply Hloading. constructor; [intros; discriminate | constructor].
    + destruct chunks as [|c0 chunks0] eqn:Ec; cbn [snd].
      * split.
        -- intros _. split; [|eexists; reflexivity].
           apply Hloading. constructor; [intros; discriminate | constructor].
        -- intros Hns. exfalso. apply Hns. repeat split; congruence.
      * split; [intros [_ [Hn _]]; discriminate|]. intros _.
        match goal with
        | |- context [embed_batches ?f E ?rest ?m] => set (r := embed_batches f E rest m)
        end.
        exists (loading ++ [embedderReadyMsg; embeddingStarted (List.length (c0 :: chunks0))]
                  ++ snd r).
        split.
        -- rewrite <- app_assoc. reflexivity.
        -- apply Hloading. constructor; [intros; discriminate|].
           constructor; [intros; discriminate|]. apply embed_batches_messages.
Qed.
End StoredChunks.

Lemma token_chunks_all_stored_witness :
  by_tokens (Some (fixed_tokens 2)) = true /\
  NoDup (map path [ {| path := "a"; f_text := "x y z" |};
                    {| path := "b"; f_text := "x y z" |} ]) /\
  JSMap.keys
    (chunkIdToChunk
       (fst (@handleIngest float (float_number series_log) (ascii_host None) no_embedder
               (@new_Worker float (float_number series_log))
               [ {| path := "a"; f_text := "x y z" |};
                 {| path := "b"; f_text := "x y z" |} ]
               (Some (fixed_tokens 2)) sparse)))
  = ["a:0-3"; "a:4-5"; "b:0-3"; "b:4-5"].
Proof.
  assert (Hnd : NoDup (map path [ {| path := "a"; f_text := "x y z" |};
                                  {| path := "b"; f_text := "x y z" |} ])).
  { simpl. distinct_strings. }
  split; [reflexivity|]. split; [exact Hnd|].
  rewrite (proj2 (@token_chunks_all_stored float (float_number series_log)
                    (ascii_host None) no_embedder _ (Some (fixed_tokens 2)) sparse
                    eq_refl Hnd)).
  reflexivity.
Defined.

(** ** The embedder: a failure is kept, a success embeds every chunk *)

Section EmbedderFacts.
Context {num : Type} {NUM : Number num} {H : Host}.
Import JSMap JSMapFacts.

Lemma ensureEmbedder_cached (E : Embedder num) (w : Worker num) outcome :
  embedderReady w = Some outcome -> ensureEmbedder E w = (w, outcome).
Proof. intros Hw. unfold ensureEmbedder. now rewrite Hw. Qed.

Lemma failed_ingest (E : Embedder num) (w : Worker num) files method retrieval err :
  retrieval <> sparse -> snd (ensureEmbedder E w) = Some err ->
  let r := handleIngest E w files method retrieval in
  embedderReady (fst r) = Some (Some err) /\
  embeddingsByChunkId (fst r) = embeddingsByChunkId w /\
  In (embedderFailed (failed_message err)) (snd r).
Proof.
  intros Hr Hfail. cbv zeta. unfold handleIngest.
  assert (Hens : forall w1 : Worker num,
            embedderReady w1 = embedderReady w ->
            snd (ensureEmbedder E w1) = Some err /\
            embedderReady (fst (ensureEmbedder E w1)) = Some (Some err) /\
            embeddingsByChunkId (fst (ensureEmbedder E w1)) = embeddingsByChunkId w1).
  { intros w1 Hw1. unfold ensureEmbedder in *. rewrite Hw1.
    destruct (embedderReady w) as [o|] eqn:Ew; cbn [fst snd] in *.
    - subst o. rewrite Hw1. auto.
    - cbn [embedderReady embeddingsByChunkId]. rewrite Hfail. auto. }
  destruct retrieval; [congruence| |];
    match goal with
    | |- context [ensureEmbedder E (Build_Worker ?i ?m ?v ?r)] =>
        destruct (Hens (Build_Worker i m v r) eq_refl) as [Ho [Hready Hemb]]
    end;
    rewrite Ho; cbn [fst snd]; rewrite Hready, Hemb; cbn [embeddingsByChunkId];
    (split; [reflexivity|]); (split; [reflexivity|]);
    apply in_or_app; right; left; reflexivity.
Qed.

(** X21: once loading the embedding model has failed during a dense or
    hybrid ingest, the failure is kept: with whatever embedder, every
    later dense or hybrid search posts no result, and every later
    dense or hybrid ingest posts [embedderFailed] again and stores no
    embedding.  The load is not tried a second time. *)
Theorem embedder_failure_is_kept (E E' : Embedder num) (w : Worker num)
        (files : list IngestFile) (method : option ChunkingMethod)
        (retrieval : Retrieval) (err : string) :
  retrieval <> sparse -> embedderReady w = None -> load_error E = Some err ->
  let w' := fst (handleIngest E w files method retrieval) in
  embedderReady w' = Some (Some err) /\
  embeddingsByChunkId w' = embeddingsByChunkId w /\
  (forall query topK mode, mode <> sparse ->
     handleSearch E' w' query topK (Some mode) = (w', None)) /\
  (forall files' method' retrieval', retrieval' <> sparse ->
     let r := handleIngest E' w' files' method' retrieval' in
     In (embedderFailed (failed_message err)) (snd r) /\
     embeddingsByChunkId (fst r) = embeddingsByChunkId w /\
     embedderReady (fst r) = Some (Some err)).
Proof.
  intros Hr Hw Hload w'.
  assert (Hfirst : snd (ensureEmbedder E w) = Some err).
  { unfold ensureEmbedder. rewrite Hw. exact Hload. }
  destruct (@failed_ingest E w files method retrieval err Hr Hfirst)
    as [Hready [Hemb _]].
  fold w' in Hready, Hemb.
  pose proof (@ensureEmbedder_cached E' w' _ Hready) as Hc.
  split; [exact Hready|]. split; [exact Hemb|]. split.
  - intros query topK mode Hmode.
    destruct mode; [congruence| |]; unfold handleSearch, query_vector;
      rewrite Hc; reflexivity.
  - intros files' method' retrieval' Hr'.
    assert (Hagain : snd (ensureEmbedder E' w') = Some err) by (now rewrite Hc).
    destruct (@failed_ingest E' w' files' method' retrieval' err Hr' Hagain)
      as [Hready' [Hemb' Hmsg]].
    cbv zeta. split; [exact Hmsg|]. split; [|exact Hready'].
    rewrite Hemb'. exact Hemb.
Qed.

(** The id [k] has an embedding stored. *)
Lemma store_batch_vectors (batch : list Chunk.t) :
  forall (vecs : list (list num)) (m : JSMap.t (option (list num))),
  List.length vecs = List.length batch ->
  (forall k, (exists v, get m k = Some (Some v)) ->
             exists v, get (store_batch batch vecs m) k = Some (Some v)) /\
  (forall c, In c batch ->
             exists v, get (store_batch batch vecs m) (Chunk.id c) = Some (Some v)).
Proof.
  induction batch as [|c batch IH]; intros vecs m Hlen; cbn [store_batch].
  - split; [auto | intros c []].
  - destruct vecs as [|v vecs]; [discriminate|]. cbn [hd_error tl].
    destruct (IH vecs (set (Chunk.id c) (Some v) m)) as [Hkeep Hnew];
      [simpl in Hlen; lia|].
    assert (Hset : forall k, (exists u, get m k = Some (Some u)) \/ k = Chunk.id c ->
                   exists u, get (set (Chunk.id c) (Some v) m) k = Some (Some u)).
    { intros k [Hk | ->]; [|exists v; apply get_set_same].
      destruct (string_dec (Chunk.id c) k) as [<-|Hne];
        [exists v; apply get_set_same|].
      rewrite (get_set_other _ _ Hne). exact Hk. }
    split.
    + intros k Hk. apply Hkeep, Hset. now left.
    + intros c' [<- | Hc']; [apply Hkeep, Hset; now right | apply Hnew; exact Hc'].
Qed.

Lemma embed_batches_vectors (E : Embedder num) :
  (forall texts, exists vecs,
      embedTexts E texts = Some vecs /\ List.length vecs = List.length texts) ->
  forall fuel rest m, List.length rest <= fuel ->
  (forall k, (exists v, get m k = Some (Some v)) ->
             exists v, get (fst (embed_batches fuel E rest m)) k = Some (Some v)) /\
  (forall c, In c rest ->
             exists v, get (fst (embed_batches fuel E rest m)) (Chunk.id c) = Some (Some v)) /\
  fold_right (fun msg n => match msg with embeddingsBuilt k => k + n | _ => n end) 0
             (snd (embed_batches fuel E rest m)) = List.length rest.
Proof.
  intros HE. induction fuel as [|fuel IH]; intros rest m Hfuel.
  - destruct rest; [|simpl in Hfuel; lia]. cbn [embed_batches fst snd fold_right].
    split; [auto|]. split; [intros c []| reflexivity].
  - destruct rest as [|c0 rest0]; cbn [embed_batches].
    + cbn [fst snd fold_right]. split; [auto|]. split; [intros c []| reflexivity].
    + set (rest := c0 :: rest0) in *.
      destruct (HE (map Chunk.text (firstn 10 rest))) as [vecs [-> Hlen]].
      rewrite length_map in Hlen. cbn [fst snd fold_right].
      destruct (@store_batch_vectors (firstn 10 rest) vecs m Hlen) as [Hkeep Hnew].
      destruct (IH (skipn 10 rest) (store_batch (firstn 10 rest) vecs m))
        as [Hkeep' [Hnew' Hcount]].
      { rewrite length_skipn. subst rest. cbn [List.length] in *. lia. }
      split; [|split].
      * intros k Hk. apply Hkeep', Hkeep, Hk.
      * intros c Hc. rewrite <- (firstn_skipn 10 rest) in Hc.
        apply in_app_or in Hc. destruct Hc as [Hc|Hc];
          [apply Hkeep', Hnew, Hc | apply Hnew', Hc].
      * rewrite Hcount. rewrite <- (firstn_skipn 10 rest) at 3.
        rewrite length_app. reflexivity.
Qed.

(** X22: when the embedder loads and returns one vector for each text
    it is given, a dense or hybrid ingest leaves an embedding stored
    under the id of every chunk of the ingest, keeps the embeddings
    that were stored before, and the counts of its [embeddingsBuilt]
    messages add up to the number of chunks. *)
Theorem ingest_embeds_every_chunk (E : Embedder num) (w : Worker num)
        (files : list IngestFile) (method : option ChunkingMethod)
        (retrieval : Retrieval) :
  retrieval <> sparse ->
  snd (ensureEmbedder E w) = None ->
  (forall texts, exists vecs,
      embedTexts E texts = Some vecs /\ List.length vecs = List.length texts) ->
  let r := handleIngest E w files method retrieval in
  (forall c, In c (parseAndChunk files method) ->
     exists v, get (embeddingsByChunkId (fst r)) (Chunk.id c) = Some (Some v)) /\
  (forall k, (exists v, get (embeddingsByChunkId w) k = Some (Some v)) ->
     exists v, get (embeddingsByChunkId (fst r)) k = Some (Some v)) /\
  fold_right (fun msg n => match msg with embeddingsBuilt k => k + n | _ => n end) 0
             (snd r) = List.length (parseAndChunk files method).
Proof.
  intros Hr Hok HE. cbv zeta. unfold handleIngest.
  assert (Hens : forall w1 : Worker num,
            embedderReady w1 = embedderReady w ->
            snd (ensureEmbedder E w1) = None /\
            embeddingsByChunkId (fst (ensureEmbedder E w1)) = embeddingsByChunkId w1).
  { intros w1 Hw1. unfold ensureEmbedder in *. rewrite Hw1.
    destruct (embedderReady w) as [o|] eqn:Ew; cbn [fst snd] in *.
    - subst o. auto.
    - cbn [embeddingsByChunkId]. auto. }
  set (loading := match embedderReady w with
                  | None => [embedderLoading]
                  | Some _ => @nil (RAGWorkerResponse num)
                  end).
  assert (Hloading : forall l : list (RAGWorkerResponse num),
            fold_right (fun msg n => match msg with embeddingsBuilt k => k + n | _ => n end)
                       0 (loading ++ l) =
            fold_right (fun msg n => match msg with embeddingsBuilt k => k + n | _ => n end)
                       0 l).
  { intros l. subst loading. destruct (embedderReady w); reflexivity. }
  destruct retrieval; [congruence| |];
    cbn [embedderReady]; fold loading;
    match goal with
    | |- context [ensureEmbedder E (Build_Worker ?i ?m ?v ?r)] =>
        destruct (Hens (Build_Worker i m v r) eq_refl) as [Ho Hemb]
    end;
    rewrite Ho; cbn [embeddingsByChunkId] in Hemb;
    (destruct (parseAndChunk files method) as [|c0 chunks0] eqn:Ec;
     [ cbn [fst snd]; rewrite Hemb, Hloading; cbn [fold_right];
       split; [intros c []|]; split; [auto | reflexivity]
     | cbn [fst snd embeddingsByChunkId]; rewrite Hemb;
       match goal with
       | |- context [embed_batches ?f E ?rest ?m] =>
           destruct (@embed_batches_vectors E HE f rest m (Nat.le_refl _))
             as [Hkeep [Hnew Hcount]];
           set (res := embed_batches f E rest m) in *
       end;
       split; [exact Hnew|]; split; [exact Hkeep|];
       rewrite Hloading; cbn [app fold_right];
       rewrite fold_right_app; cbn [fold_right]; exact Hcount ]).
Qed.
End EmbedderFacts.

Lemma embedder_failure_is_kept_witness :
  dense <> sparse /\
  embedderReady (@new_Worker float (float_number series_log)) = None /\
  load_error (@no_embedder float) = Some "Error: model unavailable" /\
  @handleSearch float (float_number series_log) (ascii_host None)
    (@unit_embedder float (float_number series_log))
    (fst (@handleIngest float (float_number series_log) (ascii_host None) no_embedder
            (@new_Worker float (float_number series_log)) cat_files None dense))
    "cat" None (Some hybrid)
  = (fst (@handleIngest float (float_number series_log) (ascii_host None) no_embedder
            (@new_Worker float (float_number series_log)) cat_files None dense),
     None).
Proof.
  assert (Hr : dense <> sparse) by discriminate.
  split; [exact Hr|]. split; [reflexivity|]. split; [reflexivity|].
  apply (@embedder_failure_is_kept float (float_number series_log) (ascii_host None)
           no_embedder (@unit_embedder float (float_number series_log))
           (@new_Worker float (float_number series_log)) cat_files None dense
           "Error: model unavailable" Hr eq_refl eq_refl).
  discriminate.
Defined.

Lemma ingest_embeds_every_chunk_witness :
  hybrid <> sparse /\
  snd (ensureEmbedder (@unit_embedder float (float_number series_log))
         (@new_Worker float (float_number series_log))) = None /\
  (forall texts, exists vecs,
      embedTexts (@unit_embedder float (float_number series_log)) texts = Some vecs /\
      List.length vecs = List.length texts) /\
  exists v,
    JSMap.get
      (embeddingsByChunkId
         (fst (@handleIngest float (float_number series_log) (ascii_host None)
                 (@unit_embedder float (float_number series_log))
                 (@new_Worker float (float_number series_log))
                 cat_files (Some (fixed_tokens 10)) hybrid)))
      (Chunk.id cat_chunk1) = Some (Some v).
Proof.
  assert (Hr : hybrid <> sparse) by discriminate.
  assert (HE : forall texts, exists vecs,
      embedTexts (@unit_embedder float (float_number series_log)) texts = Some vecs /\
      List.length vecs = List.length texts).
  { intros texts. eexists. split; [reflexivity|]. apply length_map. }
  split; [exact Hr|]. split; [reflexivity|]. split; [exact HE|].
  apply (proj1 (@ingest_embeds_every_chunk float (float_number series_log)
                  (ascii_host None) (@unit_embedder float (float_number series_log))
                  (@new_Worker float (float_number series_log))
                  cat_files (Some (fixed_tokens 10)) hybrid Hr eq_refl HE)).
  vm_compute. left. reflexivity.
Defined.

(** ** [cosineSimilarity] *)

Section Cosine.
Local Open Scope R_scope.

Let RN : Number R := real_number.

Let step (acc : R * R * R) (xy : R * R) : R * R * R :=
  let '(dot, na, nb) := acc in
  (dot + fst xy * snd xy, na + fst xy * fst xy, nb + snd xy * snd xy).

Lemma cauchy_schwarz_step d A B x y :
  d * d <= A * B -> 0 <= A -> 0 <= B ->
  (d + x * y) * (d + x * y) <= (A + x * x) * (B + y * y).
Proof.
  intros Hd HA HB.
  assert (Hcross : 2 * d * x * y <= A * (y * y) + B * (x * x)).
  { destruct (Rle_lt_dec (2 * d * x * y) (A * (y * y) + B * (x * x))) as [Hle|Hgt];
      [exact Hle|].
    exfalso.
    assert (HP : 0 <= A * (y * y) + B * (x * x)).
    { pose proof (Rle_0_sqr x) as Hx. pose proof (Rle_0_sqr y) as Hy.
      unfold Rsqr in *. nra. }
    assert (HQ2 : (A * (y * y) + B * (x * x)) * (A * (y * y) + B * (x * x))
                  < (2 * d * x * y) * (2 * d * x * y)) by nra.
    assert (HP2 : 4 * (A * B) * ((x * y) * (x * y))
                  <= (A * (y * y) + B * (x * x)) * (A * (y * y) + B * (x * x))).
    { pose proof (Rle_0_sqr (A * (y * y) - B * (x * x))) as Hsq. unfold Rsqr in Hsq. nra. }
    assert (HQ : (2 * d * x * y) * (2 * d * x * y) <= 4 * (A * B) * ((x * y) * (x * y))).
    { pose proof (Rle_0_sqr (x * y)) as Hxy. unfold Rsqr in Hxy.
      replace ((2 * d * x * y) * (2 * d * x * y)) with (4 * (d * d) * ((x * y) * (x * y)))
        by ring.
      apply Rmult_le_compat_r; [exact Hxy | lra]. }
    lra. }
  nra.
Qed.

Lemma cosine_sums_bound l : forall d A B,
  d * d <= A * B -> 0 <= A -> 0 <= B ->
  let '(d', A', B') := fold_left step l (d, A, B) in
  d' * d' <= A' * B' /\ 0 <= A' /\ 0 <= B'.
Proof.
  induction l as [|[x y] l IH]; intros d A B Hd HA HB; cbn [fold_left]; [auto|].
  cbn [step fst snd]. apply IH.
  - apply cauchy_schwarz_step; assumption.
  - pose proof (Rle_0_sqr x) as Hx. unfold Rsqr in Hx. lra.
  - pose proof (Rle_0_sqr y) as Hy. unfold Rsqr in Hy. lra.
Qed.

Lemma cosine_sums_swap a : forall c d A B,
  fold_left step (combine c a) (d, B, A) =
  (let '(d', A', B') := fold_left step (combine a c) (d, A, B) in (d', B', A')).
Proof.
  induction a as [|x a IH]; intros [|y c] d A B; cbn [combine fold_left]; try reflexivity.
  cbn [step fst snd]. rewrite (Rmult_comm y x). apply IH.
Qed.

Lemma cosine_unfold (a c : list R) :
  @cosineSimilarity R RN a c =
  if (List.length a =? 0)%nat || (List.length c =? 0)%nat then 0
  else if negb (List.length a =? List.length c)%nat then 0
  else let '(dot, na, nb) := fold_left step (combine a c) (0, 0, 0) in
       dot / (sqrt na * sqrt nb + 1 / 100000000).
Proof. reflexivity. Qed.

Lemma cosine_real_symmetric (a c : list R) :
  @cosineSimilarity R RN a c = @cosineSimilarity R RN c a.
Proof.
  rewrite !cosine_unfold.
  destruct (Nat.eqb_spec (List.length a) 0), (Nat.eqb_spec (List.length c) 0),
           (Nat.eqb_spec (List.length a) (List.length c)),
           (Nat.eqb_spec (List.length c) (List.length a));
    cbn [orb negb]; try reflexivity; try lia.
  rewrite (@cosine_sums_swap a c 0 0 0).
  destruct (fold_left step (combine a c) (0, 0, 0)) as [[d A] B].
  rewrite (Rmult_comm (sqrt B)). reflexivity.
Qed.

Lemma cosine_real_bounded (a c : list R) : -1 < @cosineSimilarity R RN a c < 1.
Proof.
  rewrite cosine_unfold.
  destruct (_ || _); [lra|]. destruct (negb _); [lra|].
  pose proof (@cosine_sums_bound (combine a c) 0 0 0) as Hb.
  destruct (fold_left step (combine a c) (0, 0, 0)) as [[d A] B].
  destruct Hb as [Hd [HA HB]]; [lra | lra | lra |].
  pose proof (sqrt_pos A) as HsA. pose proof (sqrt_pos B) as HsB.
  pose proof (sqrt_sqrt A HA) as HAA. pose proof (sqrt_sqrt B HB) as HBB.
  set (S := sqrt A * sqrt B) in *.
  assert (HS : 0 <= S) by (unfold S; nra).
  assert (HSS : S * S = A * B) by (unfold S; nra).
  assert (Hrange : - S <= d <= S) by nra.
  assert (Hpos : 0 < S + 1 / 100000000) by lra.
  pose proof (Rinv_0_lt_compat _ Hpos) as Hinv.
  assert (Hone : (S + 1 / 100000000) * / (S + 1 / 100000000) = 1)
    by (apply Rinv_r; lra).
  unfold Rdiv at 1 2. nra.
Qed.

(** X23: in exact arithmetic the cosine similarity of two vectors does
    not depend on their order and lies strictly between -1 and 1; and
    in every arithmetic it is 0 when the vectors differ in length or
    one of them is empty. *)
Theorem cosineSimilarity_symmetric_bounded (a c : list R) :
  @cosineSimilarity R RN a c = @cosineSimilarity R RN c a /\
  -1 < @cosineSimilarity R RN a c < 1 /\
  (forall (num : Type) (NUM : Number num) (u v : list num),
     List.length u <> List.length v \/ u = [] \/ v = [] ->
     @cosineSimilarity num NUM u v = n0).
Proof.
  split; [apply cosine_real_symmetric|]. split; [apply cosine_real_bounded|].
  intros num NUM u v Hcase. unfold cosineSimilarity.
  destruct u as [|x u]; [reflexivity|]. destruct v as [|y v];
    [cbn [List.length Nat.eqb orb]; reflexivity|].
  destruct Hcase as [Hlen | [Hu | Hv]]; try discriminate.
  cbn [List.length Nat.eqb orb] in *.
  destruct (Nat.eqb_spec (List.length u) (List.length v)) as [Heq|Hne]; [lia|].
  reflexivity.
Qed.
End Cosine.

(** ** Hybrid search when no embedding is stored *)

Section HybridDegenerate.
Context {H : Host}.
Import JSMap JSMapFacts.

Local Open Scope R_scope.

Let RN : Number R := real_number.







End HybridDegenerate.


(** ** Posting lists and the BM25 sum *)

Section PostingLists.
Context {num : Type} {NUM : Number num} {H : Host}.
Import JSMap JSMapFacts.

Lemma addDocument_postings_absent (idx : BM25Index num) doc t :
  ~ In t (tokenize (text doc)) ->
  get (vocab (addDocument idx doc)) t = get (vocab idx) t.
Proof.
  intros Hout. unfold addDocument. cbn [vocab]. apply push_postings_other.
  unfold entries. rewrite count_terms_keys. exact Hout.
Qed.

Lemma has_term_In t d : has_term t d = true <-> In t (tokenize (text d)).
Proof.
  unfold has_term. rewrite existsb_exists. split.
  - intros [x [Hx Heq]]. apply String.eqb_eq in Heq. now subst.
  - intros Hin. exists t. split; [exact Hin | apply String.eqb_refl].
Qed.

Lemma postings_of_documents docs : forall (idx : BM25Index num) t,
  get_or (vocab (addDocuments idx docs)) t [] =
  get_or (vocab idx) t []
    ++ map (fun d => {| docId := id d;
                        tf := counted_up (count_occ string_dec (tokenize (text d)) t) |})
           (filter (has_term t) docs).
Proof.
  induction docs as [|d docs IH]; intros idx t.
  - cbn [addDocuments fold_left filter map]. now rewrite app_nil_r.
  - cbn [addDocuments fold_left]. fold (addDocuments (addDocument idx d) docs).
    rewrite IH. cbn [filter].
    destruct (has_term t d) eqn:Eh.
    + apply has_term_In in Eh.
      destruct (@addDocument_postings num NUM H idx d t Eh) as [f [Hf Hv]].
      rewrite count_terms_get in Hf.
      pose proof (proj1 (count_occ_In string_dec _ _) Eh) as Hpos.
      destruct (count_occ string_dec (tokenize (text d)) t) as [|k] eqn:Ek; [lia|].
      injection Hf as <-.
      unfold get_or at 1. rewrite Hv. cbn [map]. rewrite Ek, <- app_assoc. reflexivity.
    + assert (Hout : ~ In t (tokenize (text d))).
      { intros Hin. apply has_term_In in Hin. congruence. }
      unfold get_or at 1. rewrite (@addDocument_postings_absent idx d _ Hout). reflexivity.
Qed.

(** X25: the posting list of a term lists, after the postings it had,
    one posting for each added document that holds the term, in the
    order the documents were added (a document added twice is listed
    twice), each with the count of the term in the document.  On a
    fresh index the length of the list is the number of added
    documents that hold the term. *)
Theorem postings_list_documents (idx : BM25Index num) (docs : list BM25Doc) (t : string) :
  get_or (vocab (addDocuments idx docs)) t [] =
    get_or (vocab idx) t []
      ++ map (fun d => {| docId := id d;
                          tf := counted_up (count_occ string_dec (tokenize (text d)) t) |})
             (filter (has_term t) docs) /\
  List.length (get_or (vocab (addDocuments new_BM25Index docs)) t []) =
    List.length (filter (has_term t) docs) /\
  (get (vocab (addDocuments new_BM25Index docs)) t = None <->
   Forall (fun d => ~ In t (tokenize (text d))) docs).
Proof.
  split; [apply postings_of_documents|]. split.
  - rewrite postings_of_documents. cbn [new_BM25Index vocab].
    unfold get_or at 1. cbn [get JSMap.empty app]. apply length_map.
  - assert (Hgen : forall ds (i : BM25Index num) t0,
               get (vocab (addDocuments i ds)) t0 = None <->
               get (vocab i) t0 = None /\ Forall (fun d => ~ In t0 (tokenize (text d))) ds).
    { induction ds as [|d ds IHd]; intros i t0.
      - cbn [addDocuments fold_left]. split; [intros Hn; split; [exact Hn | constructor]|].
        intros [Hn _]. exact Hn.
      - cbn [addDocuments fold_left]. fold (addDocuments (addDocument i d) ds).
        rewrite IHd. split.
        + intros [Hn Hds].
          destruct (in_dec string_dec t0 (tokenize (text d))) as [Hin|Hout].
          * destruct (@addDocument_postings num NUM H i d t0 Hin) as [f [_ Hv]].
            congruence.
          * rewrite (@addDocument_postings_absent i d _ Hout) in Hn.
            split; [exact Hn | constructor; assumption].
        + intros [Hn Hall]. inversion Hall as [|? ? Hout Hds]; subst.
          split; [|exact Hds]. rewrite (@addDocument_postings_absent i d _ Hout). exact Hn. }
    rewrite Hgen. split; [intros [_ Hd]; exact Hd|].
    intros Hd. split; [reflexivity | exact Hd].
Qed.
End PostingLists.

(** ** The BM25 sum, in exact arithmetic *)

Section BM25Sum.
Context {H : Host}.
Import JSMap JSMapFacts.

Local Open Scope R_scope.

Let RN : Number R := real_number.

Lemma get_or_set_same (m : JSMap.t R) k v d : get_or (set k v m) k d = v.
Proof. unfold get_or. now rewrite get_set_same. Qed.

Lemma get_or_set_other (m : JSMap.t R) k k' v d :
  k <> k' -> get_or (set k v m) k' d = get_or m k' d.
Proof. intros Hne. unfold get_or. now rewrite (get_set_other _ _ Hne). Qed.

Lemma score_postings_sum (idx : BM25Index R) avgdl idf ps : forall scores x,
  get_or (fold_left (@score_posting R RN idx avgdl idf) ps scores) x 0 =
  get_or scores x 0
  + sum_R (map (@posting_score R RN idx avgdl idf)
               (filter (fun p => String.eqb (docId p) x) ps)).
Proof.
  induction ps as [|p ps IH]; intros scores x; cbn [fold_left filter map sum_R fold_right].
  - lra.
  - rewrite IH.
    change (@score_posting R RN idx avgdl idf scores p)
      with (set (docId p)
                (get_or scores (docId p) 0 + @posting_score R RN idx avgdl idf p) scores).
    destruct (String.eqb_spec (docId p) x) as [->|Hne].
    + rewrite get_or_set_same. unfold sum_R. cbn [map fold_right]. lra.
    + rewrite (get_or_set_other _ _ _ Hne). reflexivity.
Qed.

Lemma score_terms_sum (idx : BM25Index R) ts : forall scores x,
  get_or (fold_left (@score_term R RN idx (totalDocs idx) (@avgDocLen R RN idx)) ts scores)
         x 0 =
  get_or scores x 0 + sum_R (map (term_contribution idx x) ts).
Proof.
  induction ts as [|t ts IH]; intros scores x; cbn [fold_left map].
  - unfold sum_R. cbn [fold_right]. lra.
  - rewrite IH. unfold sum_R. cbn [fold_right].
    set (rest := fold_right Rplus 0 (map (term_contribution idx x) ts)).
    unfold score_term, term_contribution.
    destruct (get (vocab idx) t) as [ps|]; [|lra].
    rewrite score_postings_sum. unfold term_idf, sum_R. rewrite Rplus_assoc. reflexivity.
Qed.

(** X26: in exact arithmetic the score that [search] gives a document
    is the BM25 sum: over the tokens of the query in order, a repeated
    token counting again, the scores
    [idf * tf * (k1 + 1) / (tf + k1 * (1 - b + b * dl / avgdl))] of the
    postings that the token's term has for the document. *)
Theorem bm25_score_is_sum (idx : BM25Index R) (query : string) (topK : Z) :
  (forall x,
     get_or (@search_scores R RN H idx query) x 0 =
     sum_R (map (term_contribution idx x) (tokenize query))) /\
  Forall (fun r => score r =
                   sum_R (map (term_contribution idx (r_docId r)) (tokenize query)))
         (@search R RN H idx query topK).
Proof.
  assert (Hsum : forall x,
     get_or (@search_scores R RN H idx query) x 0 =
     sum_R (map (term_contribution idx x) (tokenize query))).
  { intros x. unfold search_scores. rewrite score_terms_sum.
    unfold get_or at 1. cbn [get JSMap.empty]. lra. }
  split; [exact Hsum|].
  apply Forall_forall. intros r Hr. apply search_in_scores in Hr.
  apply (@In_get_wf _ _ _ _ (@search_scores_wf R RN H idx query)) in Hr.
  rewrite <- Hsum. unfold get_or. rewrite Hr. reflexivity.
Qed.

Lemma totals_after (docs : list BM25Doc) : forall idx : BM25Index R,
  totalDocs (@addDocuments R RN H idx docs) = totalDocs idx + INR (List.length docs) /\
  totalDocLength (@addDocuments R RN H idx docs) =
    totalDocLength idx
    + INR (list_sum (map (fun d => List.length (tokenize (text d))) docs)).
Proof.
  induction docs as [|d docs IH]; intros idx.
  - cbn [addDocuments fold_left List.length map list_sum fold_right INR]. split; lra.
  - cbn [addDocuments fold_left]. fold (@addDocuments R RN H (@addDocument R RN H idx d) docs).
    destruct (IH (@addDocument R RN H idx d)) as [-> ->].
    cbn [addDocument totalDocs totalDocLength map list_sum fold_right].
    change (List.length (d :: docs)) with (S (List.length docs)).
    rewrite S_INR, plus_INR. cbn [nadd n1 of_nat RN real_number].
    split; [lra | unfold list_sum; lra].
Qed.

(** X27: in exact arithmetic, on an index built from the fresh one,
    [totalDocs] is the number of documents added (a repeated document
    counting again), [totalDocLength] is the number of their tokens,
    and [avgDocLen] is their quotient, or 0 when no document was
    added: the fresh index does not divide by zero. *)
Theorem index_totals (docs : list BM25Doc) :
  let idx := @addDocuments R RN H (@new_BM25Index R RN) docs in
  let tokens := list_sum (map (fun d => List.length (@tokenize H (text d))) docs) in
  totalDocs idx = INR (List.length docs) /\
  totalDocLength idx = INR tokens /\
  @avgDocLen R RN idx =
    match docs with
    | [] => 0
    | _ => INR tokens / INR (List.length docs)
    end.
Proof.
  intros idx tokens.
  destruct (totals_after docs (@new_BM25Index R RN)) as [HN HL].
  fold idx in HN, HL. fold tokens in HL.
  cbn [new_BM25Index totalDocs totalDocLength n0 RN real_number] in HN, HL.
  rewrite Rplus_0_l in HN, HL.
  split; [exact HN|]. split; [exact HL|].
  unfold avgDocLen. rewrite HN, HL. cbn [truthy ndiv n0 RN real_number].
  destruct docs as [|d docs].
  - cbn [List.length INR]. destruct (Req_dec_T 0 0) as [_|Hne]; [reflexivity | lra].
  - destruct (Req_dec_T (INR (List.length (d :: docs))) 0) as [Hz|_]; [|reflexivity].
    exfalso. change (List.length (d :: docs)) with (S (List.length docs)) in Hz.
    rewrite S_INR in Hz. pose proof (pos_INR (List.length docs)). lra.
Qed.
End BM25Sum.

(** ** Dense search *)

Section DenseSearch.
Context {H : Host}.
Import JSMap JSMapFacts.

Local Open Scope R_scope.

Let RN : Number R := real_number.



End DenseSearch.

(** ** [chunkRecursive] on a text without headings *)

Section RecursiveCover.
Context {H : Host}.
Variable docId : string.
Variable targetChars : Z.

Lemma push_buffer_keeps st p :
  buffered_or_covered st p -> section_packer_ok st -> covered (push_buffer docId st) p.
Proof.
  intros [(c & Hin & Hc) | (Hne & Hr)] Hok.
  - exists c. split; [|exact Hc]. unfold push_buffer. apply in_or_app. now left.
  - eexists. split; [unfold push_buffer; apply in_or_app; right; now left|].
    unfold covers. simpl. split; [lia|]. eexists. split; [reflexivity | lia].
Qed.

Lemma pack_section_paragraph_step st part :
  (2 * Z.of_nat (String.length (p_text part)) <= 3 * targetChars)%Z ->
  bufEnd st <= p_start part -> p_start part <= p_end part -> section_packer_ok st ->
  let st' := pack_section_paragraph docId targetChars st part in
  section_packer_ok st' /\ bufEnd st' = p_end part /\
  (forall p, buffered_or_covered st p -> buffered_or_covered st' p) /\
  (forall p, p_start part <= p < p_end part -> nonempty (p_text part) = true ->
             buffered_or_covered st' p).
Proof.
  intros Hsmall Hle Hse Hok st'. unfold st', pack_section_paragraph.
  destruct (Z.ltb_spec (3 * targetChars) (2 * Z.of_nat (String.length (p_text part))))
    as [Hbig|_]; [lia|].
  destruct ((targetChars <? Z.of_nat (String.length (String.append (buffer st) (p_text part))))%Z
            && nonempty (buffer st)) eqn:Eflush.
  - unfold section_packer_ok, buffered_or_covered; simpl.
    split; [intros _; exact Hse | split; [reflexivity | split]].
    + intros p Hp. left. now apply push_buffer_keeps.
    + intros p Hp Hu. right. split; [exact Hu | lia].
  - unfold section_packer_ok, buffered_or_covered; simpl.
    split; [|split; [reflexivity | split]].
    + intros _. destruct (nonempty (buffer st)) eqn:Ea; [|exact Hse].
      specialize (Hok Ea). lia.
    + intros p [Hc | (Hne & Hr)]; [now left|]. right.
      rewrite Hne. split; [now apply nonempty_append_l|].
      specialize (Hok Hne). lia.
    + intros p Hp Hu. right. split.
      * apply nonempty_append_r, nonempty_append_r, Hu.
      * destruct (nonempty (buffer st)) eqn:Ea; [|lia].
        specialize (Hok Ea). lia.
Qed.

Lemma pack_section_paragraphs_steps (text : string) parts : forall lo st,
  parts_chain text lo parts ->
  Forall (fun part => (2 * Z.of_nat (String.length (p_text part)) <= 3 * targetChars)%Z)
         parts ->
  bufEnd st <= lo -> section_packer_ok st ->
  let st' := fold_left (pack_section_paragraph docId targetChars) parts st in
  section_packer_ok st' /\
  (forall p, buffered_or_covered st p -> buffered_or_covered st' p) /\
  (forall part p, In part parts -> p_start part <= p < p_end part ->
                  buffered_or_covered st' p).
Proof.
  induction parts as [|part parts IH]; intros lo st Hch Hsmall Hle Hok; simpl in *.
  - split; [exact Hok|]. split; auto. intros part p [].
  - destruct Hch as (H1 & H2 & H3 & H4 & H5).
    inversion Hsmall as [|? ? Hs Hsmall']; subst.
    destruct (@pack_section_paragraph_step st part Hs) as (Hok1 & Hend1 & Hkeep1 & Hnew1);
      auto; [lia|].
    destruct (IH (p_end part) (pack_section_paragraph docId targetChars st part))
      as (Hok2 & Hkeep2 & Hnew2); auto; [lia|].
    split; [exact Hok2|]. split.
    + intros p Hp. apply Hkeep2, Hkeep1, Hp.
    + intros q p [<- | Hin] Hp.
      * apply Hkeep2, Hnew1; [exact Hp|].
        apply nonempty_length. rewrite H4. unfold slice.
        rewrite length_substring; lia.
      * apply (Hnew2 q p Hin Hp).
Qed.

Lemma splitByHeadings_no_heading (text : string) :
  Forall (fun i => i = 0) (heading_starts_from 0 true text) ->
  splitByHeadings text = [mkPart text 0 (String.length text)] \/
  splitByHeadings text = [mkPart text 0 0; mkPart text 0 (String.length text)].
Proof.
  intros Hz. unfold splitByHeadings.
  destruct (heading_starts_bounds text 0 true) as [_ Hs].
  destruct (heading_starts_from 0 true text) as [|i [|j l]].
  - left. reflexivity.
  - right. inversion Hz; subst. reflexivity.
  - exfalso. inversion Hz as [|? ? Hi Hz']; subst. inversion Hz' as [|? ? Hj _]; subst.
    inversion Hs as [|? ? _ Hlt]; subst. inversion Hlt; subst. lia.
Qed.

(** X29: on a text whose only heading line, if any, is its first
    line, and none of whose paragraphs is longer than one and a half
    times [targetChars], the chunks of [chunkRecursive] cover every
    position that is not white space ([\s] holding the line feed, as
    it does in every engine): there the offsets of the section are the
    offsets of the text. *)
Theorem chunkRecursive_covers_plain_text (text : string) (p : nat) :
  Forall (fun i => i = 0) (heading_starts_from 0 true text) ->
  Forall (fun part => (2 * Z.of_nat (String.length (p_text part)) <= 3 * targetChars)%Z)
         (splitParagraphs text) ->
  isSpace newline = true ->
  nonspace_at text p ->
  covered (chunkRecursive text docId targetChars) p.
Proof.
  intros Hz Hsmall Hnl Hp.
  assert (Hwhole : p_text (mkPart text 0 (String.length text)) = text).
  { unfold mkPart, slice. cbn [p_text]. rewrite Nat.sub_0_r. apply substring_whole. }
  assert (Hone : chunkRecursive text docId targetChars =
                 pack_section docId targetChars [] (mkPart text 0 (String.length text))).
  { unfold chunkRecursive.
    destruct (splitByHeadings_no_heading text Hz) as [-> | ->]; [reflexivity|].
    cbn [fold_left].
    assert (Hblank : pack_section docId targetChars [] (mkPart text 0 0) = []).
    { unfold pack_section, mkPart, slice. cbn [p_text p_start]. rewrite substring_empty.
      rewrite (splitParagraphs_blank "" eq_refl). reflexivity. }
    rewrite Hblank. reflexivity. }
  rewrite Hone. unfold pack_section. rewrite Hwhole. cbn [mkPart p_start].
  destruct (@splitParagraphs_cover H text Hnl p Hp) as (part & Hin & Hr).
  set (st0 := {| out := []; buffer := ""; bufStart := 0; bufEnd := 0 |}).
  destruct (@pack_section_paragraphs_steps text (splitParagraphs text) 0 st0)
    as (Hok & _ & Hnew).
  - apply splitParagraphs_chain.
  - exact Hsmall.
  - simpl. lia.
  - unfold section_packer_ok. simpl. discriminate.
  - specialize (Hnew part p Hin Hr).
    set (st := fold_left (pack_section_paragraph docId targetChars)
                         (splitParagraphs text) st0) in *.
    destruct (nonempty (buffer st)) eqn:Ea.
    + now apply push_buffer_keeps.
    + destruct Hnew as [Hc | [Hne _]]; [exact Hc | congruence].
Qed.
End RecursiveCover.

Lemma chunkRecursive_covers_plain_text_witness :
  Forall (fun i => i = 0)
         (heading_starts_from 0 true
            (String.append "# t" (String newline (String newline "ab cd")))) /\
  Forall (fun part => (2 * Z.of_nat (String.length (p_text part)) <= 3 * 800)%Z)
         (@splitParagraphs (ascii_host None)
            (String.append "# t" (String newline (String newline "ab cd")))) /\
  @isSpace (ascii_host None) newline = true /\
  @nonspace_at (ascii_host None)
     (String.append "# t" (String newline (String newline "ab cd"))) 8 /\
  covered (@chunkRecursive (ascii_host None)
             (String.append "# t" (String newline (String newline "ab cd"))) "doc" 800) 8.
Proof.
  assert (Hz : Forall (fun i => i = 0)
         (heading_starts_from 0 true
            (String.append "# t" (String newline (String newline "ab cd"))))).
  { vm_compute. constructor; [reflexivity | constructor]. }
  assert (Hsmall : Forall (fun part =>
            (2 * Z.of_nat (String.length (p_text part)) <= 3 * 800)%Z)
         (@splitParagraphs (ascii_host None)
            (String.append "# t" (String newline (String newline "ab cd"))))).
  { vm_compute. repeat constructor; discriminate. }
  assert (Hp : @nonspace_at (ascii_host None)
     (String.append "# t" (String newline (String newline "ab cd"))) 8).
  { eexists. split; reflexivity. }
  split; [exact Hz|]. split; [exact Hsmall|]. split; [reflexivity|]. split; [exact Hp|].
  exact (@chunkRecursive_covers_plain_text (ascii_host None) "doc" 800 _ 8
           Hz Hsmall eq_refl Hp).
Defined.

(** ** A text shorter than the target *)

Section ShortText.
Context {H : Host}.

Lemma newline_runs_wide s : forall pos run,
  Forall (fun m : nat * nat => 2 <= snd m) (newline_runs_from pos run s).
Proof.
  assert (Hclose : forall pos run,
            Forall (fun m : nat * nat => 2 <= snd m) (close_run pos run)).
  { intros pos run. unfold close_run. destruct (Nat.leb_spec 2 run); repeat constructor.
    assumption. }
  induction s as [|c s IH]; intros pos run; cbn [newline_runs_from]; [apply Hclose|].
  destruct (Ascii.eqb c newline); [apply IH|].
  apply Forall_app. split; [apply Hclose | apply IH].
Qed.

Lemma parts_apart_weaken parts : forall lo lo',
  lo' <= lo -> parts_apart lo parts -> parts_apart lo' parts.
Proof.
  destruct parts as [|part parts]; simpl; auto.
  intros lo lo' Hle (H1 & H2). split; [lia | exact H2].
Qed.

Lemma paragraph_parts_apart text ms : forall idx,
  separated text idx ms -> Forall (fun m : nat * nat => 2 <= snd m) ms ->
  idx <= String.length text ->
  parts_apart idx (paragraph_parts text idx ms).
Proof.
  induction ms as [|[i l] ms IH]; intros idx Hsep Hwide Hidx; simpl in *.
  - destruct (idx <=? String.length text)%nat eqn:E; simpl; auto.
  - destruct Hsep as (H1 & H2 & H3 & H4).
    inversion Hwide as [|? ? Hl Hwide']; subst. cbn [snd] in Hl.
    split; [lia | split; [lia|]].
    apply parts_apart_weaken with (lo := i + l); [lia|].
    apply IH; [exact H4 | exact Hwide' | lia].
Qed.

Lemma parts_apart_filter (f : Part -> bool) parts : forall lo,
  parts_apart lo parts -> parts_apart lo (filter f parts).
Proof.
  induction parts as [|part parts IH]; intros lo Hch; simpl in *; auto.
  destruct Hch as (H1 & H2 & H3).
  destruct (f part); simpl.
  - repeat split; auto.
  - apply parts_apart_weaken with (lo := p_end part + 2); [lia | auto].
Qed.

Lemma splitParagraphs_apart text : parts_apart 0 (splitParagraphs text).
Proof.
  unfold splitParagraphs. apply parts_apart_filter.
  apply paragraph_parts_apart; [| apply newline_runs_wide | lia].
  replace 0 with (0 - 0) at 1 by lia.
  apply newline_runs_separated; auto; try lia.
Qed.

Lemma append_assoc (a c e : string) :
  String.append (String.append a c) e = String.append a (String.append c e).
Proof. induction a as [|x a IH]; simpl; [reflexivity | now rewrite IH]. Qed.

Lemma length_append (a c : string) :
  String.length (String.append a c) = String.length a + String.length c.
Proof. induction a as [|x a IH]; simpl; [reflexivity | now rewrite IH]. Qed.

Lemma join_blank_line_from units : forall acc,
  fold_left (fun a u => String.append a (String.append blank_line u)) units acc =
  String.concat blank_line (acc :: units).
Proof.
  induction units as [|u units IH]; intros acc; cbn [fold_left]; [reflexivity|].
  rewrite IH. destruct units as [|v units].
  - reflexivity.
  - change (String.concat blank_line (?x :: v :: units))
      with (String.append x (String.append blank_line (String.concat blank_line (v :: units)))).
    change (String.concat blank_line (acc :: u :: v :: units))
      with (String.append acc
              (String.append blank_line
                 (String.append u
                    (String.append blank_line (String.concat blank_line (v :: units)))))).
    rewrite !append_assoc. reflexivity.
Qed.

Lemma last_cons {A : Type} (l : list A) : forall x d, last (x :: l) d = last l x.
Proof.
  induction l as [|y l IH]; intros x d; [reflexivity|].
  change (last (x :: y :: l) d) with (last (y :: l) d). rewrite !IH. reflexivity.
Qed.

Variables (text docId : string) (targetChars sentenceOverlap : Z).
Hypothesis no_segmenter : Segmenter = None.
Hypothesis short : (Z.of_nat (String.length text) < targetChars)%Z.

Lemma pack_paragraphs_no_flush parts : forall lo st,
  parts_chain text lo parts -> parts_apart (lastEnd st + 2) parts ->
  chunks st = [] -> nonempty (accText st) = true ->
  String.length (accText st) + accStart st <= lastEnd st ->
  let st' := fold_left (pack_paragraph docId targetChars sentenceOverlap) parts st in
  chunks st' = [] /\ nonempty (accText st') = true /\
  accStart st' = accStart st /\
  lastEnd st' = last (map p_end parts) (lastEnd st) /\
  accText st' =
    fold_left (fun a u => String.append a (String.append blank_line u))
              (map p_text parts) (accText st).
Proof.
  induction parts as [|part parts IH]; intros lo st Hch Hap Hnone Hne Hlen.
  - cbn [fold_left map last]. auto.
  - cbn [parts_chain] in Hch. destruct Hch as (_ & Hse & Hel & Htext & Hch).
    cbn [parts_apart] in Hap. destruct Hap as (Hgap & _ & Hap).
    assert (Hunit : String.length (p_text part) = p_end part - p_start part).
    { rewrite Htext. unfold slice. apply length_substring. lia. }
    assert (Hstep : pack_paragraph docId targetChars sentenceOverlap st part =
                    {| chunks := chunks st;
                       accText := String.append (accText st)
                                    (String.append blank_line (p_text part));
                       accStart := accStart st;
                       lastEnd := p_end part |}).
    { unfold pack_paragraph. rewrite no_segmenter. unfold flushOrAccumulate.
      rewrite Hne.
      destruct (Z.leb_spec targetChars
                  (Z.of_nat (String.length (String.append (accText st) (p_text part)))))
        as [Hflush|_]; [|reflexivity].
      rewrite length_append in Hflush. lia. }
    cbn [fold_left map]. rewrite Hstep.
    destruct (IH (p_end part)
                {| chunks := chunks st;
                   accText := String.append (accText st)
                                (String.append blank_line (p_text part));
                   accStart := accStart st;
                   lastEnd := p_end part |})
      as (Hc & Hn & Hs & He & Ht); cbn [chunks accText accStart lastEnd]; auto.
    + apply nonempty_append_l. exact Hne.
    + rewrite !length_append. cbn [blank_line String.length]. lia.
    + cbn [chunks accText accStart lastEnd] in *.
      split; [exact Hc|]. split; [exact Hn|]. split; [exact Hs|]. split; [|exact Ht].
      rewrite He. symmetry. apply last_cons.
Qed.

(** X30: on an engine without sentence segmenter, a text shorter than
    [targetChars] gives exactly one chunk, or none when it is blank:
    the chunk runs from the start of the first paragraph to the end of
    the last, and its text is the paragraphs joined by blank lines,
    trimmed. *)
Theorem chunkBySentencesParagraphs_short_text :
  chunkBySentencesParagraphs text docId targetChars sentenceOverlap =
  match splitParagraphs text with
  | [] => []
  | first :: rest =>
      [{| Chunk.id := chunk_id docId (p_start first)
                               (Some (last (map p_end rest) (p_end first)));
          Chunk.docId := docId;
          Chunk.text := trim (String.concat blank_line (map p_text (first :: rest)));
          Chunk.charStart := p_start first;
          Chunk.charEnd := Some (last (map p_end rest) (p_end first)) |}]
  end.
Proof.
  unfold chunkBySentencesParagraphs.
  pose proof (@splitParagraphs_chain H text) as Hch.
  pose proof (splitParagraphs_apart text) as Hap.
  pose proof (@splitParagraphs_nonblank H text) as Hparts.
  destruct (splitParagraphs text) as [|first rest]; [reflexivity|].
  cbn [parts_chain] in Hch. destruct Hch as (_ & Hse & Hel & Htext & Hch).
  cbn [parts_apart] in Hap. destruct Hap as (_ & _ & Hap).
  inversion Hparts as [|? ? Hfirst _]; subst. destruct Hfirst as (Hlt & _ & Htrim).
  assert (Hne : nonempty (p_text first) = true).
  { apply nonempty_length. rewrite Htext. unfold slice. rewrite length_substring; lia. }
  assert (Hstep : pack_paragraph docId targetChars sentenceOverlap
                    {| chunks := []; accText := ""; accStart := 0; lastEnd := 0 |} first =
                  {| chunks := []; accText := p_text first;
                     accStart := p_start first; lastEnd := p_end first |}).
  { unfold pack_paragraph. rewrite no_segmenter. unfold flushOrAccumulate.
    cbn [accText nonempty andb chunks accStart]. rewrite andb_false_r. reflexivity. }
  cbn [fold_left]. rewrite Hstep.
  destruct (@pack_paragraphs_no_flush rest (p_end first)
              {| chunks := []; accText := p_text first;
                 accStart := p_start first; lastEnd := p_end first |})
    as (Hc & Hn & Hs & He & Ht); cbn [chunks accText accStart lastEnd]; auto.
  - rewrite Htext. unfold slice. rewrite length_substring; lia.
  - cbn [chunks accText accStart lastEnd] in *.
    rewrite Hn. unfold push_acc. rewrite Hc, Hs, He, Ht, join_blank_line_from.
    reflexivity.
Qed.
End ShortText.

Lemma chunkBySentencesParagraphs_short_text_witness :
  @Segmenter (ascii_host None) = None /\
  (Z.of_nat (String.length (String.append "one" (String.append blank_line "two"))) < 800)%Z /\
  map Chunk.id
      (@chunkBySentencesParagraphs (ascii_host None)
         (String.append "one" (String.append blank_line "two")) "doc" 800 0)
  = ["doc:0-8"].
Proof.
  assert (Hshort : (Z.of_nat (String.length
                      (String.append "one" (String.append blank_line "two"))) < 800)%Z)
    by (vm_compute; reflexivity).
  split; [reflexivity|]. split; [exact Hshort|].
  rewrite (@chunkBySentencesParagraphs_short_text (ascii_host None)
             (String.append "one" (String.append blank_line "two")) "doc" 800 0
             eq_refl Hshort).
  reflexivity.
Defined.

(** ** Search results name stored chunks *)

Section ResultChunks.
Context {num : Type} {NUM : Number num} {H : Host}.
Import JSMap JSMapFacts.

Lemma chunk_map_keeps_keys (chunks : list Chunk.t) : forall (m : JSMap.t Chunk.t) k,
  In k (keys m) -> In k (keys (fold_left (fun m c => set (Chunk.id c) c m) chunks m)).
Proof.
  induction chunks as [|c chunks IH]; intros m k Hk; cbn [fold_left]; [exact Hk|].
  apply IH. apply In_keys_set. now right.
Qed.

Lemma chunk_map_ids (chunks : list Chunk.t) : forall m : JSMap.t Chunk.t,
  Forall (fun e => Chunk.id (snd e) = fst e) m ->
  Forall (fun e => Chunk.id (snd e) = fst e)
         (fold_left (fun m c => set (Chunk.id c) c m) chunks m).
Proof.
  induction chunks as [|c chunks IH]; intros m Hm; cbn [fold_left]; [exact Hm|].
  apply IH. apply Forall_set; [exact Hm | reflexivity].
Qed.

Lemma addDocuments_posting_ids (P : string -> Prop) docs : forall idx : BM25Index num,
  (forall t ps p, get (vocab idx) t = Some ps -> In p ps -> P (docId p)) ->
  Forall (fun d => P (id d)) docs ->
  forall t ps p, get (vocab (addDocuments idx docs)) t = Some ps -> In p ps -> P (docId p).
Proof.
  induction docs as [|d docs IH]; intros idx Hold Hdocs; [exact Hold|].
  inversion Hdocs as [|? ? Hd Hdocs']; subst.
  cbn [addDocuments fold_left]. fold (addDocuments (addDocument idx d) docs).
  apply IH; [|exact Hdocs'].
  intros t ps' p Hget Hp.
  destruct (@addDocument_vocab_cases num NUM H idx d t ps' Hget)
    as [(f & _ & _ & ->) | (_ & Hsame)].
  - apply in_app_or in Hp. destruct Hp as [Hp | [<- | []]]; [|exact Hd].
    unfold get_or in Hp. destruct (get (vocab idx) t) as [ps|] eqn:E; [|contradiction].
    exact (Hold t ps p E Hp).
  - exact (Hold t ps' p Hsame Hp).
Qed.

Lemma search_scores_posting_ids (P : string -> Prop) (idx : BM25Index num) query :
  (forall t ps p, get (vocab idx) t = Some ps -> In p ps -> P (docId p)) ->
  Forall (fun e => P (fst e)) (search_scores idx query).
Proof.
  intros Hinv. unfold search_scores.
  assert (Hgen : forall ts (acc : JSMap.t num),
            Forall (fun e => P (fst e)) acc ->
            Forall (fun e => P (fst e))
                   (fold_left (score_term idx (totalDocs idx) (avgDocLen idx)) ts acc)).
  { induction ts as [|t ts IH]; intros acc Hacc; cbn [fold_left]; [exact Hacc|].
    apply IH. unfold score_term. destruct (get (vocab idx) t) as [ps|] eqn:E; [|exact Hacc].
    apply score_postings_ids; [exact Hacc|].
    apply Forall_forall. intros p Hp. exact (Hinv t ps p E Hp). }
  apply Hgen. constructor.
Qed.

(** X4: the fresh worker has no posting, every [handleIngest] keeps
    the link between the sparse index and the chunk map, and so every
    result of a sparse search names a chunk that the chunk map holds
    under the result's id: the lookup [chunkIdToChunk.get(docId)!]
    never yields [undefined]. *)
Theorem search_results_have_chunks :
  postings_have_chunks (@new_Worker num NUM) /\
  (forall (E : Embedder num) (w : Worker num) files method retrieval,
     postings_have_chunks w ->
     postings_have_chunks (fst (handleIngest E w files method retrieval))) /\
  (forall (E : Embedder num) (w : Worker num) query topK,
     postings_have_chunks w ->
     Forall (fun r => exists c, get (chunkIdToChunk w) (r_docId r) = Some c /\
                                Chunk.id c = r_docId r)
            (search (bm25 w) query topK) /\
     exists results,
       snd (handleSearch E w query (Some topK) (Some sparse)) = Some results /\
       Forall (fun r => exists c, sr_chunk r = Some c) results).
Proof.
  split; [|split].
  - split; [|constructor]. intros t ps p Hget. discriminate Hget.
  - intros E w files method retrieval [Hpost Hids].
    destruct (handleIngest_state E w files method retrieval) as [Hmap Hidx].
    cbv zeta in Hmap, Hidx. unfold postings_have_chunks. rewrite Hmap, Hidx.
    split; [|apply chunk_map_ids; exact Hids].
    assert (Hold : forall t ps p, get (vocab (bm25 w)) t = Some ps -> In p ps ->
              In (docId p)
                 (keys (fold_left (fun m c => set (Chunk.id c) c m)
                                  (parseAndChunk files method) (chunkIdToChunk w)))).
    { intros t ps p Hget Hp. apply chunk_map_keeps_keys. exact (Hpost t ps p Hget Hp). }
    assert (Hnew : forall t ps p,
              get (vocab (buildBM25 (bm25 w) (parseAndChunk files method))) t = Some ps ->
              In p ps ->
              In (docId p)
                 (keys (fold_left (fun m c => set (Chunk.id c) c m)
                                  (parseAndChunk files method) (chunkIdToChunk w)))).
    { unfold buildBM25.
      apply (@addDocuments_posting_ids
               (fun x => In x (keys (fold_left (fun m c => set (Chunk.id c) c m)
                                               (parseAndChunk files method)
                                               (chunkIdToChunk w)))));
        [exact Hold|].
      apply Forall_forall. intros d Hd. apply in_map_iff in Hd.
      destruct Hd as [c [<- Hc]]. cbn [id].
      destruct (@chunk_map_has (parseAndChunk files method) (chunkIdToChunk w) c Hc)
        as [c' [Hget _]].
      apply get_Some_In in Hget. change (Chunk.id c) with (fst (Chunk.id c, c')).
      apply in_map. exact Hget. }
    destruct retrieval; assumption.
  - intros E w query topK [Hpost Hids].
    assert (Hres : Forall (fun r => exists c, get (chunkIdToChunk w) (r_docId r) = Some c /\
                                              Chunk.id c = r_docId r)
                          (search (bm25 w) query topK)).
    { apply Forall_forall. intros r Hr. apply search_in_scores in Hr.
      pose proof (@search_scores_posting_ids
                    (fun x => In x (keys (chunkIdToChunk w))) (bm25 w) query Hpost) as Hk.
      rewrite Forall_forall in Hk. specialize (Hk _ Hr). cbn [fst] in Hk.
      destruct (get (chunkIdToChunk w) (r_docId r)) as [c|] eqn:Eg.
      - exists c. split; [reflexivity|]. apply get_Some_In in Eg.
        rewrite Forall_forall in Hids. exact (Hids _ Eg).
      - apply get_None_keys in Eg. contradiction. }
    split; [exact Hres|].
    eexists. split; [reflexivity|].
    apply Forall_forall. intros sr Hsr. apply in_map_iff in Hsr.
    destruct Hsr as [r [<- Hr]]. cbn [sr_chunk].
    rewrite Forall_forall in Hres. destruct (Hres r Hr) as [c [Hc _]].
    exists c. exact Hc.
Qed.
End ResultChunks.

(** ** Ingesting the same files again *)

Section Reingest.
Context {num : Type} {NUM : Number num} {H : Host}.
Import JSMap JSMapFacts.

Lemma chunk_map_wf (chunks : list Chunk.t) : forall m : JSMap.t Chunk.t,
  wf m -> wf (fold_left (fun m c => set (Chunk.id c) c m) chunks m).
Proof.
  induction chunks as [|c chunks IH]; intros m Hm; cbn [fold_left]; [exact Hm|].
  apply IH, wf_set, Hm.
Qed.

Lemma chunk_map_same_keys (chunks : list Chunk.t) : forall m : JSMap.t Chunk.t,
  Forall (fun c => In (Chunk.id c) (keys m)) chunks ->
  keys (fold_left (fun m c => set (Chunk.id c) c m) chunks m) = keys m.
Proof.
  induction chunks as [|c chunks IH]; intros m Hall; cbn [fold_left]; [reflexivity|].
  inversion Hall as [|? ? Hc Hall']; subst.
  rewrite IH.
  - apply keys_set_present. exact Hc.
  - eapply Forall_impl; [|exact Hall']. cbn beta. intros c' Hc'.
    apply In_keys_set. now right.
Qed.

Lemma chunk_map_get_other (chunks : list Chunk.t) : forall (m : JSMap.t Chunk.t) k,
  ~ In k (map Chunk.id chunks) ->
  get (fold_left (fun m c => set (Chunk.id c) c m) chunks m) k = get m k.
Proof.
  induction chunks as [|c chunks IH]; intros m k Hk; cbn [fold_left]; [reflexivity|].
  cbn [map] in Hk. rewrite IH by (intros Hin; apply Hk; now right).
  apply get_set_other. intros Heq. apply Hk. now left.
Qed.

Lemma chunk_map_get_ext (chunks : list Chunk.t) : forall m m' : JSMap.t Chunk.t,
  (forall k, ~ In k (map Chunk.id chunks) -> get m k = get m' k) ->
  forall k, get (fold_left (fun m c => set (Chunk.id c) c m) chunks m) k =
            get (fold_left (fun m c => set (Chunk.id c) c m) chunks m') k.
Proof.
  induction chunks as [|c chunks IH]; intros m m' Hout k; cbn [fold_left].
  - apply Hout. intros [].
  - apply IH. intros k' Hk'.
    destruct (string_dec (Chunk.id c) k') as [<-|Hne].
    + now rewrite !get_set_same.
    + rewrite !(get_set_other _ _ Hne). apply Hout. cbn [map].
      intros [Heq|Hin]; [exact (Hne Heq) | exact (Hk' Hin)].
Qed.

Lemma map_ext_keys {V : Type} (m : JSMap.t V) : forall m' : JSMap.t V,
  keys m = keys m' -> NoDup (keys m) -> (forall k, get m k = get m' k) -> m = m'.
Proof.
  induction m as [|[k v] m IH]; intros [|[k' v'] m'] Hkeys Hnd Hget;
    try discriminate; [reflexivity|].
  cbn [keys map fst] in Hkeys. injection Hkeys as <- Hkeys.
  cbn [keys map fst] in Hnd. inversion Hnd as [|? ? Hfresh Hnd']; subst.
  pose proof (Hget k) as Hk. cbn [get] in Hk. rewrite String.eqb_refl in Hk.
  injection Hk as <-. f_equal. apply IH; [exact Hkeys | exact Hnd'|].
  intros k0. destruct (string_dec k k0) as [<-|Hne].
  - assert (Hn : get m k = None) by (apply get_None_keys; exact Hfresh).
    assert (Hn' : get m' k = None).
    { apply get_None_keys. unfold keys in *. rewrite <- Hkeys. exact Hfresh. }
    congruence.
  - specialize (Hget k0). cbn [get] in Hget.
    apply String.eqb_neq in Hne. rewrite Hne in Hget. exact Hget.
Qed.

(** X11: ingesting the same files again with the same chunking method
    leaves the chunk map exactly as the first ingest left it (the same
    ids in the same order with the same chunks), whatever the
    retrieval modes and the embedder; the sparse index is not so, it
    counts the chunks a second time. *)
Theorem reingest_keeps_chunk_map (E E' : Embedder num) (w : Worker num)
        (files : list IngestFile) (method : option ChunkingMethod)
        (retrieval retrieval' : Retrieval) :
  wf (chunkIdToChunk w) ->
  let w1 := fst (handleIngest E w files method retrieval) in
  let w2 := fst (handleIngest E' w1 files method retrieval') in
  chunkIdToChunk w2 = chunkIdToChunk w1 /\
  (retrieval' <> dense ->
   totalDocs (bm25 w2) =
   Nat.iter (List.length (parseAndChunk files method)) (fun x => nadd x n1)
            (totalDocs (bm25 w1))).
Proof.
  intros Hwf w1 w2.
  destruct (handleIngest_state E w files method retrieval) as [Hmap1 _].
  destruct (handleIngest_state E' w1 files method retrieval') as [Hmap2 Hidx2].
  cbv zeta in Hmap1, Hmap2, Hidx2. fold w1 in Hmap1, Hmap2, Hidx2. fold w2 in Hmap2, Hidx2.
  set (chunks := parseAndChunk files method) in *.
  split.
  - rewrite Hmap2, Hmap1.
    set (m1 := fold_left (fun m c => set (Chunk.id c) c m) chunks (chunkIdToChunk w)).
    apply map_ext_keys.
    + apply chunk_map_same_keys. apply Forall_forall. intros c Hc.
      destruct (@chunk_map_has chunks (chunkIdToChunk w) c Hc) as [c' [Hget _]].
      apply get_Some_In in Hget. change (Chunk.id c) with (fst (Chunk.id c, c')).
      apply in_map. exact Hget.
    + apply chunk_map_wf. apply chunk_map_wf. exact Hwf.
    + apply chunk_map_get_ext. intros k Hk. apply chunk_map_get_other. exact Hk.
  - intros Hmode. rewrite Hidx2.
    assert (Hbuilt : forall (cs : list Chunk.t) (idx : BM25Index num),
              totalDocs (buildBM25 idx cs) =
              Nat.iter (List.length cs) (fun x => nadd x n1) (totalDocs idx)).
    { unfold buildBM25. induction cs as [|c cs IH]; intros idx; [reflexivity|].
      cbn [map addDocuments fold_left List.length].
      fold (addDocuments (addDocument idx {| id := Chunk.id c; text := Chunk.text c |})
                         (map (fun c0 => {| id := Chunk.id c0; text := Chunk.text c0 |}) cs)).
      rewrite IH. rewrite Nat.iter_succ_r. reflexivity. }
    destruct retrieval'; [apply Hbuilt | congruence | apply Hbuilt].
Qed.
End Reingest.

Lemma reingest_keeps_chunk_map_witness :
  JSMap.wf (chunkIdToChunk (@new_Worker float (float_number series_log))) /\
  chunkIdToChunk
    (fst (@handleIngest float (float_number series_log) (ascii_host None) no_embedder
            (fst (@handleIngest float (float_number series_log) (ascii_host None)
                    no_embedder (@new_Worker float (float_number series_log))
                    cat_files None sparse))
            cat_files None hybrid))
  = chunkIdToChunk
      (fst (@handleIngest float (float_number series_log) (ascii_host None)
              no_embedder (@new_Worker float (float_number series_log))
              cat_files None sparse)).
Proof.
  assert (Hwf : JSMap.wf (chunkIdToChunk (@new_Worker float (float_number series_log))))
    by constructor.
  split; [exact Hwf|].
  exact (proj1 (@reingest_keeps_chunk_map float (float_number series_log)
                  (ascii_host None) no_embedder no_embedder
                  (@new_Worker float (float_number series_log))
                  cat_files None sparse hybrid Hwf)).
Defined.
